(** * frunk: dependency graph builder, pattern resolver, parser and executor

    A shallow embedding of the core of frunk (src/unnamed/part_007:
    [GraphBuilder], src/src/core/pattern-matcher.ts: [PatternMatcher],
    src/src/core/parser.ts: [Parser], src/unnamed/part_004: [Executor]).

    Modelling conventions.
    - JS strings are [String.string]; a character is an 8-bit code unit
      ([Ascii.ascii], read as the Latin-1 block of UTF-16).
    - A JS [Map]/[Set]/object used as a map is an association list kept in
      insertion order (the order JS iterates string keys; integer-like keys,
      which JS iterates first, are not singled out).
    - Thrown exceptions are the [Error] branch of a [result] type.
    - The graphlib library ([Graph], [alg.topsort], [alg.isAcyclic],
      [alg.findCycles]) is modelled from its sources and documentation.
    - micromatch is modelled by a Boolean matcher [isMatch], left as a
      parameter: every theorem holds for all matchers. *)

From Stdlib Require Import String Ascii List Bool Arith ZArith Lia Relations.
Import ListNotations.
Open Scope string_scope.
Open Scope list_scope.

(** ** Results (exceptions) *)

Inductive result (E A : Type) : Type :=
| Ok : A -> result E A
| Error : E -> result E A.
Arguments Ok {E A} _.
Arguments Error {E A} _.

Definition bind {E A B} (m : result E A) (f : A -> result E B) : result E B :=
  match m with Ok a => f a | Error e => Error e end.

Notation "x <- m ;; k" := (bind m (fun x => k))
  (at level 61, m at next level, right associativity).

(** [for (const x of l) acc = f(x, acc)], stopping at the first throw. *)
Fixpoint forEachResult {E A B} (f : A -> B -> result E B) (l : list A) (acc : B)
  : result E B :=
  match l with
  | [] => Ok acc
  | x :: l' => acc' <- f x acc ;; forEachResult f l' acc'
  end.

(** ** Characters and JS string helpers *)

Module JsString.

Definition chars (s : string) : list ascii := list_ascii_of_string s.
Definition of_chars (l : list ascii) : string := string_of_list_ascii l.

Definition code (c : ascii) : nat := nat_of_ascii c.

(** JS [\s]: WhiteSpace and LineTerminator code units below 256. *)
Definition isSpace (c : ascii) : bool :=
  let n := code c in
  Nat.eqb n 9 || Nat.eqb n 10 || Nat.eqb n 11 || Nat.eqb n 12 || Nat.eqb n 13
  || Nat.eqb n 32 || Nat.eqb n 160.

(** JS [.] without the [s] flag: anything but a line terminator. *)
Definition isDot (c : ascii) : bool :=
  negb (Nat.eqb (code c) 10 || Nat.eqb (code c) 13).

(** JS [\d]. *)
Definition isDigit (c : ascii) : bool :=
  Nat.leb 48 (code c) && Nat.leb (code c) 57.

Definition ascii_eqb (a b : ascii) : bool := Ascii.eqb a b.

(** [s.startsWith(p)]. *)
Definition startsWith (s p : string) : bool := String.prefix p s.

(** [s.endsWith(p)]. *)
Definition endsWith (s p : string) : bool :=
  String.prefix (of_chars (rev (chars p))) (of_chars (rev (chars s))).

(** [s.includes(p)]. *)
Fixpoint includes (s p : string) : bool :=
  String.prefix p s ||
  match s with
  | EmptyString => false
  | String _ s' => includes s' p
  end.

(** [s.slice(n)] for [n >= 0]. *)
Definition sliceFrom (n : nat) (s : string) : string := substring n (String.length s - n) s.

(** [s.slice(1, -1)]. *)
Definition sliceInner (s : string) : string := substring 1 (String.length s - 2) s.

Fixpoint dropWhile (p : ascii -> bool) (l : list ascii) : list ascii :=
  match l with
  | [] => []
  | c :: l' => if p c then dropWhile p l' else l
  end.

(** [s.trim()]. *)
Definition trim (s : string) : string :=
  of_chars (rev (dropWhile isSpace (rev (dropWhile isSpace (chars s))))).

(** [s.split(",")] on a one-character separator. *)
Fixpoint splitChars (sep : ascii) (l : list ascii) (cur : list ascii)
  : list (list ascii) :=
  match l with
  | [] => [rev cur]
  | c :: l' =>
      if ascii_eqb c sep then rev cur :: splitChars sep l' []
      else splitChars sep l' (c :: cur)
  end.

Definition split (sep : ascii) (s : string) : list string :=
  map of_chars (splitChars sep (chars s) []).

(** [a.join(" ")]. *)
Fixpoint joinSpace (l : list string) : string :=
  match l with
  | [] => ""
  | [x] => x
  | x :: l' => (x ++ " " ++ joinSpace l')%string
  end.

(** JS truthiness of a string. *)
Definition truthy (s : string) : bool := negb (String.eqb s "").

(** [[...new Set(l)]]: first occurrences, in order. *)
Fixpoint dedupAux (seen : list string) (l : list string) : list string :=
  match l with
  | [] => []
  | x :: l' =>
      if existsb (String.eqb x) seen then dedupAux seen l'
      else x :: dedupAux (x :: seen) l'
  end.
Definition dedup (l : list string) : list string := dedupAux [] l.

(** The double quote character, written without a quote in a literal. *)
Definition dq : string := String (ascii_of_nat 34) EmptyString.

(** Decimal rendering of a counter ([`${n}`]). *)
Fixpoint digitsOf (fuel n : nat) (acc : string) : string :=
  match fuel with
  | 0 => acc
  | S f =>
      let d := String (ascii_of_nat (48 + n mod 10)) acc in
      if Nat.ltb n 10 then d else digitsOf f (n / 10) d
  end.
Definition showNat (n : nat) : string := digitsOf (S n) n "".

End JsString.

Import JsString.

(** ** A backtracking matcher for the JS regular expressions of the source

    Continuation-passing, in the order ECMAScript's backtracking explores
    alternatives: [RAlt] tries its left branch first, a greedy star tries
    one more iteration first and a lazy star tries to stop first; an
    iteration that consumes nothing fails (ECMAScript's empty check). *)

Module Regex.

Inductive rx : Type :=
| REps
| RChr (c : ascii)
| RCls (p : ascii -> bool)
| RSeq (r1 r2 : rx)
| RAlt (r1 r2 : rx)
| RStar (greedy : bool) (r : rx)
| RGroup (n : nat) (r : rx)
| RBol
| REol.

(** Captures: group number and captured text; the latest binding wins. *)
Definition caps := list (nat * string).

Section Match.
Variable n0 : nat. (* length of the whole input, for [^] *)

Fixpoint mt (r : rx) (k : list ascii -> caps -> option caps)
         (s : list ascii) (cs : caps) {struct r} : option caps :=
  match r with
  | REps => k s cs
  | RChr c =>
      match s with
      | c' :: s' => if Ascii.eqb c c' then k s' cs else None
      | [] => None
      end
  | RCls p =>
      match s with
      | c' :: s' => if p c' then k s' cs else None
      | [] => None
      end
  | RSeq r1 r2 => mt r1 (fun s' cs' => mt r2 k s' cs') s cs
  | RAlt r1 r2 =>
      match mt r1 k s cs with
      | Some x => Some x
      | None => mt r2 k s cs
      end
  | RStar g r1 =>
      (fix loop (fuel : nat) (s : list ascii) (cs : caps) {struct fuel} :=
         match fuel with
         | 0 => None
         | S f =>
             let more :=
               mt r1 (fun s' cs' =>
                        if Nat.ltb (List.length s') (List.length s) then loop f s' cs'
                        else None) s cs in
             if g then match more with Some x => Some x | None => k s cs end
             else match k s cs with Some x => Some x | None => more end
         end) (S (List.length s)) s cs
  | RGroup n r1 =>
      mt r1 (fun s' cs' =>
               k s' ((n, of_chars (firstn (List.length s - List.length s') s)) :: cs'))
         s cs
  | RBol => if Nat.eqb (List.length s) n0 then k s cs else None
  | REol => match s with [] => k s cs | _ => None end
  end.

End Match.

(** [str.match(re)] without the [g] flag: the first start position that
    matches, with the captures of that match. *)
Fixpoint searchFrom (n0 : nat) (r : rx) (s : list ascii) : option caps :=
  match mt n0 r (fun _ cs => Some cs) s [] with
  | Some cs => Some cs
  | None => match s with [] => None | _ :: s' => searchFrom n0 r s' end
  end.

Definition exec (r : rx) (s : string) : option caps :=
  searchFrom (List.length (chars s)) r (chars s).

Fixpoint capture (n : nat) (cs : caps) : option string :=
  match cs with
  | [] => None
  | (m, v) :: cs' => if Nat.eqb m n then Some v else capture n cs'
  end.

(** Building blocks. *)
Fixpoint seqs (l : list rx) : rx :=
  match l with [] => REps | [r] => r | r :: l' => RSeq r (seqs l') end.
Fixpoint lit_l (l : list ascii) : rx :=
  match l with [] => REps | [c] => RChr c | c :: l' => RSeq (RChr c) (lit_l l') end.
Definition lit (s : string) : rx := lit_l (chars s).
Definition plus (r : rx) : rx := RSeq r (RStar true r).
Definition lazyPlus (r : rx) : rx := RSeq r (RStar false r).
Definition star (r : rx) : rx := RStar true r.
Definition lazyStar (r : rx) : rx := RStar false r.
Definition opt (r : rx) : rx := RAlt r REps.
Definition sp : rx := RCls isSpace.
Definition dot : rx := RCls isDot.

End Regex.

Import Regex.

(** ** The regular expressions of graph-builder (part_007, lines 11-16) *)

(** [/^node\s+.*\/cli\.js\s+\[/] *)
Definition NODE_CLI_PATTERN : rx :=
  seqs [RBol; lit "node"; plus sp; star dot; lit "/cli.js"; plus sp; lit "["].

(** [/^(?:f|frunk)\s+--\s+(.+)$/] *)
Definition SIMPLE_FRUNK_PATTERN : rx :=
  seqs [RBol; RAlt (lit "f") (lit "frunk"); plus sp; lit "--"; plus sp;
        RGroup 1 (plus dot); REol].

(** [(\[.+?\])(?:\s+.*?)?\s*(?:--\s+(.+))?$], the common tail. *)
Definition FRUNK_TAIL : list rx :=
  [RGroup 1 (seqs [lit "["; lazyPlus dot; lit "]"]);
   opt (RSeq (plus sp) (lazyStar dot));
   star sp;
   opt (seqs [lit "--"; plus sp; RGroup 2 (plus dot)]);
   REol].

(** [/^(?:f|frunk)\s+(\[.+?\])(?:\s+.*?)?\s*(?:--\s+(.+))?$/] *)
Definition STANDARD_FRUNK_PATTERN : rx :=
  seqs ([RBol; RAlt (lit "f") (lit "frunk"); plus sp] ++ FRUNK_TAIL).

(** [/(?:cli\.js|node\s+.*\/cli\.js)\s+(\[.+?\])(?:\s+.*?)?\s*(?:--\s+(.+))?$/] *)
Definition PATH_BASED_PATTERN : rx :=
  seqs ([RAlt (lit "cli.js") (seqs [lit "node"; plus sp; star dot; lit "/cli.js"]);
         plus sp] ++ FRUNK_TAIL).

(** ** parseFrunkCommand (part_007, lines 309-362) *)

Record FrunkCmd := mkFrunkCmd {
  fc_dependencies : list string;
  fc_finalCommand : option string
}.

Definition parseFrunkCommand (command : string) : option FrunkCmd :=
  let simple := match exec SIMPLE_FRUNK_PATTERN command with
                | Some cs => match capture 1 cs with
                             | Some s => if truthy s then Some s else None
                             | None => None
                             end
                | None => None
                end in
  match simple with
  | Some s => Some (mkFrunkCmd [] (Some (trim s)))
  | None =>
      let m := match exec STANDARD_FRUNK_PATTERN command with
               | Some cs => Some cs
               | None => exec PATH_BASED_PATTERN command
               end in
      match m with
      | None => None
      | Some cs =>
          match capture 1 cs with
          | None => None
          | Some patternsStr =>
              if negb (truthy patternsStr) then None
              else if negb (startsWith patternsStr "[" && endsWith patternsStr "]")
              then None
              else
                let patterns :=
                  filter truthy (map trim (split ","%char (sliceInner patternsStr))) in
                let fin := match capture 2 cs with
                           | Some f => if truthy f then Some (trim f) else None
                           | None => None
                           end in
                Some (mkFrunkCmd patterns fin)
          end
      end
  end.

(** ** Manifest entries (types.ts [Script]) *)

Record Script := mkScript { s_name : string; s_command : string }.

(** ** PatternMatcher (src/src/core/pattern-matcher.ts, lines 1-145) *)

Module PatternMatcher.

Inductive PMError : Type :=
| ScriptNotFound (pattern : string)  (* [throw new Error(`Script not found: ...`)] *)
| EmptyPattern.                      (* picomatch: "Expected pattern to be a non-empty string" *)

Section WithMatcher.

(** [isMatch pattern name]: whether micromatch's glob [pattern] matches
    [name]; any Boolean function (negations included). *)
Variable isMatch : string -> string -> bool.

(** [micromatch(list, pattern)]: the matching items, first occurrences in
    list order; an empty pattern is rejected by picomatch. *)
Definition micromatch (l : list string) (pattern : string)
  : result PMError (list string) :=
  if truthy pattern then Ok (dedup (filter (isMatch pattern) l))
  else Error EmptyPattern.

Definition isGlobPattern (pattern : string) : bool :=
  includes pattern "*" || includes pattern "?" || includes pattern "["
  || includes pattern ":".

Definition findMatches (pattern : string) (scriptNames : list string)
  : result PMError (list string) :=
  if isGlobPattern pattern then micromatch scriptNames pattern
  else if existsb (String.eqb pattern) scriptNames then Ok [pattern]
  else
    matches <- micromatch scriptNames pattern ;;
    match matches with
    | [] => Error (ScriptNotFound pattern)
    | _ => Ok matches
    end.

Definition processExclusion (excludePattern : string) (res : list string)
  : result PMError (list string) :=
  if includes excludePattern "*" || includes excludePattern "?" then
    toRemove <- micromatch res excludePattern ;;
    Ok (filter (fun name => negb (existsb (String.eqb name) toRemove)) res)
  else Ok (filter (fun name => negb (String.eqb name excludePattern)) res).

Definition parseNestedGroup (input : string) : list string :=
  map trim (split ","%char (sliceInner input)).

Definition seqTag (r : string) : string := ("SEQ:" ++ r)%string.

(** [resolvePatterns], with the recursion of [processSequential] on a
    nested group bounded by [fuel]; [resolvePatterns] below gives a bound
    the recursion never reaches (a nested group is shorter than its
    pattern). *)
Fixpoint resolveF (fuel : nat) (patterns : list string) (scripts : list Script)
  : result PMError (list string) :=
  match fuel with
  | 0 => Ok []
  | S f =>
      let scriptNames := map s_name scripts in
      let processSequential (pattern : string) (cur : list string) :=
        let actualPattern := sliceFrom 4 pattern in
        if startsWith actualPattern "[" && endsWith actualPattern "]" then
          resolved <- resolveF f (parseNestedGroup actualPattern) scripts ;;
          Ok (cur ++ map seqTag resolved)
        else
          matches <- micromatch scriptNames actualPattern ;;
          Ok (cur ++ map seqTag matches) in
      let processPattern (pattern : string) (cur : list string) :=
        if startsWith pattern "!" then processExclusion (sliceFrom 1 pattern) cur
        else if startsWith pattern "SEQ:" then processSequential pattern cur
        else (matches <- findMatches pattern scriptNames ;; Ok (cur ++ matches)) in
      res <- forEachResult processPattern patterns [] ;; Ok (dedup res)
  end.

Definition resolvePatterns (patterns : list string) (scripts : list Script)
  : result PMError (list string) :=
  resolveF (S (list_sum (map String.length patterns))) patterns scripts.


(** [hasMatches] (lines 112-116). *)
Definition hasMatches (pattern : string) (availableScripts : list Script)
  : result PMError bool :=
  let scriptNames := map s_name availableScripts in
  let cleanPattern := if startsWith pattern "!" then sliceFrom 1 pattern else pattern in
  matches <- micromatch scriptNames cleanPattern ;;
  Ok (Nat.ltb 0 (length matches)).

(** [validatePatterns] (lines 121-144): its own error, or a matcher error
    thrown by [hasMatches]. *)
Inductive ValidationError : Type :=
| NoScriptsFound (pattern : string)  (* [No scripts found matching: ...] *)
| ValidationMatcherError (e : PMError).

Definition validatePattern (availableScripts : list Script) (pattern : string) (u : unit)
  : result ValidationError unit :=
  if startsWith pattern "!" then Ok u
  else if startsWith pattern "SEQ:" then Ok u
  else
    match hasMatches pattern availableScripts with
    | Error e => Error (ValidationMatcherError e)
    | Ok b => if b || includes pattern "*" || includes pattern "?" then Ok u
              else Error (NoScriptsFound pattern)
    end.

Definition validatePatterns (patterns : list string) (availableScripts : list Script)
  : result ValidationError unit :=
  forEachResult (validatePattern availableScripts) patterns tt.

End WithMatcher.

(** A small glob matcher ([*] any run, [?] any character, other characters
    literal), used only to run examples. *)
Fixpoint globChars (p s : list ascii) : bool :=
  match p with
  | [] => match s with [] => true | _ => false end
  | c :: p' =>
      if Ascii.eqb c "*"%char then
        (fix star (s : list ascii) : bool :=
           globChars p' s || match s with [] => false | _ :: s' => star s' end) s
      else
        match s with
        | [] => false
        | d :: s' => (Ascii.eqb c "?"%char || Ascii.eqb c d) && globChars p' s'
        end
  end.

Definition globMatch (pattern name : string) : bool :=
  globChars (chars pattern) (chars name).

End PatternMatcher.

Import PatternMatcher.

(** ** Parser (src/src/core/parser.ts) *)

Module Parser.

Inductive Prefix := PrefixOff | PrefixStr (s : string).

Record Config := mkConfig {
  cfg_quiet : option bool;
  cfg_continue : option bool;
  cfg_prefix : option Prefix
}.

Record ParsedCommand := mkParsed {
  pc_config : Config;
  pc_patterns : list string;
  pc_command : option string
}.

Inductive ParseError := NestedFrunkCommand.

Definition emptyConfig : Config := mkConfig None None None.

Definition setQuiet (c : Config) := mkConfig (Some true) (cfg_continue c) (cfg_prefix c).
Definition setContinue (c : Config) := mkConfig (cfg_quiet c) (Some true) (cfg_prefix c).
Definition setPrefix (p : Prefix) (c : Config) := mkConfig (cfg_quiet c) (cfg_continue c) (Some p).

Definition withConfig (f : Config -> Config) (r : ParsedCommand) : ParsedCommand :=
  mkParsed (f (pc_config r)) (pc_patterns r) (pc_command r).
Definition addPatterns (ps : list string) (r : ParsedCommand) : ParsedCommand :=
  mkParsed (pc_config r) (pc_patterns r ++ ps) (pc_command r).

(** [extractCommand]: the arguments before the first ["--"] and, when
    there is one, the arguments after it joined by spaces. *)
Fixpoint splitAtSeparator (args : list string) : list string * option (list string) :=
  match args with
  | [] => ([], None)
  | a :: rest =>
      if String.eqb a "--" then ([], Some rest)
      else let (before, after) := splitAtSeparator rest in (a :: before, after)
  end.

Definition extractCommand (args : list string) : list string * option string :=
  let (argsToProcess, after) := splitAtSeparator args in
  (argsToProcess, option_map joinSpace after).

Definition pushTrimmed (cur : list ascii) (acc : list string) : list string :=
  let t := trim (of_chars (rev cur)) in
  if truthy t then acc ++ [t] else acc.

(** [parsePatternGroup]: split on commas outside braces. *)
Fixpoint groupLoop (l : list ascii) (depth : Z) (cur : list ascii) (acc : list string)
  : list string :=
  match l with
  | [] => pushTrimmed cur acc
  | c :: l' =>
      let depth' := if Ascii.eqb c "{"%char then (depth + 1)%Z
                    else if Ascii.eqb c "}"%char then (depth - 1)%Z else depth in
      if Ascii.eqb c ","%char && Z.eqb depth' 0 then groupLoop l' depth' [] (pushTrimmed cur acc)
      else groupLoop l' depth' (c :: cur) acc
  end.

Definition parsePatternGroup (input : string) : list string :=
  groupLoop (chars (sliceInner input)) 0%Z [] [].

(** [splitByArrow]: split on ["->"] outside brackets. *)
Fixpoint arrowLoop (l : list ascii) (depth : Z) (cur : list ascii) (acc : list string)
  : list string :=
  match l with
  | [] => pushTrimmed cur acc
  | c :: l' =>
      let depth' := if Ascii.eqb c "["%char then (depth + 1)%Z
                    else if Ascii.eqb c "]"%char then (depth - 1)%Z else depth in
      match l' with
      | d :: l'' =>
          if Ascii.eqb c "-"%char && Ascii.eqb d ">"%char && Z.eqb depth' 0
          then arrowLoop l'' depth' [] (pushTrimmed cur acc)
          else arrowLoop l' depth' (c :: cur) acc
      | [] => arrowLoop l' depth' (c :: cur) acc
      end
  end.

Definition splitByArrow (input : string) : list string :=
  arrowLoop (chars input) 0%Z [] [].

Definition formatSequentialPart (part : string) : string :=
  let cleanPart := if startsWith part "[" && endsWith part "]" then sliceInner part
                   else part in
  if includes cleanPart "," then ("SEQ:[" ++ cleanPart ++ "]")%string
  else ("SEQ:" ++ cleanPart)%string.

Definition parseSequentialChain (input : string) : list string :=
  map formatSequentialPart (splitByArrow input).

Definition processPattern (arg : string) (r : ParsedCommand) : ParsedCommand :=
  if includes arg "->" then addPatterns (parseSequentialChain arg) r
  else addPatterns (parsePatternGroup arg) r.

(** Unknown flags only print a warning. *)
Definition processLongFlag (flag : string) (r : ParsedCommand) : ParsedCommand :=
  if String.eqb flag "quiet" || String.eqb flag "q" then withConfig setQuiet r
  else if String.eqb flag "continue" || String.eqb flag "c" then withConfig setContinue r
  else if String.eqb flag "no-prefix" then withConfig (setPrefix PrefixOff) r
  else if startsWith flag "prefix=" then withConfig (setPrefix (PrefixStr (sliceFrom 7 flag))) r
  else r.

Definition processShortFlags (flags : string) (r : ParsedCommand) : ParsedCommand :=
  fold_left (fun r c =>
               if Ascii.eqb c "q"%char then withConfig setQuiet r
               else if Ascii.eqb c "c"%char then withConfig setContinue r
               else r) (chars flags) r.

Definition processArg (r : ParsedCommand) (arg : string) : ParsedCommand :=
  if startsWith arg "[" && endsWith arg "]" then processPattern arg r
  else if startsWith arg "--" then processLongFlag (sliceFrom 2 arg) r
  else if startsWith arg "-" then processShortFlags (sliceFrom 1 arg) r
  else r.

Definition parse (args : list string) : result ParseError ParsedCommand :=
  let (argsToProcess, command) := extractCommand args in
  let start := mkParsed emptyConfig [] None in
  match command with
  | Some c =>
      if startsWith c "f " || startsWith c "frunk " then Error NestedFrunkCommand
      else Ok (fold_left processArg argsToProcess (mkParsed emptyConfig [] (Some c)))
  | None => Ok (fold_left processArg argsToProcess start)
  end.

End Parser.

(** ** Tasks and execution nodes (types.ts) *)

Record Task := mkTask {
  t_command : string;
  t_dependencies : list string;
  t_name : string
}.

Record ExecutionNode := mkNode {
  en_dependencies : list string;
  en_id : string;
  en_sequential : bool;
  en_tasks : list Task
}.

(** ** Executor (src/unnamed/part_004)

    One iteration of the scheduling loop of [execute] (lines 110-134).
    Subprocess outcomes are an oracle [taskFails]; the [aborted] flag is set
    by the signal handler and read here. Each [Promise.all] batch is awaited
    before the next iteration, so a batch is one step. *)

Module Executor.

Record RunOptions := mkRunOptions { opt_continue : bool }.

Record ExecState := mkExecState {
  es_running : list string;
  es_completed : list string;
  es_failed : list string;
  es_aborted : bool
}.

Inductive ExecError :=
| StuckError (ids : list string)  (* "Cannot run nodes due to failed dependencies: ..." *)
| TaskFailed (node : string).

Inductive StepResult :=
| LoopExit (st : ExecState)        (* the [while] condition is false, or [break] *)
| LoopNext (st : ExecState)        (* next iteration (after a batch or a poll) *)
| LoopThrow (e : ExecError).

Definition mem (x : string) (l : list string) : bool := existsb (String.eqb x) l.
Definition setAdd (x : string) (l : list string) : list string :=
  if mem x l then l else l ++ [x].

Definition canRun (st : ExecState) (node : ExecutionNode) : bool :=
  if mem (en_id node) (es_completed st) || mem (en_id node) (es_running st) then false
  else forallb (fun dep => mem dep (es_completed st)) (en_dependencies node).

Section Run.
Variable opts : RunOptions.
Variable taskFails : Task -> bool.

(** [runTask] rejects when the subprocess fails, the run is not aborted and
    [continue] is off. *)
Definition runTaskThrows (st : ExecState) (t : Task) : bool :=
  taskFails t && negb (es_aborted st) && negb (opt_continue opts).

(** [runNode]: a sequential node stops at its first rejecting task, a
    parallel one awaits all; either way it rejects iff some task rejects. *)
Definition runNodeThrows (st : ExecState) (node : ExecutionNode) : bool :=
  existsb (runTaskThrows st) (en_tasks node).

Definition loopStep (nodes : list ExecutionNode) (st : ExecState) : StepResult :=
  if negb (Nat.ltb (length (es_completed st)) (length nodes) && negb (es_aborted st))
  then LoopExit st
  else
    let runnableNodes := filter (canRun st) nodes in
    match runnableNodes with
    | [] =>
        match es_running st with
        | [] =>
            let remaining := filter (fun n => negb (mem (en_id n) (es_completed st))) nodes in
            match remaining with
            | [] => LoopExit st
            | _ => LoopThrow (StuckError (map en_id remaining))
            end
        | _ => LoopNext st
        end
    | _ =>
        match filter (runNodeThrows st) runnableNodes with
        | n :: _ =>
            if opt_continue opts then
              LoopNext (mkExecState (es_running st)
                          (fold_left (fun c n => if runNodeThrows st n then c
                                                 else setAdd (en_id n) c)
                             runnableNodes (es_completed st))
                          (fold_left (fun c n => if runNodeThrows st n
                                                 then setAdd (en_id n) c else c)
                             runnableNodes (es_failed st))
                          (es_aborted st))
            else LoopThrow (TaskFailed (en_id n))
        | [] =>
            LoopNext (mkExecState (es_running st)
                        (fold_left (fun c n => setAdd (en_id n) c) runnableNodes (es_completed st))
                        (es_failed st) (es_aborted st))
        end
    end.

(** [execute]: the loop from the initial state, for at most [fuel] iterations. *)
Fixpoint executeF (fuel : nat) (nodes : list ExecutionNode) (st : ExecState)
  : option (result ExecError ExecState) :=
  match fuel with
  | 0 => None
  | S f =>
      match loopStep nodes st with
      | LoopExit st' => Some (Ok st')
      | LoopNext st' => executeF f nodes st'
      | LoopThrow e => Some (Error e)
      end
  end.

End Run.

Definition initialState (aborted : bool) : ExecState := mkExecState [] [] [] aborted.

End Executor.

(** ** graphlib: [Graph], [alg.topsort], [alg.isAcyclic], [alg.findCycles]

    A directed simple graph (graphlib's default [new Graph()]): node keys
    with an optional label, in insertion order, and edges in insertion
    order. Labels are the builder's [TaskNode]s; the [isPlaceholder] field
    is never set by the builder and is left out. *)

Module Graphlib.

Record Graph := mkGraph {
  g_nodes : list (string * option Task);
  g_edges : list (string * string)
}.

Definition emptyGraph : Graph := mkGraph [] [].

Definition nodes (g : Graph) : list string := map fst (g_nodes g).

Definition hasNode (g : Graph) (v : string) : bool :=
  existsb (String.eqb v) (nodes g).

Fixpoint lookupLabel (l : list (string * option Task)) (v : string) : option Task :=
  match l with
  | [] => None
  | (k, lab) :: l' => if String.eqb k v then lab else lookupLabel l' v
  end.

(** [g.node(v)]. *)
Definition node (g : Graph) (v : string) : option Task := lookupLabel (g_nodes g) v.

(** [g.setNode(v, label)]: an existing key keeps its place. *)
Definition setNode (g : Graph) (v : string) (label : Task) : Graph :=
  if hasNode g v then
    mkGraph (map (fun kl => if String.eqb (fst kl) v then (v, Some label) else kl) (g_nodes g))
            (g_edges g)
  else mkGraph (g_nodes g ++ [(v, Some label)]) (g_edges g).

(** [g.setNode(v)] without a label, as [setEdge] does for its ends. *)
Definition ensureNode (g : Graph) (v : string) : Graph :=
  if hasNode g v then g else mkGraph (g_nodes g ++ [(v, None)]) (g_edges g).

Definition edge_eqb (e f : string * string) : bool :=
  String.eqb (fst e) (fst f) && String.eqb (snd e) (snd f).

Definition hasEdge (g : Graph) (v w : string) : bool :=
  existsb (edge_eqb (v, w)) (g_edges g).

(** [g.setEdge(v, w)]. *)
Definition setEdge (g : Graph) (v w : string) : Graph :=
  if hasEdge g v w then g
  else let g' := ensureNode (ensureNode g v) w in
       mkGraph (g_nodes g') (g_edges g' ++ [(v, w)]).

Definition successors (g : Graph) (v : string) : list string :=
  map snd (filter (fun e => String.eqb (fst e) v) (g_edges g)).

Definition predecessors (g : Graph) (v : string) : list string :=
  map fst (filter (fun e => String.eqb (snd e) v) (g_edges g)).

Definition sinks (g : Graph) : list string :=
  filter (fun v => match successors g v with [] => true | _ => false end) (nodes g).

Definition memb (x : string) (l : list string) : bool := existsb (String.eqb x) l.

(** [alg.topsort]: depth-first from the sinks along predecessors; a node
    met again while on the stack, or nodes left unvisited, raise
    [CycleException]. The recursion of [visit] is bounded by [fuel]. *)
Inductive CycleException := CycleExc.

Record TopState := mkTop {
  ts_visited : list string;
  ts_stack : list string;
  ts_results : list string
}.

Fixpoint visit (g : Graph) (fuel : nat) (v : string) (st : TopState)
  : result CycleException TopState :=
  match fuel with
  | 0 => Error CycleExc
  | S f =>
      if memb v (ts_stack st) then Error CycleExc
      else if memb v (ts_visited st) then Ok st
      else
        st' <- forEachResult (visit g f) (predecessors g v)
                 (mkTop (ts_visited st ++ [v]) (ts_stack st ++ [v]) (ts_results st)) ;;
        Ok (mkTop (ts_visited st')
                  (filter (fun x => negb (String.eqb x v)) (ts_stack st'))
                  (ts_results st' ++ [v]))
  end.

Fixpoint visitEach (g : Graph) (fuel : nat) (vs : list string) (st : TopState)
  : result CycleException TopState :=
  match vs with
  | [] => Ok st
  | v :: vs' => st' <- visit g fuel v st ;; visitEach g fuel vs' st'
  end.

Definition topsort (g : Graph) : result CycleException (list string) :=
  st <- visitEach g (S (length (nodes g))) (sinks g) (mkTop [] [] []) ;;
  if Nat.eqb (length (ts_visited st)) (length (nodes g)) then Ok (ts_results st)
  else Error CycleExc.

Definition isAcyclic (g : Graph) : bool :=
  match topsort g with Ok _ => true | Error _ => false end.

(** [alg.findCycles]: the strongly connected components (Tarjan's
    algorithm; the order of the components is not modelled) that have
    more than one node or a self-loop. A component is computed here from
    reachability, the closure of [successors] from a node. *)
Definition stepReach (g : Graph) (s : list string) : list string :=
  s ++ filter (fun w => negb (memb w s)) (dedup (flat_map (successors g) s)).

Fixpoint iterReach (g : Graph) (n : nat) (s : list string) : list string :=
  match n with 0 => s | S n' => iterReach g n' (stepReach g s) end.

Definition reachFrom (g : Graph) (v : string) : list string :=
  iterReach g (length (nodes g)) [v].

Definition component (g : Graph) (v : string) : list string :=
  filter (fun u => memb u (reachFrom g v) && memb v (reachFrom g u)) (nodes g).

Fixpoint dedupLists (seen : list (list string)) (l : list (list string))
  : list (list string) :=
  match l with
  | [] => []
  | c :: l' =>
      if existsb (fun d => if list_eq_dec string_dec c d then true else false) seen
      then dedupLists seen l'
      else c :: dedupLists (c :: seen) l'
  end.

Definition findCycles (g : Graph) : list (list string) :=
  filter (fun c => match c with
                   | [] => false
                   | [x] => hasEdge g x x
                   | _ => true
                   end)
         (dedupLists [] (map (component g) (nodes g))).

End Graphlib.

Import Graphlib.

(** ** GraphBuilder (src/unnamed/part_007) *)

Module GraphBuilder.

(** [/^SEQ\d*:/] as used by [p.replace(SEQ_MARKER_REGEX, "")]: the regex
    is anchored and its digit run is followed by a colon, so the match is
    ["SEQ"], the maximal run of digits, and [":"], at the start. *)
Fixpoint spanDigits (l : list ascii) : list ascii * list ascii :=
  match l with
  | c :: l' => if isDigit c then let (d, r) := spanDigits l' in (c :: d, r) else ([], l)
  | [] => ([], [])
  end.

Definition stripSeqMarker (p : string) : string :=
  match chars p with
  | "S"%char :: "E"%char :: "Q"%char :: rest =>
      match spanDigits rest with
      | (_, ":"%char :: name) => of_chars name
      | _ => p
      end
  | _ => p
  end.

(** [/^SEQ(\d+):(.+)$/]: ["SEQ"], a non-empty maximal digit run (group 1),
    [":"], and a non-empty rest without line terminators (group 2). *)
Definition seqIndexCapture (p : string) : option (string * string) :=
  match chars p with
  | "S"%char :: "E"%char :: "Q"%char :: rest =>
      match spanDigits rest with
      | ((_ :: _) as ds, ":"%char :: ((_ :: _) as name)) =>
          if forallb isDot name then Some (of_chars ds, of_chars name) else None
      | _ => None
      end
  | _ => None
  end.

(** [Number.parseInt(ds, 10)] on a digit string. *)
Definition parseDecimal (ds : string) : nat :=
  fold_left (fun acc c => acc * 10 + (nat_of_ascii c - 48)) (chars ds) 0.

Fixpoint insertSorted (n : nat) (l : list nat) : list nat :=
  match l with
  | [] => [n]
  | m :: l' => if Nat.leb n m then n :: l else m :: insertSorted n l'
  end.

Fixpoint groupLookup (m : list (nat * list string)) (i : nat) : option (list string) :=
  match m with
  | [] => None
  | (j, g) :: m' => if Nat.eqb i j then Some g else groupLookup m' i
  end.

Definition groupPush (m : list (nat * list string)) (i : nat) (name : string)
  : list (nat * list string) :=
  match groupLookup m i with
  | Some _ => map (fun jg => if Nat.eqb (fst jg) i then (i, snd jg ++ [name]) else jg) m
  | None => m ++ [(i, [name])]
  end.

(** [parseSequentialGroups] (lines 369-418). *)
Definition parseSequentialGroups (patterns : list string) : list (list string) :=
  match patterns with
  | [] => []
  | _ =>
      if negb (existsb (fun p => match seqIndexCapture p with Some _ => true | None => false end)
                       patterns)
      then [patterns]
      else
        let '(groupMap, nonSeqPatterns) :=
          fold_left (fun acc p =>
                       let '(m, ns) := acc in
                       match seqIndexCapture p with
                       | Some (ds, name) => (groupPush m (parseDecimal ds) name, ns)
                       | None => (m, ns ++ [p])
                       end) patterns ([], []) in
        let sortedIndices := fold_left (fun l i => insertSorted i l) (map fst groupMap) [] in
        let groups := flat_map (fun i => match groupLookup groupMap i with
                                        | Some ((_ :: _) as g) => [g]
                                        | _ => []
                                        end) sortedIndices in
        match nonSeqPatterns with
        | [] => groups
        | _ => groups ++ [nonSeqPatterns]
        end
  end.

(** [new Map(availableScripts.map(s => [s.name, s]))]: a later entry with
    the same name replaces the value and keeps the first position. *)
Definition mapSet (m : list (string * Script)) (k : string) (v : Script)
  : list (string * Script) :=
  if existsb (fun kv => String.eqb (fst kv) k) m
  then map (fun kv => if String.eqb (fst kv) k then (k, v) else kv) m
  else m ++ [(k, v)].

Definition scriptMapOf (scripts : list Script) : list (string * Script) :=
  fold_left (fun m s => mapSet m (s_name s) s) scripts [].

Fixpoint mapGet (m : list (string * Script)) (k : string) : option Script :=
  match m with
  | [] => None
  | (k', v) :: m' => if String.eqb k' k then Some v else mapGet m' k
  end.

Definition mapHas (m : list (string * Script)) (k : string) : bool :=
  match mapGet m k with Some _ => true | None => false end.

(** [isFrunkCommand] (lines 74-79). *)
Definition isFrunkCommand (command : string) : bool :=
  startsWith command "f " || startsWith command "frunk "
  || includes command "/frunk/dist/cli.js" || includes command "frunk/dist/cli.js"
  || match exec NODE_CLI_PATTERN command with Some _ => true | None => false end.

(** [echo "No command"]. *)
Definition noCommand : string := ("echo " ++ dq ++ "No command" ++ dq)%string.

(** [frunkCmd.finalCommand || 'echo "No command"']. *)
Definition finalCommandOr (fc : FrunkCmd) : string :=
  match fc_finalCommand fc with
  | Some c => if truthy c then c else noCommand
  | None => noCommand
  end.

Section WithMatcher.
Variable isMatch : string -> string -> bool.

(** The dependency names [processScript] gives edges to (lines 101-120):
    the resolved patterns, or, when resolution throws, the literal entries
    that are manifest names. *)
Definition resolveDeps (scriptMap : list (string * Script)) (fc : FrunkCmd) : list string :=
  match resolvePatterns isMatch (fc_dependencies fc) (map snd scriptMap) with
  | Ok deps => deps
  | Error _ => filter (mapHas scriptMap) (fc_dependencies fc)
  end.

(** [processScript] (lines 54-154): the graph and the [visited] set are
    shared by the whole traversal from one requested script. The
    recursion depth is bounded by [fuel]; [discoverFuel] is enough, since
    each nested call is made from a manifest entry newly visited. *)
Fixpoint processScript (scriptMap : list (string * Script)) (fuel : nat)
         (scriptName : string) (gv : Graph * list string) {struct fuel}
  : Graph * list string :=
  match fuel with
  | 0 => gv
  | S f =>
      let (g, visited) := gv in
      if memb scriptName visited then (g, visited)
      else
        let visited := visited ++ [scriptName] in
        match mapGet scriptMap scriptName with
        | None => (g, visited)
        | Some script =>
            let plain := mkTask (s_command script) [] scriptName in
            if isFrunkCommand (s_command script) then
              match parseFrunkCommand (s_command script) with
              | Some fc =>
                  let g := setNode g scriptName (mkTask (finalCommandOr fc) [] scriptName) in
                  fold_left (fun (gv : Graph * list string) (dep : string) =>
                               let (g, v) := gv in
                               processScript scriptMap f dep (setEdge g scriptName dep, v))
                            (resolveDeps scriptMap fc) (g, visited)
              | None => (setNode g scriptName plain, visited)
              end
            else (setNode g scriptName plain, visited)
        end
  end.

Definition discoverFuel (scriptMap : list (string * Script)) : nat :=
  S (S (length scriptMap)).

(** Lines 157-162: every requested script, each with a fresh [visited]. *)
Definition discover (scriptMap : list (string * Script)) (names : list string) : Graph :=
  fold_left (fun g name => fst (processScript scriptMap (discoverFuel scriptMap) name (g, [])))
            names emptyGraph.

(** Lines 164-185. *)
Definition addGroupEdges (prevGroup currentGroup : list string) (g : Graph) : Graph :=
  fold_left (fun g cur =>
               fold_left (fun g prev =>
                            if hasNode g cur && hasNode g prev then setEdge g cur prev else g)
                         prevGroup g)
            currentGroup g.

Fixpoint addSequentialEdges (groups : list (list string)) (g : Graph) : Graph :=
  match groups with
  | prev :: ((cur :: _) as rest) => addSequentialEdges rest (addGroupEdges prev cur g)
  | _ => g
  end.

Definition COMMAND_NODE_NAME : string := "__frunk_command__".

Definition commandTask (command : string) : Task := mkTask command [] "command".

(** Lines 189-207. *)
Definition addCommandNode (command : string) (names : list string) (g : Graph) : Graph :=
  fold_left (fun g depName =>
               if hasNode g depName then setEdge g COMMAND_NODE_NAME depName else g)
            names (setNode g COMMAND_NODE_NAME (commandTask command)).

Definition commandGiven (command : option string) : bool :=
  match command with Some c => truthy c | None => false end.

(** The graph that is checked for cycles (line 214). *)
Definition buildGraphGraph (patterns : list string) (scripts : list Script)
           (command : option string) : Graph :=
  let scriptMap := scriptMapOf scripts in
  let resolvedScriptNames := map stripSeqMarker patterns in
  let g := discover scriptMap resolvedScriptNames in
  let g := addSequentialEdges (parseSequentialGroups patterns) g in
  match command with
  | Some c =>
      if truthy c && negb (Nat.eqb (length resolvedScriptNames) 0)
      then addCommandNode c resolvedScriptNames g else g
  | None => g
  end.

(** Lines 226-263: nodes in reverse topological order, with the
    [taskName -> nodeId] map; [counter] is [this.nodeCounter]. *)
Record NodeAcc := mkAcc {
  acc_nodes : list ExecutionNode;
  acc_counter : nat;
  acc_ids : list (string * string)
}.

Fixpoint idLookup (m : list (string * string)) (k : string) : option string :=
  match m with
  | [] => None
  | (k', v) :: m' => if String.eqb k' k then Some v else idLookup m' k
  end.

Definition nodeIdOf (n : nat) : string := ("node_" ++ showNat n)%string.

Definition buildStep (g : Graph) (acc : NodeAcc) (taskName : string) : NodeAcc :=
  match node g taskName with
  | None => acc
  | Some task =>
      match idLookup (acc_ids acc) taskName with
      | Some _ => acc
      | None =>
          let depNodeIds :=
            flat_map (fun dep => match idLookup (acc_ids acc) dep with
                                 | Some id => [id]
                                 | None => []
                                 end) (successors g taskName) in
          let nodeId := nodeIdOf (acc_counter acc) in
          mkAcc (acc_nodes acc ++ [mkNode depNodeIds nodeId false [task]])
                (S (acc_counter acc))
                (acc_ids acc ++ [(taskName, nodeId)])
      end
  end.

Definition buildNodes (g : Graph) (order : list string) (counter : nat) : NodeAcc :=
  fold_left (buildStep g) order (mkAcc [] counter []).

Inductive BuildError := CircularDependency (cycles : list (list string)).

(** [buildGraph] (lines 34-304), returning the nodes and the new value of
    [nodeCounter], and, for the statements below, the internal
    [nodeIdMap]. *)
Definition buildGraphFull (nodeCounter : nat) (patterns : list string)
           (scripts : list Script) (command : option string)
  : result BuildError (list ExecutionNode * nat * list (string * string)) :=
  let g := buildGraphGraph patterns scripts command in
  if negb (isAcyclic g) then Error (CircularDependency (findCycles g))
  else
    match topsort g with
    | Error _ => Error (CircularDependency (findCycles g))  (* unreachable *)
    | Ok executionOrder =>
        let acc := buildNodes g (rev executionOrder) nodeCounter in
        let nodes := acc_nodes acc in
        let n := acc_counter acc in
        let ids := acc_ids acc in
        match patterns, command with
        | [], Some c =>
            if truthy c then
              Ok (nodes ++ [mkNode [] (nodeIdOf n) false [commandTask c]], S n, ids)
            else match nodes with
                 | [] => Ok ([mkNode [] (nodeIdOf n) false []], S n, ids)
                 | _ => Ok (nodes, n, ids)
                 end
        | [], None =>
            match nodes with
            | [] => Ok ([mkNode [] (nodeIdOf n) false []], S n, ids)
            | _ => Ok (nodes, n, ids)
            end
        | _, _ => Ok (nodes, n, ids)
        end
  end.

Definition buildGraph (nodeCounter : nat) (patterns : list string)
           (scripts : list Script) (command : option string)
  : result BuildError (list ExecutionNode * nat) :=
  match buildGraphFull nodeCounter patterns scripts command with
  | Ok (nodes, n, _) => Ok (nodes, n)
  | Error e => Error e
  end.

End WithMatcher.

(** [validateGraph] (lines 423-446): a graph with a key per node id and an
    edge from each node to each of its dependencies, checked for cycles. *)
Definition validationGraph (nodes : list ExecutionNode) : Graph :=
  let g0 := fold_left (fun g node => ensureNode g (en_id node)) nodes emptyGraph in
  fold_left (fun g node => fold_left (fun g dep => setEdge g (en_id node) dep)
                                     (en_dependencies node) g) nodes g0.

Definition validateGraph (nodes : list ExecutionNode) : result BuildError unit :=
  let graph := validationGraph nodes in
  if negb (isAcyclic graph) then Error (CircularDependency (findCycles graph))
  else Ok tt.

End GraphBuilder.

Import GraphBuilder.

(** ** Logger (src/src/utils/logger.ts, lines 1-128)

    The eight [ansis] colors are numbered in the order of [colors]; a
    color applied to a string is an abstract [paint]. Lengths are those
    of the modelled strings, one unit per character. *)

Module Logger.

Inductive PrefixSetting := PrefixFlag (b : bool) | PrefixText (s : string).

(** The [prefix] and [quiet] fields of the [Config] the logger is given;
    [None] when absent. *)
Record LoggerConfig := mkLoggerConfig {
  lc_prefix : option PrefixSetting;
  lc_quiet : option bool
}.

(** cyan, green, yellow, blue, magenta, red, gray, white. *)
Definition colors : list nat := [0; 1; 2; 3; 4; 5; 6; 7].
Definition red : nat := 5.
Definition gray : nat := 6.
Definition white : nat := 7.

Record LoggerState := mkLogger {
  colorMap : list (string * nat);
  colorIndex : nat;
  maxPrefixLength : nat;
  prefixCfg : PrefixSetting;
  quietCfg : bool
}.

(** The constructor: [{ prefix: true, quiet: false, ...config }]. *)
Definition newLogger (config : LoggerConfig) : LoggerState :=
  mkLogger [] 0 0
    (match lc_prefix config with Some p => p | None => PrefixFlag true end)
    (match lc_quiet config with Some q => q | None => false end).

Fixpoint colorGet (m : list (string * nat)) (k : string) : option nat :=
  match m with
  | [] => None
  | (k', c) :: m' => if String.eqb k' k then Some c else colorGet m' k
  end.

Definition colorHas (m : list (string * nat)) (k : string) : bool :=
  existsb (fun kc => String.eqb (fst kc) k) m.

(** [registerTask] (lines 29-38). *)
Definition registerTask (st : LoggerState) (taskName : string) : LoggerState :=
  if colorHas (colorMap st) taskName then st
  else
    let cm := match nth_error colors (colorIndex st mod length colors) with
              | Some color => colorMap st ++ [(taskName, color)]
              | None => colorMap st
              end in
    mkLogger cm (S (colorIndex st)) (Nat.max (maxPrefixLength st) (String.length taskName))
             (prefixCfg st) (quietCfg st).

Fixpoint spaces (n : nat) : string :=
  match n with 0 => "" | S n' => String " " (spaces n') end.

(** [s.padEnd(n)]. *)
Definition padEnd (s : string) (n : nat) : string := (s ++ spaces (n - String.length s))%string.

(** [message.split("\n")] without the lines [!line.trim()] skips. *)
Definition nonBlankLines (message : string) : list string :=
  filter (fun line => truthy (trim line)) (split (ascii_of_nat 10) message).

Section WithPaint.
Variable paint : nat -> string -> string.

(** [formatLine] (lines 86-101). *)
Definition formatLine (st : LoggerState) (taskName line : string) : string :=
  match prefixCfg st with
  | PrefixFlag false => line
  | _ =>
      let color := match colorGet (colorMap st) taskName with Some c => c | None => white end in
      match prefixCfg st with
      | PrefixText p => (paint color p ++ " " ++ line)%string
      | _ =>
          let prefix := ("[" ++ taskName ++ "]")%string in
          let paddedPrefix := padEnd prefix (maxPrefixLength st + 2) in
          (paint color paddedPrefix ++ " " ++ paint gray "|" ++ " " ++ line)%string
      end
  end.

(** [log] (lines 40-54) and [error] (lines 56-66): the lines written to
    [console.log] and [console.error]. *)
Definition log (st : LoggerState) (taskName message : string) : list string :=
  if quietCfg st then []
  else map (fun line => formatLine st taskName line) (nonBlankLines message).

Definition error (st : LoggerState) (taskName message : string) : list string :=
  map (fun line => formatLine st taskName (paint red line)) (nonBlankLines message).

End WithPaint.

End Logger.

(** ** Vocabulary for the statements below *)

Module Vocabulary.

Section WithMatcher.
Variable isMatch : string -> string -> bool.

(** The label [processScript] gives to the manifest entry [k] (its
    [TaskNode]'s task), if [k] is a manifest entry. *)
Definition labelOf (sm : list (string * Script)) (k : string) : option Task :=
  match mapGet sm k with
  | None => None
  | Some script =>
      if isFrunkCommand (s_command script) then
        match parseFrunkCommand (s_command script) with
        | Some fc => Some (mkTask (finalCommandOr fc) [] k)
        | None => Some (mkTask (s_command script) [] k)
        end
      else Some (mkTask (s_command script) [] k)
  end.

(** The names [processScript] adds an edge to from the entry [k]. *)
Definition depsOf (sm : list (string * Script)) (k : string) : list string :=
  match mapGet sm k with
  | None => []
  | Some script =>
      if isFrunkCommand (s_command script) then
        match parseFrunkCommand (s_command script) with
        | Some fc => resolveDeps isMatch sm fc
        | None => []
        end
      else []
  end.

(** [u] reaches [v] in one or more steps of [depsOf]: the dependency
    structure the manifest's commands declare. *)
Inductive dplus (sm : list (string * Script)) : string -> string -> Prop :=
| dplus_one u v : In v (depsOf sm u) -> dplus sm u v
| dplus_step u v w : In v (depsOf sm u) -> dplus sm v w -> dplus sm u w.

Inductive dstar (sm : list (string * Script)) : string -> string -> Prop :=
| dstar_refl u : dstar sm u u
| dstar_step u v w : In v (depsOf sm u) -> dstar sm v w -> dstar sm u w.

End WithMatcher.

(** Paths of one or more edges of a graph. *)
Inductive greach (g : Graph) : string -> string -> Prop :=
| greach_one u v : In (u, v) (g_edges g) -> greach g u v
| greach_step u v w : In (u, v) (g_edges g) -> greach g v w -> greach g u w.

(** A target name of the kind [findMatches] looks up literally: no
    exclusion prefix, no sequential prefix. *)
Definition literalName (p : string) : bool :=
  negb (startsWith p "!") && negb (startsWith p "SEQ:").

(** Keys and edges without repetition, edges between keys. *)
Definition wfGraph (g : Graph) : Prop :=
  NoDup (nodes g) /\ NoDup (g_edges g) /\
  (forall u v, In (u, v) (g_edges g) -> In u (nodes g) /\ In v (nodes g)).

(** Consecutive elements of the list are joined by edges. *)
Fixpoint chain (g : Graph) (l : list string) : Prop :=
  match l with
  | x :: ((y :: _) as l') => In (x, y) (g_edges g) /\ chain g l'
  | _ => True
  end.

(** The invariant of graphlib's [topsort] state: [visited] is the disjoint
    union of [results] (finished nodes) and [stack], and every finished
    node comes after its predecessors in [results]. *)
Definition topInv (g : Graph) (st : TopState) : Prop :=
  NoDup (ts_visited st) /\ NoDup (ts_results st) /\
  (forall x, In x (ts_visited st) -> In x (nodes g)) /\
  (forall x, In x (ts_results st) -> In x (ts_visited st) /\ ~ In x (ts_stack st)) /\
  (forall x, In x (ts_visited st) -> In x (ts_results st) \/ In x (ts_stack st)) /\
  (forall x, In x (ts_stack st) -> In x (ts_visited st)) /\
  (forall l1 x l2, ts_results st = l1 ++ x :: l2 -> forall u, In (u, x) (g_edges g) -> In u l1).

(** The graph is well formed, its labels satisfy [L] and its edges [Ed]. *)
Definition graphInv (L : string -> Task -> Prop) (Ed : string -> string -> Prop) (g : Graph)
  : Prop :=
  wfGraph g /\ (forall k t, node g k = Some t -> L k t) /\
  (forall u d, In (u, d) (g_edges g) -> Ed u d).

(** [u] is in the group after the one of [d]: [addSequentialEdges] adds
    the edge [(u, d)] when both are keys. *)
Definition seqEdge (groups : list (list string)) (u d : string) : Prop :=
  exists l1 prev cur l2, groups = l1 ++ prev :: cur :: l2 /\ In u cur /\ In d prev.

(** The labels and edges [buildGraph] can put in its graph. *)
Definition builtLabel (sm : list (string * Script)) (command : option string)
           (k : string) (t : Task) : Prop :=
  labelOf sm k = Some t \/
  (k = COMMAND_NODE_NAME /\ exists c, command = Some c /\ t = commandTask c).

Definition builtEdge (isMatch : string -> string -> bool) (sm : list (string * Script))
           (patterns : list string) (u d : string) : Prop :=
  In d (depsOf isMatch sm u) \/ seqEdge (parseSequentialGroups patterns) u d \/
  (u = COMMAND_NODE_NAME /\ In d (map stripSeqMarker patterns)).

(** The [nodeIdMap] that node construction produces from the labelled keys
    [l], numbered from [c]. *)
Fixpoint idsFrom (c : nat) (l : list string) : list (string * string) :=
  match l with
  | [] => []
  | k :: l' => (k, nodeIdOf c) :: idsFrom (S c) l'
  end.

Definition labeledIn (g : Graph) (l : list string) : list string :=
  filter (fun k => match node g k with Some _ => true | None => false end) l.

(** The ids of the successors of [k] that have a node. *)
Definition depIds (g : Graph) (ids : list (string * string)) (k : string) : list string :=
  flat_map (fun dep => match idLookup ids dep with Some id => [id] | None => [] end)
           (successors g k).

Definition tasksOf (g : Graph) (k : string) : list Task :=
  match node g k with Some t => [t] | None => [] end.

(** The execution node built for the key [fst kv], with id [snd kv]. *)
Definition nodeFor (g : Graph) (ids : list (string * string)) (kv : string * string)
  : ExecutionNode :=
  mkNode (depIds g ids (fst kv)) (snd kv) false (tasksOf g (fst kv)).

(** Every labelled key of [g] has an edge to each name its entry resolves
    to, unless it is among [pend], the keys still being processed. *)
Definition edgesDone (isMatch : string -> string -> bool) (sm : list (string * Script))
           (pend : list string) (g : Graph) : Prop :=
  forall u t, node g u = Some t ->
  (forall d, In d (depsOf isMatch sm u) -> In (u, d) (g_edges g)) \/ In u pend.

(** Discovery's invariant: a labelled key not in [vis] has its manifest
    dependencies labelled; every visited manifest name is labelled; a
    visited key not among [pend], the keys still being processed, has
    all its dependencies visited. *)
Definition travInv (isMatch : string -> string -> bool) (sm : list (string * Script))
           (g : Graph) (vis pend : list string) : Prop :=
  (forall u d, node g u <> None -> ~ In u vis -> In d (depsOf isMatch sm u) ->
     mapHas sm d = true -> node g d <> None) /\
  (forall u, In u vis -> mapHas sm u = true -> node g u <> None) /\
  (forall u d, In u vis -> ~ In u pend -> In d (depsOf isMatch sm u) -> In d vis).

(** The manifest names not yet visited. *)
Definition unvisited (sm : list (string * Script)) (vis : list string) : nat :=
  length (filter (fun k => negb (memb k vis)) (map fst sm)).

(** The target list [[a,b]->[c,d]] stands for: [a] and [b] tagged with
    sequential group 0, [c] and [d] with group 1. *)
Definition twoGroupTargets (a b c d : string) : list string :=
  [("SEQ0:" ++ a)%string; ("SEQ0:" ++ b)%string; ("SEQ1:" ++ c)%string; ("SEQ1:" ++ d)%string].

(** A name [seqIndexCapture] accepts after a group tag: non-empty, with
    no line terminator. *)
Definition seqName (x : string) : bool := negb (String.eqb x "") && forallb isDot (chars x).

(** [x] is a manifest entry whose command is a plain shell command. *)
Definition plainEntry (sm : list (string * Script)) (x : string) : bool :=
  match mapGet sm x with
  | Some s => negb (isFrunkCommand (s_command s))
  | None => false
  end.

Fixpoint distinctb (l : list string) : bool :=
  match l with
  | [] => true
  | x :: l' => negb (memb x l') && distinctb l'
  end.

(** Plain manifest entries for the sequential example. *)
Definition seqScripts : list Script :=
  [mkScript "lint" "biome check"; mkScript "typecheck" "tsc --noEmit";
   mkScript "test" "vitest run"; mkScript "deploy" "wrangler deploy"].

(** [l] does not start with a character [p] holds for. *)
Definition headNot (p : ascii -> bool) (l : list ascii) : Prop :=
  match l with [] => True | c :: _ => p c = false end.

(** A pattern the parser keeps: non-empty, without surrounding whitespace. *)
Definition cleanPart (p : string) : Prop := p <> "" /\ trim p = p.

(** The node with id [u] lists [v] among its dependencies. *)
Definition dependsOn (nodes : list ExecutionNode) (u v : string) : Prop :=
  exists n, In n nodes /\ en_id n = u /\ In v (en_dependencies n).

(** The state of [execute]'s loop between iterations: nothing running,
    the completed ids distinct node ids, each completed after the
    dependencies of a node carrying it. *)
Definition execInv (nodes : list ExecutionNode) (ab : bool) (st : Executor.ExecState) : Prop :=
  Executor.es_running st = [] /\ Executor.es_aborted st = ab /\
  NoDup (Executor.es_completed st) /\ incl (Executor.es_completed st) (map en_id nodes) /\
  (forall l1 x l2, Executor.es_completed st = l1 ++ x :: l2 ->
     exists n, In n nodes /\ en_id n = x /\ incl (en_dependencies n) l1).

(** Manifests used in the examples. *)
Definition exampleScripts : list Script :=
  [mkScript "build" "tsc"; mkScript "test:unit" "vitest run"; mkScript "lint" "biome check";
   mkScript "check" "f [lint,test:unit]"; mkScript "ci" "f [check,build,lint] -- echo ok"].

(** The nodes and the counter of a successful [buildGraph]. *)
Definition okNodes {E} (r : result E (list ExecutionNode * nat)) : list ExecutionNode :=
  match r with Ok (nodes, _) => nodes | Error _ => [] end.

Definition okCounter {E} (r : result E (list ExecutionNode * nat)) : nat :=
  match r with Ok (_, n) => n | Error _ => 0 end.

Definition collisionScripts : list Script :=
  [mkScript "command" "echo c"; mkScript "a" "f [command] -- echo a"].

(** A cycle [a -> b -> c -> a] next to a plain entry, and a self-reference. *)
Definition cycleScripts : list Script :=
  [mkScript "build" "tsc"; mkScript "a" "f [b,build]"; mkScript "b" "f [c]";
   mkScript "c" "f [a]"; mkScript "s" "f [s]"].

(** A dependency list with an unknown name beside a glob, and beside a
    literal manifest name and a glob. *)
Definition unknownDepScripts : list Script :=
  [mkScript "test:unit" "vitest run"; mkScript "ci" "f [test:*,missing] -- echo ok"].

Definition mixedDepScripts : list Script :=
  [mkScript "build" "tsc"; mkScript "test:unit" "vitest run";
   mkScript "ci" "f [build,test:*,missing] -- echo ok"].

End Vocabulary.

Import Vocabulary.

(** * Properties *)

Module Facts.

Lemma memb_In (x : string) (l : list string) : memb x l = true <-> In x l.
Proof.
  unfold memb. rewrite existsb_exists. split.
  - intros [y [Hy Heq]]. apply String.eqb_eq in Heq. subst. exact Hy.
  - intros H. exists x. split; [exact H | apply String.eqb_refl].
Qed.

Lemma mem_In (x : string) (l : list string) : Executor.mem x l = true <-> In x l.
Proof. apply memb_In. Qed.

(** *** Parser *)

Lemma splitAtSeparator_app (pre post : list string) :
  ~ In "--" pre -> Parser.splitAtSeparator (pre ++ "--" :: post) = (pre, Some post).
Proof.
  induction pre as [|a pre IH]; intros Hn; simpl.
  - reflexivity.
  - destruct (String.eqb a "--") eqn:E.
    + apply String.eqb_eq in E. subst. exfalso. apply Hn. left. reflexivity.
    + rewrite IH; [reflexivity | intros H; apply Hn; right; exact H].
Qed.

(** *** Executor *)

Lemma loopStep_stuck (opts : Executor.RunOptions) (taskFails : Task -> bool)
      (nodes : list ExecutionNode) (st : Executor.ExecState) :
  Nat.ltb (length (Executor.es_completed st)) (length nodes) = true ->
  Executor.es_aborted st = false ->
  filter (Executor.canRun st) nodes = [] ->
  Executor.es_running st = [] ->
  filter (fun n => negb (Executor.mem (en_id n) (Executor.es_completed st))) nodes <> [] ->
  Executor.loopStep opts taskFails nodes st
  = Executor.LoopThrow (Executor.StuckError
      (map en_id (filter (fun n => negb (Executor.mem (en_id n) (Executor.es_completed st)))
                         nodes))).
Proof.
  intros Hlt Hab Hrun Hrunning Hrem. unfold Executor.loopStep.
  rewrite Hlt, Hab, Hrun, Hrunning. simpl.
  destruct (filter (fun n => negb (Executor.mem (en_id n) (Executor.es_completed st))) nodes)
    eqn:E; [exfalso; apply Hrem; reflexivity | reflexivity].
Qed.

(** *** PatternMatcher *)

Lemma forEachResult_error {E A B} (f : A -> B -> result E B) (l : list A) (x : A) :
  In x l -> (forall acc, exists e, f x acc = Error e) ->
  forall acc, exists e, forEachResult f l acc = Error e.
Proof.
  induction l as [|y l IH]; intros Hin Hx acc; [destruct Hin|].
  simpl. destruct Hin as [<-|Hin].
  - destruct (Hx acc) as [e He]. rewrite He. exists e. reflexivity.
  - destruct (f y acc) as [acc'|e]; simpl; [apply IH; assumption | exists e; reflexivity].
Qed.


Lemma resolvePatterns_step_error (isMatch : string -> string -> bool) (patterns : list string)
      (scripts : list Script) (p : string) :
  In p patterns -> literalName p = true -> isGlobPattern p = false -> p <> "" ->
  ~ In p (map s_name scripts) -> filter (isMatch p) (map s_name scripts) = [] ->
  exists e, resolvePatterns isMatch patterns scripts = Error e.
Proof.
  intros Hin Hlit Hglob Hne Hname Hmm.
  unfold resolvePatterns. simpl resolveF.
  match goal with
  | |- context [forEachResult ?f patterns []] =>
      destruct (forEachResult_error f patterns p Hin) with (acc := @nil string) as [e He]
  end.
  - intros acc. cbv beta. unfold literalName in Hlit.
    apply andb_prop in Hlit as [H1 H2]. apply negb_true_iff in H1, H2.
    rewrite H1, H2. unfold findMatches. rewrite Hglob.
    assert (Hx : existsb (String.eqb p) (map s_name scripts) = false).
    { apply not_true_iff_false. intros Hx. apply Hname. apply memb_In. exact Hx. }
    rewrite Hx. unfold micromatch, truthy.
    destruct (String.eqb p "") eqn:Ep; [apply String.eqb_eq in Ep; contradiction|].
    simpl. rewrite Hmm. simpl. eexists. reflexivity.
  - rewrite He. exists e. reflexivity.
Qed.

(** *** Node construction *)

Lemma idLookup_In (m : list (string * string)) (k v : string) :
  idLookup m k = Some v -> In (k, v) m.
Proof.
  induction m as [|[k' v'] m IH]; simpl; [discriminate|].
  destruct (String.eqb k' k) eqn:E.
  - intros H. injection H as <-. apply String.eqb_eq in E. subst. left. reflexivity.
  - intros H. right. apply IH. exact H.
Qed.

Lemma nth_error_app_lt {A} (l l' : list A) (i : nat) :
  i < length l -> nth_error (l ++ l') i = nth_error l i.
Proof. intros H. apply nth_error_app1. exact H. Qed.

Lemma backward_snoc (nodes : list ExecutionNode) (nd : ExecutionNode) :
  (forall i x, nth_error nodes i = Some x -> forall d, In d (en_dependencies x) ->
     exists j y, j < i /\ nth_error nodes j = Some y /\ en_id y = d) ->
  (forall d, In d (en_dependencies nd) ->
     exists j y, j < length nodes /\ nth_error nodes j = Some y /\ en_id y = d) ->
  forall i x, nth_error (nodes ++ [nd]) i = Some x -> forall d, In d (en_dependencies x) ->
     exists j y, j < i /\ nth_error (nodes ++ [nd]) j = Some y /\ en_id y = d.
Proof.
  intros Hold Hnew i x Hi d Hd.
  assert (Hlt : i < length (nodes ++ [nd])) by (apply nth_error_Some; congruence).
  rewrite length_app in Hlt. simpl in Hlt.
  destruct (Nat.eq_dec i (length nodes)) as [->|Hne].
  - rewrite nth_error_app2 in Hi by lia. rewrite Nat.sub_diag in Hi. simpl in Hi.
    injection Hi as <-. destruct (Hnew d Hd) as [j [y [Hj [Hy Hid]]]].
    exists j, y. split; [exact Hj|]. split; [|exact Hid].
    rewrite nth_error_app_lt by exact Hj. exact Hy.
  - rewrite nth_error_app_lt in Hi by lia.
    destruct (Hold i x Hi d Hd) as [j [y [Hj [Hy Hid]]]].
    exists j, y. split; [exact Hj|]. split; [|exact Hid].
    assert (j < length nodes) by (apply nth_error_Some; congruence).
    rewrite nth_error_app_lt by assumption. exact Hy.
Qed.

Lemma buildNodes_backward (g : Graph) (order : list string) (acc : NodeAcc) :
  (forall k id, In (k, id) (acc_ids acc) ->
     exists j y, nth_error (acc_nodes acc) j = Some y /\ en_id y = id) ->
  (forall i x, nth_error (acc_nodes acc) i = Some x -> forall d, In d (en_dependencies x) ->
     exists j y, j < i /\ nth_error (acc_nodes acc) j = Some y /\ en_id y = d) ->
  let acc' := fold_left (buildStep g) order acc in
  (forall k id, In (k, id) (acc_ids acc') ->
     exists j y, nth_error (acc_nodes acc') j = Some y /\ en_id y = id) /\
  (forall i x, nth_error (acc_nodes acc') i = Some x -> forall d, In d (en_dependencies x) ->
     exists j y, j < i /\ nth_error (acc_nodes acc') j = Some y /\ en_id y = d).
Proof.
  revert acc. induction order as [|t order IH]; intros acc Hids Hback; cbn [fold_left].
  - split; assumption.
  - apply IH.
    + unfold buildStep. destruct (node g t) as [task|]; [|exact Hids].
      destruct (idLookup (acc_ids acc) t); [exact Hids|]. cbn [acc_ids acc_nodes].
      intros k id Hin. apply in_app_or in Hin as [Hin|[Heq|[]]].
      * destruct (Hids k id Hin) as [j [y [Hy Hid]]]. exists j, y. split; [|exact Hid].
        assert (j < length (acc_nodes acc)) by (apply nth_error_Some; congruence).
        rewrite nth_error_app_lt by assumption. exact Hy.
      * injection Heq as _ <-. exists (length (acc_nodes acc)).
        eexists. split.
        { rewrite nth_error_app2 by lia. rewrite Nat.sub_diag. reflexivity. }
        reflexivity.
    + unfold buildStep. destruct (node g t) as [task|]; [|exact Hback].
      destruct (idLookup (acc_ids acc) t); [exact Hback|]. cbn [acc_ids acc_nodes].
      apply backward_snoc; [exact Hback|].
      intros d Hd. cbn [en_dependencies] in Hd. apply in_flat_map in Hd as [dep [_ Hdep]].
      destruct (idLookup (acc_ids acc) dep) as [id|] eqn:E; [|destruct Hdep].
      destruct Hdep as [<-|[]]. apply idLookup_In in E.
      destruct (Hids dep id E) as [j [y [Hy Hid]]]. exists j, y.
      split; [apply nth_error_Some; congruence|]. split; assumption.
Qed.

Lemma buildGraphFull_shape (isMatch : string -> string -> bool) (counter : nat)
      (patterns : list string) (scripts : list Script) (command : option string)
      (nodes : list ExecutionNode) (n : nat) (ids : list (string * string)) :
  buildGraphFull isMatch counter patterns scripts command = Ok (nodes, n, ids) ->
  let g := buildGraphGraph isMatch patterns scripts command in
  exists order, topsort g = Ok order /\
    let acc := buildNodes g (rev order) counter in
    ids = acc_ids acc /\
    (nodes = acc_nodes acc
     \/ (patterns = [] /\ exists x, nodes = acc_nodes acc ++ [x] /\ en_dependencies x = [])).
Proof.
  unfold buildGraphFull. cbv zeta.
  destruct (isAcyclic (buildGraphGraph isMatch patterns scripts command)); [|discriminate].
  simpl.
  destruct (topsort (buildGraphGraph isMatch patterns scripts command)) as [order|];
    [|discriminate].
  intros H. exists order. split; [reflexivity|]. cbv zeta in H |- *.
  remember (buildNodes (buildGraphGraph isMatch patterns scripts command) (rev order) counter)
    as acc eqn:Hacc. clear Hacc.
  destruct patterns as [|p ps].
  - split; [destruct command as [c|]; [destruct (truthy c)|];
              [|destruct (acc_nodes acc)|destruct (acc_nodes acc)];
              injection H as _ _ <-; reflexivity|].
    destruct command as [c|]; [destruct (truthy c)|].
    + injection H as <- _ _. right. split; [reflexivity|]. eexists. split; reflexivity.
    + destruct (acc_nodes acc) as [|y ys] eqn:E; injection H as <- _ _.
      * right. split; [reflexivity|]. eexists. split; [reflexivity|reflexivity].
      * left. reflexivity.
    + destruct (acc_nodes acc) as [|y ys] eqn:E; injection H as <- _ _.
      * right. split; [reflexivity|]. eexists. split; [reflexivity|reflexivity].
      * left. reflexivity.
  - injection H as <- _ <-. split; [reflexivity|left; reflexivity].
Qed.

(** *** graphlib: keys, labels and edges *)

Lemma hasNode_In (g : Graph) (v : string) : hasNode g v = true <-> In v (nodes g).
Proof. apply memb_In. Qed.

Lemma hasEdge_In (g : Graph) (v w : string) : hasEdge g v w = true <-> In (v, w) (g_edges g).
Proof.
  unfold hasEdge. rewrite existsb_exists. split.
  - intros [[a b] [Hin Heq]]. unfold edge_eqb in Heq. simpl in Heq.
    apply andb_prop in Heq as [H1 H2]. apply String.eqb_eq in H1, H2. subst. exact Hin.
  - intros Hin. exists (v, w). split; [exact Hin|]. unfold edge_eqb. simpl.
    rewrite !String.eqb_refl. reflexivity.
Qed.

Lemma predecessors_In (g : Graph) (u v : string) :
  In u (predecessors g v) <-> In (u, v) (g_edges g).
Proof.
  unfold predecessors. rewrite in_map_iff. split.
  - intros [[a b] [Ha Hin]]. apply filter_In in Hin as [Hin Hb]. simpl in *.
    apply String.eqb_eq in Hb. subst. exact Hin.
  - intros Hin. exists (u, v). split; [reflexivity|]. apply filter_In. split; [exact Hin|].
    apply String.eqb_refl.
Qed.

Lemma successors_In (g : Graph) (u v : string) :
  In v (successors g u) <-> In (u, v) (g_edges g).
Proof.
  unfold successors. rewrite in_map_iff. split.
  - intros [[a b] [Hb Hin]]. apply filter_In in Hin as [Hin Ha]. simpl in *.
    apply String.eqb_eq in Ha. subst. exact Hin.
  - intros Hin. exists (u, v). split; [reflexivity|]. apply filter_In. split; [exact Hin|].
    apply String.eqb_refl.
Qed.

Lemma lookupLabel_notin (l : list (string * option Task)) (x : string) :
  ~ In x (map fst l) -> lookupLabel l x = None.
Proof.
  induction l as [|[k lab] l IH]; simpl; intros Hn; [reflexivity|].
  destruct (String.eqb k x) eqn:E.
  - apply String.eqb_eq in E. subst. exfalso. apply Hn. left. reflexivity.
  - apply IH. intros H. apply Hn. right. exact H.
Qed.

Lemma lookupLabel_snoc (l : list (string * option Task)) (v x : string) (lab : option Task) :
  ~ In v (map fst l) ->
  lookupLabel (l ++ [(v, lab)]) x = if String.eqb v x then lab else lookupLabel l x.
Proof.
  induction l as [|[k lab'] l IH]; simpl; intros Hn.
  - destruct (String.eqb v x); reflexivity.
  - destruct (String.eqb k x) eqn:E.
    + apply String.eqb_eq in E. subst.
      destruct (String.eqb v x) eqn:E'; [|reflexivity].
      apply String.eqb_eq in E'. subst. exfalso. apply Hn. left. reflexivity.
    + apply IH. intros H. apply Hn. right. exact H.
Qed.

Lemma lookupLabel_replace (l : list (string * option Task)) (v x : string) (lab : Task) :
  lookupLabel (map (fun kl => if String.eqb (fst kl) v then (v, Some lab) else kl) l) x
  = if String.eqb v x then (if existsb (String.eqb v) (map fst l) then Some lab else None)
    else lookupLabel l x.
Proof.
  induction l as [|[k lab'] l IH]; simpl.
  - destruct (String.eqb v x); reflexivity.
  - destruct (String.eqb k v) eqn:Ekv.
    + apply String.eqb_eq in Ekv. subst k. simpl. rewrite String.eqb_refl. simpl.
      destruct (String.eqb v x) eqn:E; [reflexivity|]. exact IH.
    + simpl. destruct (String.eqb k x) eqn:Ekx.
      * apply String.eqb_eq in Ekx. subst.
        rewrite String.eqb_sym in Ekv. rewrite Ekv. reflexivity.
      * rewrite IH. destruct (String.eqb v x) eqn:Evx; [|reflexivity].
        rewrite String.eqb_sym in Ekv. rewrite Ekv. reflexivity.
Qed.

Lemma nodes_setNode (g : Graph) (v : string) (lab : Task) :
  nodes (setNode g v lab) = if hasNode g v then nodes g else nodes g ++ [v].
Proof.
  unfold setNode, nodes. destruct (hasNode g v); simpl.
  - rewrite map_map. apply map_ext. intros [k l]. simpl.
    destruct (String.eqb k v) eqn:E; [apply String.eqb_eq in E; subst|]; reflexivity.
  - rewrite map_app. reflexivity.
Qed.

Lemma In_nodes_setNode (g : Graph) (v x : string) (lab : Task) :
  In x (nodes (setNode g v lab)) <-> In x (nodes g) \/ x = v.
Proof.
  rewrite nodes_setNode. destruct (hasNode g v) eqn:E.
  - apply hasNode_In in E. split; [tauto|]. intros [H| ->]; assumption.
  - rewrite in_app_iff. simpl. split; intros [H|H]; intuition.
Qed.

Lemma edges_setNode (g : Graph) (v : string) (lab : Task) :
  g_edges (setNode g v lab) = g_edges g.
Proof. unfold setNode. destruct (hasNode g v); reflexivity. Qed.

Lemma node_setNode (g : Graph) (v x : string) (lab : Task) :
  node (setNode g v lab) x = if String.eqb v x then Some lab else node g x.
Proof.
  unfold setNode, node. destruct (hasNode g v) eqn:E; simpl.
  - rewrite lookupLabel_replace. unfold hasNode, nodes in E. rewrite E. reflexivity.
  - apply lookupLabel_snoc. intros H. apply hasNode_In in H. congruence.
Qed.

Lemma nodes_ensureNode (g : Graph) (v : string) :
  nodes (ensureNode g v) = if hasNode g v then nodes g else nodes g ++ [v].
Proof.
  unfold ensureNode, nodes. destruct (hasNode g v); simpl; [reflexivity|].
  rewrite map_app. reflexivity.
Qed.

Lemma In_nodes_ensureNode (g : Graph) (v x : string) :
  In x (nodes (ensureNode g v)) <-> In x (nodes g) \/ x = v.
Proof.
  rewrite nodes_ensureNode. destruct (hasNode g v) eqn:E.
  - apply hasNode_In in E. split; [tauto|]. intros [H| ->]; assumption.
  - rewrite in_app_iff. simpl. split; intros [H|H]; intuition.
Qed.

Lemma node_ensureNode (g : Graph) (v x : string) : node (ensureNode g v) x = node g x.
Proof.
  unfold ensureNode, node. destruct (hasNode g v) eqn:E; [reflexivity|]. simpl.
  rewrite lookupLabel_snoc.
  - destruct (String.eqb v x) eqn:Ev; [|reflexivity].
    apply String.eqb_eq in Ev. subst. symmetry. apply lookupLabel_notin.
    intros H. apply hasNode_In in H. congruence.
  - intros H. apply hasNode_In in H. congruence.
Qed.

Lemma edges_ensureNode (g : Graph) (v : string) : g_edges (ensureNode g v) = g_edges g.
Proof. unfold ensureNode. destruct (hasNode g v); reflexivity. Qed.

Lemma In_edges_setEdge (g : Graph) (v w : string) (e : string * string) :
  In e (g_edges (setEdge g v w)) <-> In e (g_edges g) \/ e = (v, w).
Proof.
  unfold setEdge. destruct (hasEdge g v w) eqn:E.
  - apply hasEdge_In in E. split; [tauto|]. intros [H| ->]; assumption.
  - simpl. rewrite !edges_ensureNode, in_app_iff. simpl. intuition.
Qed.

Lemma node_setEdge (g : Graph) (v w x : string) : node (setEdge g v w) x = node g x.
Proof.
  unfold setEdge. destruct (hasEdge g v w); [reflexivity|].
  unfold node. simpl. fold (node (ensureNode (ensureNode g v) w) x).
  rewrite !node_ensureNode. reflexivity.
Qed.

Lemma In_nodes_setEdge (g : Graph) (v w x : string) :
  wfGraph g -> (In x (nodes (setEdge g v w)) <-> In x (nodes g) \/ x = v \/ x = w).
Proof.
  intros [_ [_ Hends]]. unfold setEdge. destruct (hasEdge g v w) eqn:E.
  - apply hasEdge_In in E. destruct (Hends _ _ E) as [Hv Hw].
    split; [tauto|]. intros [H|[ ->| ->]]; assumption.
  - unfold nodes at 1. simpl. fold (nodes (ensureNode (ensureNode g v) w)).
    rewrite In_nodes_ensureNode, In_nodes_ensureNode. tauto.
Qed.

Lemma wf_emptyGraph : wfGraph emptyGraph.
Proof. split; [constructor|]. split; [constructor|]. intros u v []. Qed.

Lemma NoDup_snoc {A} (l : list A) (x : A) : NoDup l -> ~ In x l -> NoDup (l ++ [x]).
Proof.
  intros Hl Hx. apply NoDup_app; [exact Hl | repeat constructor; intros [] |].
  intros a Ha [<-|[]]. contradiction.
Qed.

Lemma wf_setNode (g : Graph) (v : string) (lab : Task) : wfGraph g -> wfGraph (setNode g v lab).
Proof.
  intros [Hn [He Hends]]. split; [|split].
  - rewrite nodes_setNode. destruct (hasNode g v) eqn:E; [exact Hn|].
    apply NoDup_snoc; [exact Hn|]. intros H. apply hasNode_In in H. congruence.
  - rewrite edges_setNode. exact He.
  - intros a b Hab. rewrite edges_setNode in Hab. rewrite !In_nodes_setNode.
    destruct (Hends a b Hab). tauto.
Qed.

Lemma wf_ensureNode (g : Graph) (v : string) : wfGraph g -> wfGraph (ensureNode g v).
Proof.
  intros [Hn [He Hends]]. split; [|split].
  - rewrite nodes_ensureNode. destruct (hasNode g v) eqn:E; [exact Hn|].
    apply NoDup_snoc; [exact Hn|]. intros H. apply hasNode_In in H. congruence.
  - rewrite edges_ensureNode. exact He.
  - intros a b Hab. rewrite edges_ensureNode in Hab. rewrite !In_nodes_ensureNode.
    destruct (Hends a b Hab). tauto.
Qed.

Lemma wf_setEdge (g : Graph) (v w : string) : wfGraph g -> wfGraph (setEdge g v w).
Proof.
  intros Hwf. unfold setEdge. destruct (hasEdge g v w) eqn:E; [exact Hwf|].
  pose proof (wf_ensureNode _ w (wf_ensureNode g v Hwf)) as [Hn [He Hends]].
  set (g' := ensureNode (ensureNode g v) w) in *.
  split; [|split].
  - exact Hn.
  - cbn [g_edges]. apply NoDup_snoc; [exact He|]. unfold g'. rewrite !edges_ensureNode.
    intros H. apply hasEdge_In in H. congruence.
  - intros a b Hab. cbn [g_edges] in Hab.
    change (In a (nodes g') /\ In b (nodes g')).
    apply in_app_or in Hab as [Hab|[Heq|[]]]; [apply Hends; exact Hab|].
    injection Heq as <- <-. unfold g'.
    rewrite !In_nodes_ensureNode. tauto.
Qed.

(** *** graphlib: [topsort] is a topological order *)

Lemma snoc_split {A} (l l1 l2 : list A) (v x : A) :
  l ++ [v] = l1 ++ x :: l2 ->
  (l1 = l /\ x = v /\ l2 = []) \/ (exists l2', l2 = l2' ++ [v] /\ l = l1 ++ x :: l2').
Proof.
  destruct l2 as [|y l2'] using rev_ind; intros H.
  - left. apply app_inj_tail in H as [-> ->]. auto.
  - right. exists l2'. rewrite app_comm_cons, app_assoc in H.
    apply app_inj_tail in H as [-> ->]. auto.
Qed.

Lemma filter_neq_id (l : list string) (v : string) :
  ~ In v l -> filter (fun x => negb (String.eqb x v)) l = l.
Proof.
  induction l as [|a l IH]; simpl; intros Hn; [reflexivity|].
  destruct (String.eqb a v) eqn:E.
  - apply String.eqb_eq in E. subst. exfalso. apply Hn. left. reflexivity.
  - simpl. rewrite IH; [reflexivity|]. intros H. apply Hn. right. exact H.
Qed.

Lemma topInv_init (g : Graph) : topInv g (mkTop [] [] []).
Proof.
  unfold topInv; simpl. repeat split; try constructor; try (intros; contradiction).
  intros l1 x l2 H. destruct l1; discriminate.
Qed.

Lemma topInv_push (g : Graph) (st : TopState) (v : string) :
  topInv g st -> In v (nodes g) -> ~ In v (ts_visited st) ->
  topInv g (mkTop (ts_visited st ++ [v]) (ts_stack st ++ [v]) (ts_results st)).
Proof.
  intros [Hnv [Hnr [Hvn [Hr [Hv [Hs Ho]]]]]] Hvin Hnot.
  unfold topInv; simpl. split; [apply NoDup_snoc; assumption|].
  split; [exact Hnr|]. split.
  { intros x Hx. apply in_app_or in Hx as [Hx|[<-|[]]]; [apply Hvn; exact Hx | exact Hvin]. }
  split.
  { intros x Hx. destruct (Hr x Hx) as [H1 H2]. split; [apply in_or_app; left; exact H1|].
    intros H. apply in_app_or in H as [H|[<-|[]]]; [contradiction | contradiction]. }
  split.
  { intros x Hx. apply in_app_or in Hx as [Hx|[<-|[]]].
    - destruct (Hv x Hx); [left; assumption | right; apply in_or_app; left; assumption].
    - right. apply in_or_app. right. left. reflexivity. }
  split; [|exact Ho].
  intros x Hx. apply in_app_or in Hx as [Hx|[<-|[]]];
    [apply in_or_app; left; apply Hs; exact Hx | apply in_or_app; right; left; reflexivity].
Qed.

Lemma topInv_pop (g : Graph) (st : TopState) (v : string) (stack0 : list string) :
  topInv g st -> ts_stack st = stack0 ++ [v] -> ~ In v stack0 ->
  (forall u, In (u, v) (g_edges g) -> In u (ts_results st)) ->
  topInv g (mkTop (ts_visited st) (filter (fun x => negb (String.eqb x v)) (ts_stack st))
                  (ts_results st ++ [v])).
Proof.
  intros [Hnv [Hnr [Hvn [Hr [Hv [Hs Ho]]]]]] Hst Hn0 Hpred.
  assert (Hvst : In v (ts_stack st)) by (rewrite Hst; apply in_or_app; right; left; reflexivity).
  assert (Hvr : ~ In v (ts_results st)) by (intros H; apply (proj2 (Hr v H)); exact Hvst).
  assert (Hfilt : filter (fun x => negb (String.eqb x v)) (ts_stack st) = stack0).
  { rewrite Hst, filter_app, filter_neq_id by exact Hn0. simpl.
    rewrite String.eqb_refl. simpl. apply app_nil_r. }
  unfold topInv; simpl. rewrite Hfilt.
  split; [exact Hnv|]. split; [apply NoDup_snoc; assumption|]. split; [exact Hvn|].
  split.
  { intros x Hx. apply in_app_or in Hx as [Hx|[<-|[]]].
    - destruct (Hr x Hx) as [H1 H2]. split; [exact H1|]. intros H. apply H2. rewrite Hst.
      apply in_or_app. left. exact H.
    - split; [apply Hs; exact Hvst | exact Hn0]. }
  split.
  { intros x Hx. destruct (Hv x Hx) as [H|H]; [left; apply in_or_app; left; exact H|].
    rewrite Hst in H. apply in_app_or in H as [H|[<-|[]]]; [right; exact H|].
    left. apply in_or_app. right. left. reflexivity. }
  split.
  { intros x Hx. apply Hs. rewrite Hst. apply in_or_app. left. exact Hx. }
  intros l1 x l2 H u Hu. apply snoc_split in H as [[-> [-> _]]|[l2' [_ H]]].
  - apply Hpred. exact Hu.
  - exact (Ho l1 x l2' H u Hu).
Qed.

Section TopsortSound.
Variable g : Graph.
Hypothesis Hwf : wfGraph g.

Lemma pred_in_nodes (u v : string) : In u (predecessors g v) -> In u (nodes g).
Proof.
  intros H. apply predecessors_In in H. destruct Hwf as [_ [_ Hends]].
  exact (proj1 (Hends _ _ H)).
Qed.

Lemma visit_ok (fuel : nat) :
  forall v st st', topInv g st -> In v (nodes g) -> visit g fuel v st = Ok st' ->
  topInv g st' /\ ts_stack st' = ts_stack st /\ In v (ts_results st') /\
  (exists new, ts_results st' = ts_results st ++ new) /\
  incl (ts_visited st) (ts_visited st').
Proof.
  induction fuel as [|f IH]; intros v st st' Hinv Hv Hvisit; [discriminate|].
  simpl in Hvisit.
  destruct (memb v (ts_stack st)) eqn:Es; [discriminate|].
  destruct (memb v (ts_visited st)) eqn:Ev.
  - injection Hvisit as <-. split; [exact Hinv|]. split; [reflexivity|].
    split; [|split; [exists []; symmetry; apply app_nil_r | apply incl_refl]].
    destruct Hinv as [_ [_ [_ [_ [Hvs _]]]]]. apply memb_In in Ev.
    destruct (Hvs v Ev) as [H|H]; [exact H|]. apply memb_In in H. congruence.
  - assert (Hnv : ~ In v (ts_visited st)) by (intros H; apply memb_In in H; congruence).
    assert (Hns : ~ In v (ts_stack st)) by (intros H; apply memb_In in H; congruence).
    pose proof (topInv_push g st v Hinv Hv Hnv) as Hinv1.
    set (st1 := mkTop (ts_visited st ++ [v]) (ts_stack st ++ [v]) (ts_results st)) in *.
    assert (Heach : forall ps s s', topInv g s -> (forall p, In p ps -> In p (nodes g)) ->
              forEachResult (visit g f) ps s = Ok s' ->
              topInv g s' /\ ts_stack s' = ts_stack s /\ (forall p, In p ps -> In p (ts_results s')) /\
              (exists new, ts_results s' = ts_results s ++ new) /\ incl (ts_visited s) (ts_visited s')).
    { induction ps as [|p ps IHps]; intros s s' Hs Hps Hrun.
      - injection Hrun as <-. split; [exact Hs|]. split; [reflexivity|].
        split; [intros p []|]. split; [exists []; symmetry; apply app_nil_r | apply incl_refl].
      - simpl in Hrun. destruct (visit g f p s) as [s1|] eqn:E1; [|discriminate].
        simpl in Hrun.
        destruct (IH p s s1 Hs (Hps p (or_introl eq_refl)) E1)
          as [Hs1 [Hst1 [Hp1 [[new1 Hnew1] Hinc1]]]].
        destruct (IHps s1 s' Hs1 (fun q Hq => Hps q (or_intror Hq)) Hrun)
          as [Hs' [Hst' [Hps' [[new' Hnew'] Hinc']]]].
        split; [exact Hs'|]. split; [congruence|]. split.
        + intros q [<-|Hq]; [|apply Hps'; exact Hq]. rewrite Hnew'. apply in_or_app. left. exact Hp1.
        + split; [exists (new1 ++ new'); rewrite Hnew', Hnew1, app_assoc; reflexivity|].
          intros x Hx. apply Hinc', Hinc1, Hx. }
    destruct (forEachResult (visit g f) (predecessors g v) st1) as [st2|] eqn:E2;
      [|discriminate].
    simpl in Hvisit. injection Hvisit as <-.
    destruct (Heach (predecessors g v) st1 st2 Hinv1 (fun p Hp => pred_in_nodes p v Hp) E2)
      as [Hinv2 [Hst2 [Hpreds [[new Hnew] Hinc]]]].
    assert (Hst2' : ts_stack st2 = ts_stack st ++ [v]) by exact Hst2.
    pose proof (topInv_pop g st2 v (ts_stack st) Hinv2 Hst2' Hns
                  (fun u Hu => Hpreds u (proj2 (predecessors_In g u v) Hu))) as Hinv'.
    split; [exact Hinv'|]. split.
    + simpl. rewrite Hst2', filter_app, filter_neq_id by exact Hns. simpl.
      rewrite String.eqb_refl. apply app_nil_r.
    + split; [simpl; apply in_or_app; right; left; reflexivity|]. split.
      * exists (new ++ [v]). simpl. rewrite Hnew. simpl. rewrite app_assoc. reflexivity.
      * intros x Hx. simpl. apply Hinc. simpl. apply in_or_app. left. exact Hx.
Qed.

Lemma visitEach_ok (fuel : nat) :
  forall vs st st', topInv g st -> (forall v, In v vs -> In v (nodes g)) ->
  visitEach g fuel vs st = Ok st' ->
  topInv g st' /\ ts_stack st' = ts_stack st /\ (forall v, In v vs -> In v (ts_results st')) /\
  (exists new, ts_results st' = ts_results st ++ new).
Proof.
  induction vs as [|v vs IH]; intros st st' Hinv Hvs Hrun.
  - injection Hrun as <-. split; [exact Hinv|]. split; [reflexivity|].
    split; [intros v []|exists []; symmetry; apply app_nil_r].
  - simpl in Hrun. destruct (visit g fuel v st) as [s1|] eqn:E1; [|discriminate].
    simpl in Hrun.
    destruct (visit_ok fuel v st s1 Hinv (Hvs v (or_introl eq_refl)) E1)
      as [Hs1 [Hst1 [Hv1 [[n1 Hn1] _]]]].
    destruct (IH s1 st' Hs1 (fun x Hx => Hvs x (or_intror Hx)) Hrun)
      as [Hs' [Hst' [Hvs' [n' Hn']]]].
    split; [exact Hs'|]. split; [congruence|]. split.
    + intros x [<-|Hx]; [|apply Hvs'; exact Hx]. rewrite Hn'. apply in_or_app. left. exact Hv1.
    + exists (n1 ++ n'). rewrite Hn', Hn1, app_assoc. reflexivity.
Qed.

(** A successful [topsort] lists every node once, each after all of its
    predecessors. *)
Lemma topsort_sound (rs : list string) :
  topsort g = Ok rs ->
  NoDup rs /\ (forall x, In x rs <-> In x (nodes g)) /\
  (forall l1 x l2, rs = l1 ++ x :: l2 -> forall u, In (u, x) (g_edges g) -> In u l1).
Proof.
  unfold topsort. intros H.
  destruct (visitEach g (S (length (nodes g))) (sinks g) (mkTop [] [] [])) as [st|] eqn:E;
    [|discriminate].
  simpl in H. destruct (Nat.eqb (length (ts_visited st)) (length (nodes g))) eqn:Elen;
    [|discriminate].
  injection H as <-. apply Nat.eqb_eq in Elen.
  assert (Hsinks : forall v, In v (sinks g) -> In v (nodes g))
    by (intros v Hv; unfold sinks in Hv; apply filter_In in Hv; exact (proj1 Hv)).
  destruct (visitEach_ok _ (sinks g) _ st (topInv_init g) Hsinks E) as [Hinv [Hst _]].
  simpl in Hst.
  destruct Hinv as [Hnv [Hnr [Hvn [Hr [Hv [_ Ho]]]]]].
  rewrite Hst in Hv.
  assert (Hall : incl (nodes g) (ts_visited st)).
  { apply NoDup_length_incl; [exact Hnv | lia | exact Hvn]. }
  split; [exact Hnr|]. split; [|exact Ho].
  intros x. split.
  - intros Hx. apply Hvn. exact (proj1 (Hr x Hx)).
  - intros Hx. destruct (Hv x (Hall x Hx)) as [H|[]]. exact H.
Qed.

Lemma topsort_before (rs : list string) :
  topsort g = Ok rs ->
  forall u w, greach g u w -> forall l1 l2, rs = l1 ++ w :: l2 -> In u l1.
Proof.
  intros Hts. destruct (topsort_sound rs Hts) as [Hnd [Hmem Ho]].
  induction 1 as [u w Huw|u v w Huv Hvw IH]; intros l1 l2 Hrs.
  - exact (Ho l1 w l2 Hrs u Huw).
  - pose proof (IH l1 l2 Hrs) as Hv1.
    apply in_split in Hv1 as [a [b Hab]].
    assert (Hrs' : rs = a ++ v :: (b ++ w :: l2)) by (rewrite Hrs, Hab, <- app_assoc; reflexivity).
    pose proof (Ho a v (b ++ w :: l2) Hrs' u Huv) as Hu.
    rewrite Hab. apply in_or_app. left. exact Hu.
Qed.

(** A graph with a cycle has no topological order. *)
Lemma topsort_cycle (u : string) : greach g u u -> isAcyclic g = false.
Proof.
  intros Hc. unfold isAcyclic. destruct (topsort g) as [rs|] eqn:Hts; [|reflexivity].
  exfalso. destruct (topsort_sound rs Hts) as [Hnd [Hmem _]].
  assert (Hu : In u (nodes g)).
  { destruct Hwf as [_ [_ Hends]].
    assert (Hsrc : forall a b, greach g a b -> In a (nodes g))
      by (intros a b Hab; destruct Hab as [a b H|a v b H _]; exact (proj1 (Hends _ _ H))).
    exact (Hsrc u u Hc). }
  apply Hmem in Hu. apply in_split in Hu as [l1 [l2 Hrs]].
  pose proof (topsort_before rs Hts u u Hc l1 l2 Hrs) as Hin.
  rewrite Hrs in Hnd. apply NoDup_remove_2 in Hnd. apply Hnd. apply in_or_app. left. exact Hin.
Qed.

End TopsortSound.

(** *** Invariants of graphs built by [setNode] and [setEdge] *)


Lemma graphInv_empty (L : string -> Task -> Prop) (Ed : string -> string -> Prop) :
  graphInv L Ed emptyGraph.
Proof. split; [exact wf_emptyGraph|]. split; [intros k t H; discriminate | intros u d []]. Qed.

Lemma graphInv_setNode (L : string -> Task -> Prop) (Ed : string -> string -> Prop)
      (g : Graph) (k : string) (lab : Task) :
  graphInv L Ed g -> L k lab -> graphInv L Ed (setNode g k lab).
Proof.
  intros [Hwf [Hl He]] Hk. split; [apply wf_setNode; exact Hwf|]. split.
  - intros x t Hx. rewrite node_setNode in Hx.
    destruct (String.eqb k x) eqn:E; [|apply Hl; exact Hx].
    apply String.eqb_eq in E. subst x. injection Hx as <-. exact Hk.
  - intros u d H. rewrite edges_setNode in H. apply He. exact H.
Qed.

Lemma graphInv_setEdge (L : string -> Task -> Prop) (Ed : string -> string -> Prop)
      (g : Graph) (u d : string) :
  graphInv L Ed g -> Ed u d -> graphInv L Ed (setEdge g u d).
Proof.
  intros [Hwf [Hl He]] Hd. split; [apply wf_setEdge; exact Hwf|]. split.
  - intros x t Hx. rewrite node_setEdge in Hx. apply Hl. exact Hx.
  - intros a b H. apply In_edges_setEdge in H as [H|H]; [apply He; exact H|].
    injection H as -> ->. exact Hd.
Qed.

(** *** GraphBuilder: what discovery puts in the graph *)

Section Discovery.
Variable isMatch : string -> string -> bool.
Variable sm : list (string * Script).

Lemma processScript_pres (P : Graph -> Prop) :
  (forall g k lab, P g -> labelOf sm k = Some lab -> P (setNode g k lab)) ->
  (forall g u d, P g -> In d (depsOf isMatch sm u) -> P (setEdge g u d)) ->
  forall fuel name g vis, P g -> P (fst (processScript isMatch sm fuel name (g, vis))).
Proof.
  intros Hnode Hedge. induction fuel as [|f IH]; intros name g vis Hg; [exact Hg|].
  cbn [processScript]. destruct (memb name vis); [exact Hg|].
  destruct (mapGet sm name) as [script|] eqn:Em; [|exact Hg].
  destruct (isFrunkCommand (s_command script)) eqn:Ef;
    [destruct (parseFrunkCommand (s_command script)) as [fc|] eqn:Ep|].
  - assert (Hl : labelOf sm name = Some (mkTask (finalCommandOr fc) [] name))
      by (unfold labelOf; rewrite Em, Ef, Ep; reflexivity).
    assert (Hd : forall d, In d (resolveDeps isMatch sm fc) -> In d (depsOf isMatch sm name))
      by (intros d H; unfold depsOf; rewrite Em, Ef, Ep; exact H).
    pose proof (Hnode g name _ Hg Hl) as Hg1.
    revert Hd Hg1. generalize (setNode g name (mkTask (finalCommandOr fc) [] name)) as g1.
    generalize (vis ++ [name]) as v1. generalize (resolveDeps isMatch sm fc) as ds.
    induction ds as [|d ds IHds]; intros v1 g1 Hd Hg1; [exact Hg1|].
    cbn [fold_left].
    destruct (processScript isMatch sm f d (setEdge g1 name d, v1)) as [g2 v2] eqn:E2.
    apply IHds; [intros x Hx; apply Hd; right; exact Hx|].
    change g2 with (fst (g2, v2)). rewrite <- E2. apply IH.
    apply Hedge; [exact Hg1 | apply Hd; left; reflexivity].
  - apply Hnode; [exact Hg|]. unfold labelOf. rewrite Em, Ef, Ep. reflexivity.
  - apply Hnode; [exact Hg|]. unfold labelOf. rewrite Em, Ef. reflexivity.
Qed.

Lemma discover_pres (P : Graph -> Prop) :
  (forall g k lab, P g -> labelOf sm k = Some lab -> P (setNode g k lab)) ->
  (forall g u d, P g -> In d (depsOf isMatch sm u) -> P (setEdge g u d)) ->
  P emptyGraph -> forall names, P (discover isMatch sm names).
Proof.
  intros Hnode Hedge Hemp names. unfold discover.
  revert Hemp. generalize emptyGraph as g. induction names as [|nm names IH]; intros g Hg; [exact Hg|].
  cbn [fold_left]. apply IH. apply processScript_pres; assumption.
Qed.

Lemma discover_inv (L : string -> Task -> Prop) (Ed : string -> string -> Prop)
      (names : list string) :
  (forall k lab, labelOf sm k = Some lab -> L k lab) ->
  (forall u d, In d (depsOf isMatch sm u) -> Ed u d) ->
  graphInv L Ed (discover isMatch sm names).
Proof.
  intros HL HE. apply discover_pres.
  - intros g k lab Hg Hk. apply graphInv_setNode; [exact Hg | apply HL; exact Hk].
  - intros g u d Hg Hd. apply graphInv_setEdge; [exact Hg | apply HE; exact Hd].
  - exact (graphInv_empty L Ed).
Qed.

End Discovery.

Lemma addGroupEdges_pres (P : Graph -> Prop) (prev cur : list string) :
  (forall g u d, P g -> In u cur -> In d prev -> P (setEdge g u d)) ->
  forall g, P g -> P (addGroupEdges prev cur g).
Proof.
  intros HE. unfold addGroupEdges.
  assert (Hin : forall prev', incl prev' prev -> forall u, In u cur ->
            forall g, P g ->
            P (fold_left (fun g prev => if hasNode g u && hasNode g prev then setEdge g u prev else g)
                         prev' g)).
  { induction prev' as [|d prev' IH]; intros Hincl u Hu g Hg; [exact Hg|].
    cbn [fold_left]. apply IH; [intros x Hx; apply Hincl; right; exact Hx | exact Hu|].
    destruct (hasNode g u && hasNode g d); [|exact Hg].
    apply HE; [exact Hg | exact Hu | apply Hincl; left; reflexivity]. }
  assert (Hout : forall cur', incl cur' cur -> forall g, P g ->
            P (fold_left (fun g cur0 =>
                 fold_left (fun g prev0 =>
                   if hasNode g cur0 && hasNode g prev0 then setEdge g cur0 prev0 else g) prev g)
               cur' g)).
  { induction cur' as [|u cur' IH]; intros Hincl g Hg; [exact Hg|].
    cbn [fold_left]. apply IH; [intros x Hx; apply Hincl; right; exact Hx|].
    apply Hin; [apply incl_refl | apply Hincl; left; reflexivity | exact Hg]. }
  intros g Hg. apply Hout; [apply incl_refl | exact Hg].
Qed.

Lemma addSequentialEdges_pres (P : Graph -> Prop) (groups : list (list string)) :
  (forall g u d, P g -> seqEdge groups u d -> P (setEdge g u d)) ->
  forall g, P g -> P (addSequentialEdges groups g).
Proof.
  induction groups as [|prev rest IH]; intros HE g Hg; [exact Hg|].
  destruct rest as [|cur rest']; [exact Hg|].
  cbn [addSequentialEdges]. apply IH.
  - intros g' u d Hg' [l1 [p [c [l2 [Heq [Hu Hd]]]]]]. apply HE; [exact Hg'|].
    exists (prev :: l1), p, c, l2. rewrite Heq. split; [reflexivity|]. split; assumption.
  - apply addGroupEdges_pres; [|exact Hg].
    intros g' u d Hg' Hu Hd. apply HE; [exact Hg'|].
    exists [], prev, cur, rest'. split; [reflexivity|]. split; assumption.
Qed.

Lemma addCommandNode_pres (P : Graph -> Prop) (c : string) (names : list string) :
  (forall g, P g -> P (setNode g COMMAND_NODE_NAME (commandTask c))) ->
  (forall g d, P g -> In d names -> P (setEdge g COMMAND_NODE_NAME d)) ->
  forall g, P g -> P (addCommandNode c names g).
Proof.
  intros HN HE g Hg. unfold addCommandNode.
  assert (H : forall names', incl names' names -> forall g, P g ->
            P (fold_left (fun g depName =>
                 if hasNode g depName then setEdge g COMMAND_NODE_NAME depName else g) names' g)).
  { induction names' as [|d names' IH]; intros Hincl g' Hg'; [exact Hg'|].
    cbn [fold_left]. apply IH; [intros x Hx; apply Hincl; right; exact Hx|].
    destruct (hasNode g' d); [|exact Hg'].
    apply HE; [exact Hg' | apply Hincl; left; reflexivity]. }
  apply H; [apply incl_refl | apply HN; exact Hg].
Qed.

(** The labels and edges of the graph [buildGraph] checks. *)
Lemma buildGraphGraph_inv (isMatch : string -> string -> bool) (patterns : list string)
      (scripts : list Script) (command : option string) :
  graphInv (builtLabel (scriptMapOf scripts) command)
           (builtEdge isMatch (scriptMapOf scripts) patterns)
           (buildGraphGraph isMatch patterns scripts command).
Proof.
  unfold buildGraphGraph. cbv zeta.
  set (sm := scriptMapOf scripts).
  assert (Hd : graphInv (builtLabel sm command) (builtEdge isMatch sm patterns)
                 (discover isMatch sm (map stripSeqMarker patterns))).
  { apply discover_inv.
    - intros k lab H. left. exact H.
    - intros u d H. left. exact H. }
  assert (Hs : graphInv (builtLabel sm command) (builtEdge isMatch sm patterns)
                 (addSequentialEdges (parseSequentialGroups patterns)
                    (discover isMatch sm (map stripSeqMarker patterns)))).
  { apply addSequentialEdges_pres; [|exact Hd].
    intros g u d Hg Hud. apply graphInv_setEdge; [exact Hg|]. right. left. exact Hud. }
  destruct command as [c|]; [|exact Hs].
  destruct (truthy c && negb (Nat.eqb (length (map stripSeqMarker patterns)) 0)); [|exact Hs].
  apply addCommandNode_pres; [| |exact Hs].
  - intros g Hg. apply graphInv_setNode; [exact Hg|]. right. split; [reflexivity|].
    exists c. split; reflexivity.
  - intros g d Hg Hdn. apply graphInv_setEdge; [exact Hg|]. right. right.
    split; [reflexivity | exact Hdn].
Qed.

(** *** Node ids are distinct *)

Lemma digitsOf_value (fuel n : nat) (acc : string) :
  n < fuel ->
  fold_left (fun a c => a * 10 + (nat_of_ascii c - 48)) (chars (digitsOf fuel n acc)) 0
  = fold_left (fun a c => a * 10 + (nat_of_ascii c - 48)) (chars acc) n.
Proof.
  revert n acc. induction fuel as [|f IH]; intros n acc Hn; [lia|].
  cbn [digitsOf].
  assert (Hd : nat_of_ascii (ascii_of_nat (48 + n mod 10)) - 48 = n mod 10).
  { rewrite Ascii.nat_ascii_embedding; [lia|]. pose proof (Nat.mod_upper_bound n 10). lia. }
  destruct (Nat.ltb n 10) eqn:E.
  - apply Nat.ltb_lt in E. unfold chars. cbn [list_ascii_of_string fold_left]. fold (chars acc).
    rewrite Hd, Nat.mod_small by exact E. reflexivity.
  - apply Nat.ltb_ge in E. rewrite IH.
    + unfold chars. cbn [list_ascii_of_string fold_left]. fold (chars acc). rewrite Hd.
      f_equal. pose proof (Nat.div_mod n 10). lia.
    + pose proof (Nat.div_lt n 10). lia.
Qed.

Lemma parseDecimal_showNat (n : nat) : parseDecimal (showNat n) = n.
Proof. unfold parseDecimal, showNat. rewrite digitsOf_value by lia. reflexivity. Qed.

Lemma nodeIdOf_inj (n m : nat) : nodeIdOf n = nodeIdOf m -> n = m.
Proof.
  unfold nodeIdOf. intros H.
  assert (Happ : forall a b, ("node_" ++ a)%string = ("node_" ++ b)%string -> a = b)
    by (intros a b Hab; simpl in Hab; injection Hab as Hab; exact Hab).
  apply Happ in H. rewrite <- (parseDecimal_showNat n), <- (parseDecimal_showNat m), H. reflexivity.
Qed.

(** *** Node construction along a topological order *)

Lemma idLookup_app (m m' : list (string * string)) (w : string) :
  idLookup (m ++ m') w = match idLookup m w with Some v => Some v | None => idLookup m' w end.
Proof.
  induction m as [|[k v] m IH]; simpl; [reflexivity|].
  destruct (String.eqb k w); [reflexivity | exact IH].
Qed.

Lemma idLookup_None (m : list (string * string)) (w : string) :
  idLookup m w = None <-> ~ In w (map fst m).
Proof.
  induction m as [|[k v] m IH]; simpl; [tauto|].
  destruct (String.eqb k w) eqn:E.
  - apply String.eqb_eq in E. subst. split; [discriminate|]. intros H. exfalso. apply H.
    left. reflexivity.
  - rewrite IH. apply String.eqb_neq in E. intuition.
Qed.

Lemma map_fst_idsFrom (c : nat) (l : list string) : map fst (idsFrom c l) = l.
Proof. revert c. induction l as [|k l IH]; intros c; simpl; [|rewrite IH]; reflexivity. Qed.

Lemma idsFrom_snoc (c : nat) (l : list string) (x : string) :
  idsFrom c (l ++ [x]) = idsFrom c l ++ [(x, nodeIdOf (c + length l))].
Proof.
  revert c. induction l as [|k l IH]; intros c; simpl.
  - rewrite Nat.add_0_r. reflexivity.
  - rewrite IH, Nat.add_succ_r. reflexivity.
Qed.

Lemma labeledIn_sub (g : Graph) (l : list string) (x : string) :
  In x (labeledIn g l) -> In x l.
Proof. unfold labeledIn. rewrite filter_In. tauto. Qed.

Lemma buildNodes_snoc (g : Graph) (l : list string) (x : string) (c : nat) :
  buildNodes g (l ++ [x]) c = buildStep g (buildNodes g l c) x.
Proof. unfold buildNodes. rewrite fold_left_app. reflexivity. Qed.

Lemma depIds_snoc (g : Graph) (ids : list (string * string)) (x v k : string) :
  ~ In x (successors g k) -> depIds g (ids ++ [(x, v)]) k = depIds g ids k.
Proof.
  intros Hx. unfold depIds. rewrite !flat_map_concat_map. f_equal. apply map_ext_in.
  intros w Hw. rewrite idLookup_app. destruct (idLookup ids w); [reflexivity|]. simpl.
  destruct (String.eqb x w) eqn:E; [|reflexivity].
  apply String.eqb_eq in E. subst. contradiction.
Qed.

(** [order] lists the successors of each of its elements before it. *)
Lemma buildNodes_spec (g : Graph) (order : list string) (c : nat) :
  NoDup order ->
  (forall l1 x l2, order = l1 ++ x :: l2 -> forall w, In (x, w) (g_edges g) -> In w l1) ->
  let acc := buildNodes g order c in
  acc_ids acc = idsFrom c (labeledIn g order) /\
  acc_counter acc = c + length (labeledIn g order) /\
  acc_nodes acc = map (nodeFor g (acc_ids acc)) (acc_ids acc).
Proof.
  induction order as [|x l IH] using rev_ind; intros Hnd Htopo; cbv zeta.
  - split; [reflexivity|]. split; [simpl; lia | reflexivity].
  - apply NoDup_app_remove_r in Hnd as Hndl.
    assert (Hx : ~ In x l).
    { intros H. apply NoDup_remove_2 in Hnd. apply Hnd. rewrite app_nil_r. exact H. }
    assert (Htopol : forall l1 k l2, l = l1 ++ k :: l2 -> forall w, In (k, w) (g_edges g) -> In w l1).
    { intros l1 k l2 Hl w Hw. apply (Htopo l1 k (l2 ++ [x])); [|exact Hw].
      rewrite Hl, <- app_assoc. reflexivity. }
    assert (Hsucc : forall k w, In k l -> In w (successors g k) -> w <> x).
    { intros k w Hk Hw ->. apply in_split in Hk as [l1 [l2 Hl]].
      apply successors_In in Hw. apply Hx. rewrite Hl. apply in_or_app. left.
      exact (Htopol l1 k l2 Hl x Hw). }
    destruct (IH Hndl Htopol) as [Hids [Hcnt Hnodes]].
    rewrite buildNodes_snoc. unfold buildStep.
    unfold labeledIn at 1 2. rewrite filter_app. fold (labeledIn g l). simpl.
    destruct (node g x) as [t|] eqn:Ex.
    + assert (Hnone : idLookup (acc_ids (buildNodes g l c)) x = None).
      { apply idLookup_None. rewrite Hids, map_fst_idsFrom. intros H. apply Hx.
        apply labeledIn_sub in H. exact H. }
      rewrite Hnone. cbn [acc_ids acc_nodes acc_counter].
      rewrite Hids, Hcnt, idsFrom_snoc. split; [reflexivity|]. split; [rewrite length_app; simpl; lia|].
      rewrite map_app. simpl. rewrite Hnodes, Hids. f_equal.
      * apply map_ext_in. intros [k v] Hkv. unfold nodeFor. cbn [fst snd].
        rewrite depIds_snoc; [reflexivity|].
        apply (in_map fst) in Hkv. rewrite map_fst_idsFrom in Hkv. apply labeledIn_sub in Hkv.
        intros H. exact (Hsucc k x Hkv H eq_refl).
      * unfold nodeFor. cbn [fst snd]. rewrite depIds_snoc.
        -- unfold tasksOf. rewrite Ex. reflexivity.
        -- intros H. apply successors_In in H. apply Hx. exact (Htopo l x [] eq_refl x H).
    + rewrite app_nil_r. split; [exact Hids|]. split; [exact Hcnt | exact Hnodes].
Qed.

Lemma topsort_rev (g : Graph) (rs : list string) :
  wfGraph g -> topsort g = Ok rs ->
  NoDup (rev rs) /\ (forall x, In x (rev rs) <-> In x (nodes g)) /\
  (forall l1 x l2, rev rs = l1 ++ x :: l2 -> forall w, In (x, w) (g_edges g) -> In w l1).
Proof.
  intros Hwf Hts. destruct (topsort_sound g Hwf rs Hts) as [Hnd [Hmem Ho]].
  split; [apply NoDup_rev; exact Hnd|]. split.
  { intros x. rewrite <- in_rev. apply Hmem. }
  intros l1 x l2 Hrev w Hw.
  assert (Hrs : rs = rev l2 ++ x :: rev l1)
    by (rewrite <- (rev_involutive rs), Hrev, rev_app_distr; simpl; rewrite <- app_assoc; reflexivity).
  assert (Hwin : In w rs) by (apply Hmem; destruct Hwf as [_ [_ He]]; exact (proj2 (He _ _ Hw))).
  rewrite Hrs in Hwin. apply in_app_or in Hwin as [Hwin|[Heq|Hwin]].
  - exfalso. apply in_split in Hwin as [a [b Hab]].
    assert (Hrs' : rs = a ++ w :: (b ++ x :: rev l1))
      by (rewrite Hrs, Hab, <- app_assoc; reflexivity).
    pose proof (Ho a w (b ++ x :: rev l1) Hrs' x Hw) as Hxa.
    apply in_split in Hxa as [a1 [a2 Ha]]. rewrite Hrs', Ha, <- app_assoc in Hnd.
    apply NoDup_remove_2 in Hnd. apply Hnd.
    apply in_or_app. right. apply in_or_app. right. right. apply in_or_app. right.
    left. reflexivity.
  - subst w. exfalso. pose proof (Ho (rev l2) x (rev l1) Hrs x Hw) as Hxa.
    rewrite Hrs in Hnd. apply NoDup_remove_2 in Hnd. apply Hnd. apply in_or_app. left. exact Hxa.
  - apply in_rev. exact Hwin.
Qed.

Lemma buildGraphGraph_nil (isMatch : string -> string -> bool) (scripts : list Script)
      (command : option string) :
  buildGraphGraph isMatch [] scripts command = emptyGraph.
Proof.
  unfold buildGraphGraph. cbn -[discover]. change (discover isMatch (scriptMapOf scripts) [])
    with emptyGraph.
  destruct command as [c|]; [|reflexivity]. rewrite andb_false_r. reflexivity.
Qed.

(** What a successful [buildGraph] returns: one node per labelled key of
    its graph, in reverse topological order, or, without patterns, the
    single node added at the end. *)
Lemma buildGraphFull_spec (isMatch : string -> string -> bool) (counter : nat)
      (patterns : list string) (scripts : list Script) (command : option string)
      (nodes : list ExecutionNode) (n : nat) (ids : list (string * string)) :
  buildGraphFull isMatch counter patterns scripts command = Ok (nodes, n, ids) ->
  let g := buildGraphGraph isMatch patterns scripts command in
  exists order,
    isAcyclic g = true /\ NoDup order /\ (forall x, In x order <-> In x (Graphlib.nodes g)) /\
    (forall l1 x l2, order = l1 ++ x :: l2 -> forall w, In (x, w) (g_edges g) -> In w l1) /\
    ids = idsFrom counter (labeledIn g order) /\
    ((patterns <> [] /\ nodes = map (nodeFor g ids) ids) \/
     (patterns = [] /\ ids = [] /\ exists x, nodes = [x] /\ en_dependencies x = [] /\
        (en_tasks x = [] \/ exists c, command = Some c /\ en_tasks x = [commandTask c]))).
Proof.
  intros H. cbv zeta.
  pose proof (proj1 (buildGraphGraph_inv isMatch patterns scripts command)) as Hwf.
  set (g := buildGraphGraph isMatch patterns scripts command) in *.
  unfold buildGraphFull in H. fold g in H. cbv zeta in H.
  destruct (isAcyclic g) eqn:Hac; [|discriminate]. simpl in H.
  destruct (topsort g) as [rs|] eqn:Hts; [|discriminate].
  destruct (topsort_rev g rs Hwf Hts) as [Hnd [Hmem Htopo]].
  destruct (buildNodes_spec g (rev rs) counter Hnd Htopo) as [Hids [_ Hnodes]].
  exists (rev rs). split; [reflexivity|]. split; [exact Hnd|]. split; [exact Hmem|].
  split; [exact Htopo|].
  remember (buildNodes g (rev rs) counter) as acc eqn:Hacc. clear Hacc.
  destruct patterns as [|p ps].
  - assert (Hg : g = emptyGraph) by apply buildGraphGraph_nil.
    assert (Hrs : rev rs = []).
    { destruct (rev rs) as [|y ys] eqn:E; [reflexivity|]. exfalso.
      pose proof (proj1 (Hmem y) (or_introl eq_refl)) as Hy. rewrite Hg in Hy. exact Hy. }
    rewrite Hrs in Hids. cbn in Hids.
    assert (Hacc : acc_nodes acc = []) by (rewrite Hnodes, Hids; reflexivity).
    rewrite Hacc in H.
    destruct command as [c|]; [destruct (truthy c)|]; injection H as <- _ <-;
      (split; [rewrite Hrs, Hids; reflexivity|]); right; (split; [reflexivity|]);
      (split; [exact Hids|]); eexists; (split; [reflexivity|]); (split; [reflexivity|]).
    + right. exists c. split; reflexivity.
    + left. reflexivity.
    + left. reflexivity.
  - injection H as <- _ <-. split; [exact Hids|]. left. split; [discriminate|exact Hnodes].
Qed.

Lemma labelOf_name (sm : list (string * Script)) (k : string) (t : Task) :
  labelOf sm k = Some t -> t_name t = k.
Proof.
  unfold labelOf. destruct (mapGet sm k) as [script|]; [|discriminate].
  destruct (isFrunkCommand (s_command script));
    [destruct (parseFrunkCommand (s_command script))|];
    intros H; injection H as <-; reflexivity.
Qed.

(** Every task [buildGraph] returns is the label of a manifest entry or
    the trailing command's. *)
Lemma buildGraphFull_tasks (isMatch : string -> string -> bool) (counter : nat)
      (patterns : list string) (scripts : list Script) (command : option string)
      (nodes : list ExecutionNode) (n : nat) (ids : list (string * string)) :
  buildGraphFull isMatch counter patterns scripts command = Ok (nodes, n, ids) ->
  forall nd t, In nd nodes -> In t (en_tasks nd) ->
  labelOf (scriptMapOf scripts) (t_name t) = Some t \/
  exists c, command = Some c /\ t = commandTask c.
Proof.
  intros H nd t Hnd Ht.
  destruct (buildGraphFull_spec isMatch counter patterns scripts command nodes n ids H)
    as [order [_ [_ [_ [_ [_ [[_ Hnodes]|[_ [_ [x [Hx [_ Htx]]]]]]]]]]]].
  - rewrite Hnodes in Hnd. apply in_map_iff in Hnd as [[k v] [<- _]].
    unfold nodeFor, tasksOf in Ht. cbn [fst en_tasks] in Ht.
    destruct (node (buildGraphGraph isMatch patterns scripts command) k) as [t'|] eqn:Ek;
      [|destruct Ht].
    destruct Ht as [<-|[]].
    destruct (proj1 (proj2 (buildGraphGraph_inv isMatch patterns scripts command)) k t' Ek)
      as [Hl|[_ Hc]].
    + left. rewrite (labelOf_name _ _ _ Hl). exact Hl.
    + right. exact Hc.
  - rewrite Hx in Hnd. destruct Hnd as [<-|[]].
    destruct Htx as [Htx|[c [Hc Htx]]]; rewrite Htx in Ht; [destruct Ht|].
    destruct Ht as [<-|[]]. right. exists c. split; [exact Hc | reflexivity].
Qed.

(** *** The [nodeIdMap] *)

Lemma In_idsFrom (c : nat) (l : list string) (k v : string) :
  In (k, v) (idsFrom c l) <-> exists i, nth_error l i = Some k /\ v = nodeIdOf (c + i).
Proof.
  revert c. induction l as [|x l IH]; intros c; simpl.
  - split; [intros []|intros [i [Hi _]]; destruct i; discriminate].
  - rewrite IH. split.
    + intros [H|[i [Hi Hv]]].
      * injection H as <- <-. exists 0. split; [reflexivity|]. rewrite Nat.add_0_r. reflexivity.
      * exists (S i). split; [exact Hi|]. rewrite Hv. f_equal. lia.
    + intros [[|i] [Hi Hv]].
      * left. injection Hi as <-. rewrite Hv, Nat.add_0_r. reflexivity.
      * right. exists i. split; [exact Hi|]. rewrite Hv. f_equal. lia.
Qed.

Lemma idsFrom_same_id (c : nat) (l : list string) (k1 k2 v : string) :
  In (k1, v) (idsFrom c l) -> In (k2, v) (idsFrom c l) -> k1 = k2.
Proof.
  rewrite !In_idsFrom. intros [i [Hi ->]] [j [Hj Hv]].
  apply nodeIdOf_inj in Hv. assert (i = j) as <- by lia. congruence.
Qed.

Lemma idsFrom_same_key (c : nat) (l : list string) (k v1 v2 : string) :
  NoDup l -> In (k, v1) (idsFrom c l) -> In (k, v2) (idsFrom c l) -> v1 = v2.
Proof.
  intros Hnd. rewrite !In_idsFrom. intros [i [Hi ->]] [j [Hj ->]].
  assert (i = j) as -> by (apply (proj1 (NoDup_nth_error l) Hnd);
                            [apply nth_error_Some; congruence | congruence]).
  reflexivity.
Qed.

Lemma idLookup_idsFrom (c : nat) (l : list string) (k : string) :
  In k l -> exists v, idLookup (idsFrom c l) k = Some v.
Proof.
  intros Hk. destruct (idLookup (idsFrom c l) k) as [v|] eqn:E; [exists v; reflexivity|].
  apply idLookup_None in E. rewrite map_fst_idsFrom in E. contradiction.
Qed.

Lemma labeledIn_In (g : Graph) (l : list string) (k : string) (t : Task) :
  In k l -> node g k = Some t -> In k (labeledIn g l).
Proof. intros Hk Ht. unfold labeledIn. apply filter_In. rewrite Ht. split; [exact Hk|reflexivity]. Qed.

Lemma labeledIn_node (g : Graph) (l : list string) (k : string) :
  In k (labeledIn g l) -> exists t, node g k = Some t.
Proof.
  unfold labeledIn. rewrite filter_In. intros [_ H].
  destruct (node g k) as [t|]; [exists t; reflexivity|discriminate].
Qed.

(** *** [addCommandNode] *)

Lemma ensureNode_known (g : Graph) (v : string) : In v (nodes g) -> ensureNode g v = g.
Proof. intros Hv. apply hasNode_In in Hv. unfold ensureNode. rewrite Hv. reflexivity. Qed.

Lemma nodes_setEdge_known (g : Graph) (v w : string) :
  In v (nodes g) -> In w (nodes g) -> nodes (setEdge g v w) = nodes g.
Proof.
  intros Hv Hw. unfold setEdge. destruct (hasEdge g v w); [reflexivity|].
  rewrite (ensureNode_known g v Hv), (ensureNode_known g w Hw). reflexivity.
Qed.

Section CommandEdges.
Let F := fun g depName =>
  if hasNode g depName then setEdge g COMMAND_NODE_NAME depName else g.

Lemma cmdEdges_node (names : list string) (g : Graph) (x : string) :
  node (fold_left F names g) x = node g x.
Proof.
  revert g. induction names as [|d names IH]; intros g; [reflexivity|].
  cbn [fold_left]. rewrite IH. unfold F. destruct (hasNode g d); [apply node_setEdge|reflexivity].
Qed.

Lemma cmdEdges_nodes (names : list string) (g : Graph) :
  In COMMAND_NODE_NAME (nodes g) -> nodes (fold_left F names g) = nodes g.
Proof.
  revert g. induction names as [|d names IH]; intros g Hc; [reflexivity|].
  cbn [fold_left]. unfold F at 2. destruct (hasNode g d) eqn:Ed; [|apply IH; exact Hc].
  apply hasNode_In in Ed. rewrite IH; [apply nodes_setEdge_known; assumption|].
  rewrite nodes_setEdge_known; assumption.
Qed.

Lemma cmdEdges_keep (names : list string) (g : Graph) (e : string * string) :
  In e (g_edges g) -> In e (g_edges (fold_left F names g)).
Proof.
  revert g. induction names as [|d names IH]; intros g He; [exact He|].
  cbn [fold_left]. apply IH. unfold F. destruct (hasNode g d); [|exact He].
  apply In_edges_setEdge. left. exact He.
Qed.

Lemma cmdEdges_edge (names : list string) (g : Graph) (d : string) :
  In COMMAND_NODE_NAME (nodes g) -> In d names -> In d (nodes g) ->
  In (COMMAND_NODE_NAME, d) (g_edges (fold_left F names g)).
Proof.
  revert g. induction names as [|d' names IH]; intros g Hc Hd Hdn; [destruct Hd|].
  cbn [fold_left]. destruct Hd as [<-|Hd].
  - apply cmdEdges_keep. unfold F. apply hasNode_In in Hdn as Hdn'. rewrite Hdn'.
    apply In_edges_setEdge. right. reflexivity.
  - unfold F at 2. destruct (hasNode g d') eqn:Ed'; [|apply IH; assumption].
    apply hasNode_In in Ed'. apply IH; [| exact Hd |];
      rewrite nodes_setEdge_known; assumption.
Qed.

End CommandEdges.

(** The command node of the graph [buildGraph] checks: labelled with the
    trailing command's task, with an edge to every target that is a key. *)
Lemma buildGraphGraph_command (isMatch : string -> string -> bool) (patterns : list string)
      (scripts : list Script) (c : string) :
  truthy c = true -> patterns <> [] ->
  let g := buildGraphGraph isMatch patterns scripts (Some c) in
  node g COMMAND_NODE_NAME = Some (commandTask c) /\
  forall t, In t (map stripSeqMarker patterns) -> In t (nodes g) -> In (COMMAND_NODE_NAME, t) (g_edges g).
Proof.
  intros Hc Hp. cbv zeta.
  unfold buildGraphGraph. cbv zeta. rewrite Hc.
  assert (Hlen : Nat.eqb (length (map stripSeqMarker patterns)) 0 = false)
    by (destruct patterns; [contradiction|reflexivity]).
  rewrite Hlen. cbn [andb negb].
  set (g0 := addSequentialEdges (parseSequentialGroups patterns)
               (discover isMatch (scriptMapOf scripts) (map stripSeqMarker patterns))).
  unfold addCommandNode.
  set (g1 := setNode g0 COMMAND_NODE_NAME (commandTask c)).
  assert (Hc1 : In COMMAND_NODE_NAME (nodes g1)) by (apply In_nodes_setNode; right; reflexivity).
  split.
  - rewrite cmdEdges_node. unfold g1. rewrite node_setNode, String.eqb_refl. reflexivity.
  - intros t Ht Htn. rewrite cmdEdges_nodes in Htn by exact Hc1.
    apply cmdEdges_edge; assumption.
Qed.

Lemma node_In (g : Graph) (k : string) (t : Task) : node g k = Some t -> In k (nodes g).
Proof.
  intros H. destruct (in_dec string_dec k (nodes g)) as [Hin|Hn]; [exact Hin|].
  unfold node in H. rewrite lookupLabel_notin in H; [discriminate | exact Hn].
Qed.

(** The node built for a labelled key of a successful [buildGraph]. *)
Lemma buildGraphFull_node (isMatch : string -> string -> bool) (counter : nat)
      (patterns : list string) (scripts : list Script) (command : option string)
      (nodes : list ExecutionNode) (n : nat) (ids : list (string * string))
      (k : string) (t : Task) :
  buildGraphFull isMatch counter patterns scripts command = Ok (nodes, n, ids) ->
  patterns <> [] ->
  let g := buildGraphGraph isMatch patterns scripts command in
  node g k = Some t ->
  exists v, idLookup ids k = Some v /\ In (k, v) ids /\ In (nodeFor g ids (k, v)) nodes.
Proof.
  intros H Hp. cbv zeta. intros Hk.
  destruct (buildGraphFull_spec isMatch counter patterns scripts command nodes n ids H)
    as [order [_ [Hnd [Hmem [_ [Hids [[_ Hnodes]|[Hnil _]]]]]]]]; [|contradiction].
  assert (Hl : In k (labeledIn (buildGraphGraph isMatch patterns scripts command) order))
    by (apply (labeledIn_In _ _ _ t); [apply Hmem; exact (node_In _ _ _ Hk) | exact Hk]).
  destruct (idLookup_idsFrom counter _ k Hl) as [v Hv]. rewrite <- Hids in Hv.
  exists v. split; [exact Hv|]. split; [apply idLookup_In; exact Hv|].
  rewrite Hnodes. apply in_map. apply idLookup_In. exact Hv.
Qed.

(** Each node of a successful [buildGraph] with patterns is built for a
    labelled key, and distinct keys have distinct ids. *)
Lemma buildGraphFull_nodes (isMatch : string -> string -> bool) (counter : nat)
      (patterns : list string) (scripts : list Script) (command : option string)
      (nodes : list ExecutionNode) (n : nat) (ids : list (string * string)) :
  buildGraphFull isMatch counter patterns scripts command = Ok (nodes, n, ids) ->
  patterns <> [] ->
  let g := buildGraphGraph isMatch patterns scripts command in
  nodes = map (nodeFor g ids) ids /\
  (forall k v, In (k, v) ids -> exists t, node g k = Some t) /\
  (forall k1 k2 v, In (k1, v) ids -> In (k2, v) ids -> k1 = k2) /\
  (forall k v1 v2, In (k, v1) ids -> In (k, v2) ids -> v1 = v2) /\
  (forall k v, In (k, v) ids -> idLookup ids k = Some v).
Proof.
  intros H Hp. cbv zeta.
  destruct (buildGraphFull_spec isMatch counter patterns scripts command nodes n ids H)
    as [order [_ [Hnd [Hmem [_ [Hids [[_ Hnodes]|[Hnil _]]]]]]]]; [|contradiction].
  set (g := buildGraphGraph isMatch patterns scripts command) in *.
  assert (Hndl : NoDup (labeledIn g order)) by (apply NoDup_filter; exact Hnd).
  split; [exact Hnodes|]. split.
  { intros k v Hkv. rewrite Hids in Hkv. apply (in_map fst) in Hkv.
    rewrite map_fst_idsFrom in Hkv. apply labeledIn_node in Hkv. exact Hkv. }
  split; [intros k1 k2 v H1 H2; rewrite Hids in H1, H2; exact (idsFrom_same_id _ _ _ _ _ H1 H2)|].
  split; [intros k v1 v2 H1 H2; rewrite Hids in H1, H2; exact (idsFrom_same_key _ _ _ _ _ Hndl H1 H2)|].
  intros k v Hkv. destruct (idLookup ids k) as [v'|] eqn:E.
  - apply idLookup_In in E. rewrite Hids in E, Hkv. f_equal.
    exact (idsFrom_same_key _ _ _ _ _ Hndl E Hkv).
  - apply idLookup_None in E. exfalso. apply E. apply (in_map fst) in Hkv. exact Hkv.
Qed.

(** *** Discovery adds every edge of an entry it labels *)

Section DiscoveryEdges.
Variable isMatch : string -> string -> bool.
Variable sm : list (string * Script).

Lemma processScript_edges_mono (fuel : nat) (name : string) (g : Graph) (vis : list string)
      (e : string * string) :
  In e (g_edges g) -> In e (g_edges (fst (processScript isMatch sm fuel name (g, vis)))).
Proof.
  apply (processScript_pres isMatch sm (fun g => In e (g_edges g))).
  - intros g' k lab H _. rewrite edges_setNode. exact H.
  - intros g' u d H _. apply In_edges_setEdge. left. exact H.
Qed.

Lemma edgesDone_setEdge (pend : list string) (g : Graph) (u d : string) :
  edgesDone isMatch sm pend g -> edgesDone isMatch sm pend (setEdge g u d).
Proof.
  intros H x t Hx. rewrite node_setEdge in Hx. destruct (H x t Hx) as [He|Hp]; [|right; exact Hp].
  left. intros y Hy. apply In_edges_setEdge. left. apply He. exact Hy.
Qed.

Lemma processScript_edgesDone (fuel : nat) :
  forall name g vis pend, edgesDone isMatch sm pend g ->
  edgesDone isMatch sm pend (fst (processScript isMatch sm fuel name (g, vis))).
Proof.
  induction fuel as [|f IH]; intros name g vis pend Hg; [exact Hg|].
  cbn [processScript]. destruct (memb name vis); [exact Hg|].
  destruct (mapGet sm name) as [script|] eqn:Em; [|exact Hg].
  assert (Hset : forall lab, (forall d, ~ In d (depsOf isMatch sm name)) ->
            edgesDone isMatch sm pend (setNode g name lab)).
  { intros lab Hno u t Hu. rewrite node_setNode in Hu.
    destruct (String.eqb name u) eqn:E.
    - apply String.eqb_eq in E. subst u. left. intros d Hd. destruct (Hno d Hd).
    - destruct (Hg u t Hu) as [He|Hp]; [left; rewrite edges_setNode; exact He | right; exact Hp]. }
  destruct (isFrunkCommand (s_command script)) eqn:Ef;
    [destruct (parseFrunkCommand (s_command script)) as [fc|] eqn:Ep|].
  - assert (Hdeps : depsOf isMatch sm name = resolveDeps isMatch sm fc)
      by (unfold depsOf; rewrite Em, Ef, Ep; reflexivity).
    set (lab := mkTask (finalCommandOr fc) [] name).
    assert (H1 : edgesDone isMatch sm (name :: pend) (setNode g name lab)).
    { intros u t Hu. rewrite node_setNode in Hu.
      destruct (String.eqb name u) eqn:E.
      - apply String.eqb_eq in E. subst u. right. left. reflexivity.
      - destruct (Hg u t Hu) as [He|Hp]; [left; rewrite edges_setNode; exact He|].
        right. right. exact Hp. }
    assert (Hfold : forall ds g1 v1, edgesDone isMatch sm (name :: pend) g1 ->
              let r := fst (fold_left (fun (gv : Graph * list string) (dep : string) =>
                               let (g, v) := gv in
                               processScript isMatch sm f dep (setEdge g name dep, v))
                            ds (g1, v1)) in
              edgesDone isMatch sm (name :: pend) r /\ (forall d, In d ds -> In (name, d) (g_edges r)) /\
              (forall e, In e (g_edges g1) -> In e (g_edges r))).
    { induction ds as [|d ds IHds]; intros g1 v1 Hg1; cbv zeta.
      - split; [exact Hg1|]. split; [intros d []|intros e He; exact He].
      - cbn [fold_left].
        destruct (processScript isMatch sm f d (setEdge g1 name d, v1)) as [g2 v2] eqn:E2.
        assert (Hg2 : edgesDone isMatch sm (name :: pend) g2).
        { change g2 with (fst (g2, v2)). rewrite <- E2. apply IH. apply edgesDone_setEdge.
          exact Hg1. }
        assert (Hmono : forall e, In e (g_edges g1) -> In e (g_edges g2)).
        { intros e He. change g2 with (fst (g2, v2)). rewrite <- E2.
          apply processScript_edges_mono. apply In_edges_setEdge. left. exact He. }
        assert (Hd2 : In (name, d) (g_edges g2)).
        { change g2 with (fst (g2, v2)). rewrite <- E2.
          apply processScript_edges_mono. apply In_edges_setEdge. right. reflexivity. }
        destruct (IHds g2 v2 Hg2) as [Hr [Hall Hm]].
        split; [exact Hr|]. split.
        + intros x [<-|Hx]; [apply Hm; exact Hd2 | apply Hall; exact Hx].
        + intros e He. apply Hm, Hmono, He. }
    destruct (Hfold (resolveDeps isMatch sm fc) (setNode g name lab) (vis ++ [name]) H1)
      as [Hr [Hall _]].
    intros u t Hu. destruct (Hr u t Hu) as [He|[<-|Hp]]; [left; exact He| |right; exact Hp].
    left. rewrite Hdeps. exact Hall.
  - apply Hset. unfold depsOf. rewrite Em, Ef, Ep. intros d [].
  - apply Hset. unfold depsOf. rewrite Em, Ef. intros d [].
Qed.

Lemma discover_edgesDone (names : list string) : edgesDone isMatch sm [] (discover isMatch sm names).
Proof.
  unfold discover.
  assert (H : forall g, edgesDone isMatch sm [] g ->
            edgesDone isMatch sm [] (fold_left (fun g name =>
               fst (processScript isMatch sm (discoverFuel sm) name (g, []))) names g)).
  { induction names as [|nm names IH]; intros g Hg; [exact Hg|].
    cbn [fold_left]. apply IH. apply processScript_edgesDone. exact Hg. }
  apply H. intros u t Hu. discriminate.
Qed.

End DiscoveryEdges.

(** The labels and edges of discovery survive in the graph [buildGraph]
    checks, except the label the trailing command's node replaces. *)
Lemma buildGraphGraph_from_discover (isMatch : string -> string -> bool)
      (patterns : list string) (scripts : list Script) (command : option string) :
  let sm := scriptMapOf scripts in
  let gd := discover isMatch sm (map stripSeqMarker patterns) in
  let g := buildGraphGraph isMatch patterns scripts command in
  (forall e, In e (g_edges gd) -> In e (g_edges g)) /\
  (forall u t, node g u = Some t -> t_name t <> "command" -> node gd u = Some t).
Proof.
  cbv zeta. unfold buildGraphGraph at 1 2. cbv zeta.
  set (gd := discover isMatch (scriptMapOf scripts) (map stripSeqMarker patterns)).
  set (gs := addSequentialEdges (parseSequentialGroups patterns) gd).
  assert (Hs1 : forall e, In e (g_edges gd) -> In e (g_edges gs)).
  { intros e He. apply (addSequentialEdges_pres (fun g => In e (g_edges g))); [|exact He].
    intros g u d Hg _. apply In_edges_setEdge. left. exact Hg. }
  assert (Hs2 : forall u, node gs u = node gd u).
  { intros u. apply (addSequentialEdges_pres (fun g => node g u = node gd u)); [|reflexivity].
    intros g x d Hg _. rewrite node_setEdge. exact Hg. }
  destruct command as [c|]; [destruct (truthy c && negb (Nat.eqb (length (map stripSeqMarker patterns)) 0))|].
  - split.
    + intros e He. apply (addCommandNode_pres (fun g => In e (g_edges g))).
      * intros g Hg. rewrite edges_setNode. exact Hg.
      * intros g d Hg _. apply In_edges_setEdge. left. exact Hg.
      * apply Hs1. exact He.
    + intros u t Hu Hn. unfold addCommandNode in Hu. rewrite cmdEdges_node, node_setNode in Hu.
      destruct (String.eqb COMMAND_NODE_NAME u).
      * injection Hu as <-. exfalso. apply Hn. reflexivity.
      * rewrite <- Hs2. exact Hu.
  - split; [exact Hs1|]. intros u t Hu _. rewrite <- Hs2. exact Hu.
  - split; [exact Hs1|]. intros u t Hu _. rewrite <- Hs2. exact Hu.
Qed.

(** *** Counting the nodes of a dependency *)

Lemma length_filter_map {A B} (P : B -> bool) (f : A -> B) (l : list A) :
  length (filter P (map f l)) = length (filter (fun x => P (f x)) l).
Proof.
  induction l as [|x l IH]; [reflexivity|]. simpl. destruct (P (f x)); simpl; rewrite IH; reflexivity.
Qed.

Lemma filter_single {A} (P : A -> bool) (l : list A) (a : A) :
  NoDup l -> In a l -> (forall x, In x l -> P x = true <-> x = a) -> length (filter P l) = 1.
Proof.
  intros Hnd Ha HP.
  assert (Hin : In a (filter P l)) by (apply filter_In; split; [exact Ha | apply HP; auto]).
  assert (Hle : length (filter P l) <= length [a]).
  { apply NoDup_incl_length; [apply NoDup_filter; exact Hnd|].
    intros x Hx. apply filter_In in Hx as [Hx Hpx]. left. symmetry. apply HP; assumption. }
  destruct (filter P l) as [|y ys]; [destruct Hin|]. simpl in *. lia.
Qed.

Lemma NoDup_same_length {A} (l l' : list A) :
  NoDup l -> NoDup l' -> (forall x, In x l <-> In x l') -> length l = length l'.
Proof.
  intros H H' Hx. apply Nat.le_antisymm; apply NoDup_incl_length; try assumption;
    intros x; apply Hx.
Qed.

Lemma NoDup_flat_map_partial {A B} (f : A -> option B) (l : list A) :
  NoDup l -> (forall x y v, In x l -> In y l -> f x = Some v -> f y = Some v -> x = y) ->
  NoDup (flat_map (fun x => match f x with Some v => [v] | None => [] end) l).
Proof.
  induction l as [|x l IH]; intros Hnd Hinj; [constructor|].
  inversion Hnd as [|? ? Hx Hl]; subst. simpl.
  assert (IH' : NoDup (flat_map (fun x => match f x with Some v => [v] | None => [] end) l))
    by (apply IH; [exact Hl | intros a b v Ha Hb; apply Hinj; right; assumption]).
  destruct (f x) as [v|] eqn:Ef; [|exact IH'].
  simpl. constructor; [|exact IH'].
  intros Hv. apply in_flat_map in Hv as [y [Hy Hvy]].
  destruct (f y) as [w|] eqn:Ey; [|destruct Hvy].
  destruct Hvy as [Hwv|[]]. subst w. apply Hx.
  rewrite (Hinj x y v (or_introl eq_refl) (or_intror Hy) Ef Ey). exact Hy.
Qed.

Lemma NoDup_successors (g : Graph) (k : string) :
  NoDup (g_edges g) -> NoDup (successors g k).
Proof.
  unfold successors. generalize (g_edges g) as l.
  induction l as [|[a b] l IH]; intros Hnd; [constructor|].
  inversion Hnd as [|? ? Hx Hl]; subst. simpl.
  destruct (String.eqb a k) eqn:E; [|apply IH; exact Hl].
  apply String.eqb_eq in E. subst a. simpl. constructor; [|apply IH; exact Hl].
  intros Hb. apply in_map_iff in Hb as [[a' b'] [Hb' Hin]]. simpl in Hb'. subst b'.
  apply filter_In in Hin as [Hin Ha]. simpl in Ha. apply String.eqb_eq in Ha. subst. contradiction.
Qed.

Lemma NoDup_predecessors (g : Graph) (k : string) :
  NoDup (g_edges g) -> NoDup (predecessors g k).
Proof.
  unfold predecessors. generalize (g_edges g) as l.
  induction l as [|[a b] l IH]; intros Hnd; [constructor|].
  inversion Hnd as [|? ? Hx Hl]; subst. simpl.
  destruct (String.eqb b k) eqn:E; [|apply IH; exact Hl].
  apply String.eqb_eq in E. subst b. simpl. constructor; [|apply IH; exact Hl].
  intros Ha. apply in_map_iff in Ha as [[a' b'] [Ha' Hin]]. simpl in Ha'. subst a'.
  apply filter_In in Hin as [Hin Hb]. simpl in Hb. apply String.eqb_eq in Hb. subst. contradiction.
Qed.

(** The name of a label of the checked graph is its key, or ["command"]. *)
Lemma buildGraphGraph_label_name (isMatch : string -> string -> bool) (patterns : list string)
      (scripts : list Script) (command : option string) (k : string) (t : Task) :
  node (buildGraphGraph isMatch patterns scripts command) k = Some t ->
  t_name t = k \/ t_name t = "command".
Proof.
  intros Hk.
  destruct (proj1 (proj2 (buildGraphGraph_inv isMatch patterns scripts command)) k t Hk)
    as [Hl|[_ [c [_ ->]]]]; [left; exact (labelOf_name _ _ _ Hl) | right; reflexivity].
Qed.

(** An entry of the checked graph other than the trailing command has an
    edge to each name its invocation resolves to. *)
Lemma buildGraphGraph_dep_edge (isMatch : string -> string -> bool) (patterns : list string)
      (scripts : list Script) (command : option string) (u d : string) (t : Task) :
  let g := buildGraphGraph isMatch patterns scripts command in
  node g u = Some t -> t_name t <> "command" ->
  In d (depsOf isMatch (scriptMapOf scripts) u) -> In (u, d) (g_edges g).
Proof.
  cbv zeta. intros Hu Hn Hd.
  destruct (buildGraphGraph_from_discover isMatch patterns scripts command) as [Hed Hnode].
  apply Hed.
  destruct (discover_edgesDone isMatch (scriptMapOf scripts) (map stripSeqMarker patterns) u t
              (Hnode u t Hu Hn)) as [He|[]].
  apply He. exact Hd.
Qed.

(** *** Discovery labels every manifest name it reaches *)

Lemma length_filter_le {A} (p q : A -> bool) (l : list A) :
  (forall x, In x l -> p x = true -> q x = true) -> length (filter p l) <= length (filter q l).
Proof.
  induction l as [|x l IH]; intros H; [reflexivity|]. simpl.
  assert (IH' : length (filter p l) <= length (filter q l))
    by (apply IH; intros y Hy; apply H; right; exact Hy).
  destruct (p x) eqn:Ep.
  - rewrite (H x (or_introl eq_refl) Ep). simpl. lia.
  - destruct (q x); simpl; lia.
Qed.

Lemma length_filter_lt {A} (p q : A -> bool) (l : list A) (a : A) :
  (forall x, In x l -> p x = true -> q x = true) -> In a l -> p a = false -> q a = true ->
  length (filter p l) < length (filter q l).
Proof.
  induction l as [|x l IH]; intros H Ha Hpa Hqa; [destruct Ha|]. simpl.
  assert (Hle : length (filter p l) <= length (filter q l))
    by (apply length_filter_le; intros y Hy; apply H; right; exact Hy).
  destruct Ha as [->|Ha].
  - rewrite Hpa, Hqa. simpl. lia.
  - assert (IH' : length (filter p l) < length (filter q l))
      by (apply IH; [intros y Hy; apply H; right; exact Hy | exact Ha | exact Hpa | exact Hqa]).
    destruct (p x) eqn:Ep.
    + rewrite (H x (or_introl eq_refl) Ep). simpl. lia.
    + destruct (q x); simpl; lia.
Qed.

Lemma unvisited_mono (sm : list (string * Script)) (vis vis' : list string) :
  incl vis vis' -> unvisited sm vis' <= unvisited sm vis.
Proof.
  intros H. unfold unvisited. apply length_filter_le. intros x _ Hx.
  apply negb_true_iff in Hx. apply negb_true_iff. apply not_true_iff_false. intros Hin.
  apply memb_In in Hin. apply H in Hin. apply memb_In in Hin. congruence.
Qed.

Lemma mapGet_In (m : list (string * Script)) (k : string) (s : Script) :
  mapGet m k = Some s -> In k (map fst m).
Proof.
  induction m as [|[k' v] m IH]; simpl; [discriminate|].
  destruct (String.eqb k' k) eqn:E; intros H.
  - apply String.eqb_eq in E. left. exact E.
  - right. apply IH. exact H.
Qed.

Lemma unvisited_add (sm : list (string * Script)) (vis : list string) (name : string)
      (s : Script) :
  mapGet sm name = Some s -> memb name vis = false ->
  unvisited sm (vis ++ [name]) < unvisited sm vis.
Proof.
  intros Hs Hn. unfold unvisited. apply (length_filter_lt _ _ _ name).
  - intros x _ Hx. apply negb_true_iff in Hx. apply negb_true_iff. apply not_true_iff_false.
    intros Hin. apply memb_In in Hin. assert (Hin' : In x (vis ++ [name])) by (apply in_or_app; left; exact Hin).
    apply memb_In in Hin'. congruence.
  - exact (mapGet_In _ _ _ Hs).
  - apply negb_false_iff. apply memb_In. apply in_or_app. right. left. reflexivity.
  - rewrite Hn. reflexivity.
Qed.

Section Completeness.
Variable isMatch : string -> string -> bool.
Variable sm : list (string * Script).

Lemma processScript_labels (fuel : nat) (name : string) (g : Graph) (vis : list string)
      (u : string) :
  node g u <> None -> node (fst (processScript isMatch sm fuel name (g, vis))) u <> None.
Proof.
  apply (processScript_pres isMatch sm (fun g => node g u <> None)).
  - intros g' k lab H _. rewrite node_setNode. destruct (String.eqb k u); [discriminate|exact H].
  - intros g' x d H _. rewrite node_setEdge. exact H.
Qed.

(** [processScript] only grows [visited], and labels only keys it visits. *)
Lemma processScript_visited (fuel : nat) :
  forall name g vis, let r := processScript isMatch sm fuel name (g, vis) in
  incl vis (snd r) /\ (forall u, ~ In u (snd r) -> node (fst r) u = node g u).
Proof.
  induction fuel as [|f IH]; intros name g vis; cbv zeta.
  - split; [intros x Hx; exact Hx | reflexivity].
  - cbn [processScript]. destruct (memb name vis); [split; [intros x Hx; exact Hx|reflexivity]|].
    assert (Hv1 : incl vis (vis ++ [name])) by (intros x Hx; apply in_or_app; left; exact Hx).
    assert (Hn1 : In name (vis ++ [name])) by (apply in_or_app; right; left; reflexivity).
    assert (Hset : forall lab u, ~ In u (vis ++ [name]) -> node (setNode g name lab) u = node g u).
    { intros lab u Hu. rewrite node_setNode. destruct (String.eqb name u) eqn:E; [|reflexivity].
      apply String.eqb_eq in E. subst u. contradiction. }
    destruct (mapGet sm name) as [script|]; [|split; [exact Hv1 | reflexivity]].
    destruct (isFrunkCommand (s_command script));
      [destruct (parseFrunkCommand (s_command script)) as [fc|]|];
      [| split; [exact Hv1 | apply Hset] | split; [exact Hv1 | apply Hset]].
    set (g1 := setNode g name (mkTask (finalCommandOr fc) [] name)).
    assert (Hfold : forall ds g' v', incl (vis ++ [name]) v' ->
              (forall u, ~ In u v' -> node g' u = node g u) ->
              let r := fold_left (fun (gv : Graph * list string) (dep : string) =>
                               let (g, v) := gv in
                               processScript isMatch sm f dep (setEdge g name dep, v))
                            ds (g', v') in
              incl (vis ++ [name]) (snd r) /\ (forall u, ~ In u (snd r) -> node (fst r) u = node g u)).
    { induction ds as [|d ds IHds]; intros g' v' Hv' Hg'; cbv zeta; [split; assumption|].
      cbn [fold_left].
      destruct (IH d (setEdge g' name d) v') as [Hi Hl].
      destruct (processScript isMatch sm f d (setEdge g' name d, v')) as [g2 v2] eqn:E2.
      cbn [fst snd] in Hi, Hl. apply IHds.
      - intros x Hx. apply Hi, Hv', Hx.
      - intros u Hu. rewrite Hl by exact Hu. rewrite node_setEdge. apply Hg'.
        intros Hu'. apply Hu, Hi, Hu'. }
    destruct (Hfold (resolveDeps isMatch sm fc) g1 (vis ++ [name]) (incl_refl _)) as [Hi Hl].
    + intros u Hu. apply Hset. exact Hu.
    + split; [intros x Hx; apply Hi, Hv1, Hx | exact Hl].
Qed.

Lemma processScript_name (f : nat) (name : string) (g : Graph) (vis : list string) :
  In name (snd (processScript isMatch sm (S f) name (g, vis))).
Proof.
  destruct (processScript_visited (S f) name g vis) as [Hi _]. cbn [processScript] in *.
  destruct (memb name vis) eqn:Em; [apply memb_In; exact Em|].
  assert (Hn1 : In name (vis ++ [name])) by (apply in_or_app; right; left; reflexivity).
  destruct (mapGet sm name) as [script|]; [|exact Hn1].
  destruct (isFrunkCommand (s_command script));
    [destruct (parseFrunkCommand (s_command script)) as [fc|]|]; [|exact Hn1|exact Hn1].
  revert Hi. generalize (resolveDeps isMatch sm fc) as ds.
  set (g1 := setNode g name (mkTask (finalCommandOr fc) [] name)).
  assert (Hgen : forall ds g' v', In name v' -> In name (snd (fold_left
              (fun (gv : Graph * list string) (dep : string) =>
                 let (g, v) := gv in processScript isMatch sm f dep (setEdge g name dep, v))
              ds (g', v')))).
  { induction ds as [|d ds IHds]; intros g' v' Hv; [exact Hv|]. cbn [fold_left].
    destruct (processScript_visited f d (setEdge g' name d) v') as [Hi _].
    destruct (processScript isMatch sm f d (setEdge g' name d, v')) as [g2 v2].
    apply IHds. apply Hi. exact Hv. }
  intros ds _. apply Hgen. exact Hn1.
Qed.

Lemma processScript_travInv (fuel : nat) :
  forall name g vis pend, unvisited sm vis < fuel -> travInv isMatch sm g vis pend ->
  travInv isMatch sm (fst (processScript isMatch sm fuel name (g, vis)))
                     (snd (processScript isMatch sm fuel name (g, vis))) pend.
Proof.
  induction fuel as [|f IH]; intros name g vis pend Hf Hinv; [lia|].
  pose proof (processScript_visited (S f) name g vis) as Hvis. cbv zeta in Hvis.
  cbn [processScript] in *. destruct (memb name vis) eqn:Em; [exact Hinv|].
  destruct Hinv as [H1 [H2 H3]].
  assert (Hv1 : incl vis (vis ++ [name])) by (intros x Hx; apply in_or_app; left; exact Hx).
  assert (Hn1 : forall u, In u (vis ++ [name]) -> u = name \/ In u vis).
  { intros u Hu. apply in_app_or in Hu as [Hu|[<-|[]]]; [right; exact Hu | left; reflexivity]. }
  assert (Hnn : ~ In name vis) by (intros Hin; apply memb_In in Hin; congruence).
  destruct (mapGet sm name) as [script|] eqn:Es.
  2:{ split; [|split].
      - intros u d Hu Hnu. apply H1; [exact Hu|]. intros Hin. apply Hnu, Hv1, Hin.
      - intros u Hu Hm. destruct (Hn1 u Hu) as [->|Hu']; [|exact (H2 u Hu' Hm)].
        unfold mapHas in Hm. rewrite Es in Hm. discriminate.
      - intros u d Hu Hp Hd. destruct (Hn1 u Hu) as [->|Hu']; [|apply Hv1; exact (H3 u d Hu' Hp Hd)].
        unfold depsOf in Hd. rewrite Es in Hd. destruct Hd. }
  assert (Hlt : unvisited sm (vis ++ [name]) < unvisited sm vis)
    by exact (unvisited_add sm vis name script Es Em).
  assert (Hset : forall lab, (forall d, ~ In d (depsOf isMatch sm name)) ->
            travInv isMatch sm (setNode g name lab) (vis ++ [name]) pend).
  { intros lab Hno. split; [|split].
    - intros u d Hu Hnu Hd Hm. rewrite node_setNode in Hu |- *.
      destruct (String.eqb name u) eqn:E.
      + apply String.eqb_eq in E. subst u. exfalso. apply Hnu. apply in_or_app. right. left. reflexivity.
      + destruct (String.eqb name d); [discriminate|].
        apply (H1 u d Hu); [intros Hin; apply Hnu, Hv1, Hin | exact Hd | exact Hm].
    - intros u Hu Hm. rewrite node_setNode. destruct (String.eqb name u) eqn:E; [discriminate|].
      destruct (Hn1 u Hu) as [->|Hu']; [rewrite String.eqb_refl in E; discriminate|].
      exact (H2 u Hu' Hm).
    - intros u d Hu Hp Hd. destruct (Hn1 u Hu) as [->|Hu']; [destruct (Hno d Hd)|].
      apply Hv1. exact (H3 u d Hu' Hp Hd). }
  destruct (isFrunkCommand (s_command script)) eqn:Ef;
    [destruct (parseFrunkCommand (s_command script)) as [fc|] eqn:Ep|].
  2:{ apply Hset. unfold depsOf. rewrite Es, Ef, Ep. intros d []. }
  2:{ apply Hset. unfold depsOf. rewrite Es, Ef. intros d []. }
  assert (Hdeps : depsOf isMatch sm name = resolveDeps isMatch sm fc)
    by (unfold depsOf; rewrite Es, Ef, Ep; reflexivity).
  set (g1 := setNode g name (mkTask (finalCommandOr fc) [] name)).
  assert (Hg1 : travInv isMatch sm g1 (vis ++ [name]) (name :: pend)).
  { split; [|split].
    - intros u d Hu Hnu Hd Hm. unfold g1 in *. rewrite node_setNode in Hu |- *.
      destruct (String.eqb name u) eqn:E.
      + apply String.eqb_eq in E. subst u. exfalso. apply Hnu. apply in_or_app. right. left. reflexivity.
      + destruct (String.eqb name d); [discriminate|].
        apply (H1 u d Hu); [intros Hin; apply Hnu, Hv1, Hin | exact Hd | exact Hm].
    - intros u Hu Hm. unfold g1. rewrite node_setNode. destruct (String.eqb name u) eqn:E; [discriminate|].
      destruct (Hn1 u Hu) as [->|Hu']; [rewrite String.eqb_refl in E; discriminate|].
      exact (H2 u Hu' Hm).
    - intros u d Hu Hp Hd. destruct (Hn1 u Hu) as [->|Hu']; [destruct Hp; left; reflexivity|].
      apply Hv1. apply (H3 u d Hu'); [intros Hin; apply Hp; right; exact Hin | exact Hd]. }
  assert (Hfold : forall ds g' v', incl (vis ++ [name]) v' ->
            travInv isMatch sm g' v' (name :: pend) ->
            let r := fold_left (fun (gv : Graph * list string) (dep : string) =>
                             let (g, v) := gv in
                             processScript isMatch sm f dep (setEdge g name dep, v))
                          ds (g', v') in
            travInv isMatch sm (fst r) (snd r) (name :: pend) /\ incl v' (snd r) /\
            (forall d, In d ds -> In d (snd r))).
  { induction ds as [|d ds IHds]; intros g' v' Hv' Hinv'; cbv zeta.
    - split; [exact Hinv'|]. split; [intros x Hx; exact Hx | intros d []].
    - cbn [fold_left].
      assert (Hsub : unvisited sm v' < f).
      { pose proof (unvisited_mono sm _ _ Hv'). lia. }
      assert (Hinv2 : travInv isMatch sm (setEdge g' name d) v' (name :: pend)).
      { destruct Hinv' as [J1 [J2 J3]]. split; [|split].
        - intros u x Hu. rewrite !node_setEdge in *. exact (J1 u x Hu).
        - intros u Hu Hm. rewrite node_setEdge. exact (J2 u Hu Hm).
        - exact J3. }
      pose proof (IH d (setEdge g' name d) v' (name :: pend) Hsub Hinv2) as Hr.
      destruct (processScript_visited f d (setEdge g' name d) v') as [Hi _].
      assert (Hd : In d (snd (processScript isMatch sm f d (setEdge g' name d, v')))).
      { destruct f as [|f']; [lia|]. apply processScript_name. }
      destruct (processScript isMatch sm f d (setEdge g' name d, v')) as [g2 v2].
      cbn [fst snd] in Hr, Hi, Hd.
      destruct (IHds g2 v2 (fun x Hx => Hi x (Hv' x Hx)) Hr) as [Hr' [Hi' Hall]].
      split; [exact Hr'|]. split; [intros x Hx; apply Hi', Hi, Hx|].
      intros x [<-|Hx]; [apply Hi', Hd | apply Hall, Hx]. }
  destruct (Hfold (resolveDeps isMatch sm fc) g1 (vis ++ [name]) (incl_refl _) Hg1)
    as [[J1 [J2 J3]] [_ Hall]].
  split; [exact J1|]. split; [exact J2|].
  intros u d Hu Hp Hd. destruct (String.eqb u name) eqn:E.
  - apply String.eqb_eq in E. subst u. rewrite Hdeps in Hd. apply Hall. exact Hd.
  - apply (J3 u d Hu); [|exact Hd]. intros [Heq|Hin]; [subst u; rewrite String.eqb_refl in E; discriminate | contradiction].
Qed.

(** Discovery labels every requested manifest name and, with it, every
    manifest name a labelled entry resolves to. *)
Lemma discover_complete (names : list string) :
  let g := discover isMatch sm names in
  (forall u d, node g u <> None -> In d (depsOf isMatch sm u) -> mapHas sm d = true ->
     node g d <> None) /\
  (forall u, In u names -> mapHas sm u = true -> node g u <> None).
Proof.
  cbv zeta. unfold discover.
  assert (Hgen : forall g, (forall u d, node g u <> None -> In d (depsOf isMatch sm u) ->
                    mapHas sm d = true -> node g d <> None) ->
     let r := fold_left (fun g name => fst (processScript isMatch sm (discoverFuel sm) name (g, [])))
                names g in
     (forall u d, node r u <> None -> In d (depsOf isMatch sm u) -> mapHas sm d = true ->
        node r d <> None) /\
     (forall u, In u names -> mapHas sm u = true -> node r u <> None) /\
     (forall u, node g u <> None -> node r u <> None)).
  { induction names as [|nm names IHn]; intros g Hg; cbv zeta.
    - split; [exact Hg|]. split; [intros u []|intros u Hu; exact Hu].
    - cbn [fold_left].
      assert (Hf : unvisited sm [] < discoverFuel sm).
      { unfold unvisited, discoverFuel. pose proof (filter_length_le (fun k => negb (memb k [])) (map fst sm)).
        rewrite length_map in H. lia. }
      assert (H0 : travInv isMatch sm g [] []).
      { split; [|split]; [intros u d Hu _; exact (Hg u d Hu) | intros u [] | intros u d []]. }
      pose proof (processScript_travInv (discoverFuel sm) nm g [] [] Hf H0) as [J1 [J2 J3]].
      pose proof (processScript_name (S (length sm)) nm g []) as Hnm.
      fold (discoverFuel sm) in Hnm.
      set (g' := fst (processScript isMatch sm (discoverFuel sm) nm (g, []))) in *.
      set (v' := snd (processScript isMatch sm (discoverFuel sm) nm (g, []))) in *.
      assert (Hg' : forall u d, node g' u <> None -> In d (depsOf isMatch sm u) ->
                      mapHas sm d = true -> node g' d <> None).
      { intros u d Hu Hd Hm. destruct (in_dec string_dec u v') as [Hin|Hnin].
        - apply J2; [|exact Hm]. apply (J3 u d Hin); [intros []|exact Hd].
        - exact (J1 u d Hu Hnin Hd Hm). }
      destruct (IHn g' Hg') as [K1 [K2 K3]].
      split; [exact K1|]. split.
      + intros u [<-|Hu] Hm; [apply K3, J2; [exact Hnm | exact Hm] | exact (K2 u Hu Hm)].
      + intros u Hu. apply K3. exact (processScript_labels _ _ _ _ _ Hu). }
  destruct (Hgen emptyGraph) as [K1 [K2 _]]; [|split; assumption].
  intros u d Hu. exfalso. apply Hu. reflexivity.
Qed.

End Completeness.

(** *** Reachability and the components of [findCycles] *)

Lemma In_dedupAux (seen l : list string) (x : string) :
  In x (dedupAux seen l) <-> In x l /\ ~ In x seen.
Proof.
  revert seen. induction l as [|y l IH]; intros seen; simpl; [tauto|].
  destruct (existsb (String.eqb y) seen) eqn:E.
  - rewrite IH. split; [intros [H1 H2]; split; [right; exact H1 | exact H2]|].
    intros [[->|H1] H2]; [|split; assumption].
    exfalso. apply H2. apply existsb_exists in E as [z [Hz Hyz]].
    apply String.eqb_eq in Hyz. subst z. exact Hz.
  - simpl. rewrite IH. split.
    + intros [->|[H1 H2]].
      * split; [left; reflexivity|]. intros Hin. apply not_true_iff_false in E. apply E.
        apply existsb_exists. exists x. split; [exact Hin | apply String.eqb_refl].
      * split; [right; exact H1|]. intros Hin. apply H2. right. exact Hin.
    + intros [[->|H1] H2]; [left; reflexivity|].
      destruct (String.eqb y x) eqn:Eyx; [left; apply String.eqb_eq; exact Eyx|].
      right. split; [exact H1|]. intros [Hyx|Hin]; [subst; rewrite String.eqb_refl in Eyx; discriminate|].
      contradiction.
Qed.

Lemma NoDup_dedupAux (seen l : list string) : NoDup (dedupAux seen l).
Proof.
  revert seen. induction l as [|y l IH]; intros seen; simpl; [constructor|].
  destruct (existsb (String.eqb y) seen); [apply IH|].
  constructor; [|apply IH]. rewrite In_dedupAux. intros [_ H]. apply H. left. reflexivity.
Qed.

Section Reach.
Variable g : Graph.
Hypothesis Hwf : wfGraph g.

Lemma stepReach_succ (s : list string) (u w : string) :
  In u s -> In (u, w) (g_edges g) -> In w (stepReach g s).
Proof.
  intros Hu Hw. unfold stepReach. apply in_or_app.
  destruct (memb w s) eqn:E; [left; apply memb_In; exact E|].
  right. apply filter_In. split; [|rewrite E; reflexivity].
  unfold dedup. apply In_dedupAux. split; [|intros []].
  apply in_flat_map. exists u. split; [exact Hu | apply successors_In; exact Hw].
Qed.

Lemma iterReach_incl (n : nat) (s : list string) : incl s (iterReach g n s).
Proof.
  revert s. induction n as [|n IH]; intros s x Hx; [exact Hx|].
  simpl. apply IH. unfold stepReach. apply in_or_app. left. exact Hx.
Qed.

Lemma iterReach_closed (n : nat) :
  forall s, NoDup s -> incl s (nodes g) -> length (nodes g) < n + length s ->
  forall u w, In u (iterReach g n s) -> In (u, w) (g_edges g) -> In w (iterReach g n s).
Proof.
  destruct Hwf as [HndN [_ Hend]].
  induction n as [|n IH]; intros s Hnd Hsub Hlen.
  - exfalso. pose proof (NoDup_incl_length Hnd Hsub). simpl in Hlen. lia.
  - simpl. set (ext := filter (fun w => negb (memb w s)) (dedup (flat_map (successors g) s))).
    destruct ext as [|e ext'] eqn:Eext.
    + assert (Hfix : stepReach g s = s) by (unfold stepReach; fold ext; rewrite Eext; apply app_nil_r).
      assert (Hiter : forall m, iterReach g m s = s).
      { induction m as [|m IHm]; [reflexivity|]. simpl. rewrite Hfix. exact IHm. }
      rewrite Hfix, Hiter. intros u w Hu Hw. rewrite <- Hfix. exact (stepReach_succ s u w Hu Hw).
    + apply IH.
      * unfold stepReach. fold ext. apply NoDup_app; [exact Hnd| |].
        { apply NoDup_filter. apply NoDup_dedupAux. }
        { intros x Hx Hx'. unfold ext in Hx'. apply filter_In in Hx' as [_ Hn].
          apply negb_true_iff in Hn. apply not_true_iff_false in Hn. apply Hn, memb_In, Hx. }
      * intros x Hx. unfold stepReach in Hx. apply in_app_or in Hx as [Hx|Hx]; [apply Hsub, Hx|].
        apply filter_In in Hx as [Hx _]. unfold dedup in Hx. apply In_dedupAux in Hx as [Hx _].
        apply in_flat_map in Hx as [y [_ Hy]]. apply successors_In in Hy.
        exact (proj2 (Hend _ _ Hy)).
      * unfold stepReach. fold ext. rewrite length_app, Eext. simpl. lia.
Qed.

(** [reachFrom g v] holds every node reachable from [v]. *)
Lemma reachFrom_complete (v w : string) :
  In v (nodes g) -> greach g v w -> In w (reachFrom g v).
Proof.
  intros Hv Hr. unfold reachFrom.
  assert (H1 : NoDup [v]) by (constructor; [intros []|constructor]).
  assert (H2 : incl [v] (nodes g)) by (intros x [<-|[]]; exact Hv).
  assert (Hcl := iterReach_closed (length (nodes g)) [v] H1 H2 ltac:(simpl; lia)).
  assert (Hgen : forall a b, greach g a b -> In a (iterReach g (length (nodes g)) [v]) ->
                   In b (iterReach g (length (nodes g)) [v])).
  { induction 1 as [a b Hab|a b c Hab Hbc IHr]; intros Ha.
    - exact (Hcl a b Ha Hab).
    - apply IHr. exact (Hcl a b Ha Hab). }
  apply (Hgen v w Hr). apply iterReach_incl. left. reflexivity.
Qed.

End Reach.

Lemma dedupLists_In (seen l : list (list string)) (x : list string) :
  In x l -> In x (dedupLists seen l) \/ In x seen.
Proof.
  revert seen. induction l as [|c l IH]; intros seen Hx; [destruct Hx|]. simpl.
  destruct (existsb (fun d => if list_eq_dec string_dec c d then true else false) seen) eqn:E.
  - destruct Hx as [<-|Hx]; [|apply IH; exact Hx].
    right. apply existsb_exists in E as [d [Hd Hcd]].
    destruct (list_eq_dec string_dec c d) as [->|]; [exact Hd | discriminate].
  - destruct Hx as [<-|Hx]; [left; left; reflexivity|].
    destruct (IH (c :: seen) Hx) as [H|[<-|H]]; [left; right; exact H | left; left; reflexivity | right; exact H].
Qed.

Lemma greach_nodes (g : Graph) (u w : string) :
  wfGraph g -> greach g u w -> In u (nodes g) /\ In w (nodes g).
Proof.
  intros [_ [_ Hend]]. induction 1 as [a b Hab|a b c Hab _ IH].
  - exact (Hend _ _ Hab).
  - split; [exact (proj1 (Hend _ _ Hab)) | exact (proj2 IH)].
Qed.

Lemma component_In (g : Graph) (c w : string) :
  wfGraph g -> In c (nodes g) -> In w (nodes g) -> (c = w \/ greach g c w) ->
  (c = w \/ greach g w c) -> In w (component g c).
Proof.
  intros Hwf Hc Hw Hcw Hwc. unfold component. apply filter_In. split; [exact Hw|].
  apply andb_true_intro. split; apply memb_In.
  - destruct Hcw as [<-|Hcw]; [apply iterReach_incl; left; reflexivity|].
    apply reachFrom_complete; assumption.
  - destruct Hwc as [->|Hwc]; [apply iterReach_incl; left; reflexivity|].
    apply reachFrom_complete; assumption.
Qed.

(** A node on a cycle has its component among [findCycles], and the
    component holds every node on a cycle through it. *)
Lemma findCycles_member (g : Graph) (c : string) :
  wfGraph g -> greach g c c ->
  In (component g c) (findCycles g) /\
  forall w, greach g c w -> greach g w c -> In w (component g c).
Proof.
  intros Hwf Hcc.
  assert (Hc : In c (nodes g)) by exact (proj1 (greach_nodes g c c Hwf Hcc)).
  assert (Hmem : forall w, greach g c w -> greach g w c -> In w (component g c)).
  { intros w Hcw Hwc. apply component_In; [exact Hwf | exact Hc | exact (proj2 (greach_nodes g c w Hwf Hcw)) | right; exact Hcw | right; exact Hwc]. }
  split; [|exact Hmem].
  unfold findCycles. apply filter_In. split.
  - destruct (dedupLists_In [] (map (component g) (nodes g)) (component g c)) as [H|[]];
      [apply in_map; exact Hc | exact H].
  - assert (Hcin : In c (component g c))
      by (apply component_In; [exact Hwf | exact Hc | exact Hc | left; reflexivity | left; reflexivity]).
    destruct (component g c) as [|x [|y l]] eqn:Ecomp; [destruct Hcin| |reflexivity].
    destruct Hcin as [<-|[]]. apply hasEdge_In.
    inversion Hcc as [a b Hab|a v b Hcv Hvc]; subst; [exact Hab|].
    assert (Hv : In v [x]) by (apply Hmem; [apply greach_one; exact Hcv | exact Hvc]).
    destruct Hv as [<-|[]]. exact Hcv.
Qed.

Lemma depsOf_mapHas (isMatch : string -> string -> bool) (sm : list (string * Script))
      (u x : string) :
  In x (depsOf isMatch sm u) -> mapHas sm u = true.
Proof. unfold depsOf, mapHas. destruct (mapGet sm u); [reflexivity | intros []]. Qed.

(** Along the dependencies of an entry discovery labelled, the graph of
    discovery has the same paths. *)
Lemma discover_greach (isMatch : string -> string -> bool) (sm : list (string * Script))
      (names : list string) (u w : string) :
  let gd := discover isMatch sm names in
  node gd u <> None -> dplus isMatch sm u w -> greach gd u w.
Proof.
  cbv zeta. intros Hu Hp. revert Hu.
  destruct (discover_complete isMatch sm names) as [Hcl _].
  pose proof (discover_edgesDone isMatch sm names) as Hed.
  assert (Hedge : forall a b, node (discover isMatch sm names) a <> None ->
            In b (depsOf isMatch sm a) -> In (a, b) (g_edges (discover isMatch sm names))).
  { intros a b Ha Hb. destruct (node (discover isMatch sm names) a) as [t|] eqn:Et;
      [|exfalso; apply Ha; reflexivity].
    destruct (Hed a t Et) as [He|[]]. apply He. exact Hb. }
  induction Hp as [a b Hab|a b c Hab Hbc IH]; intros Ha.
  - apply greach_one. apply Hedge; assumption.
  - apply (greach_step _ a b c); [apply Hedge; assumption|]. apply IH.
    apply (Hcl a b Ha Hab). inversion Hbc as [? ? Hx|? x ? Hx _]; exact (depsOf_mapHas _ _ _ _ Hx).
Qed.

Lemma discover_dstar (isMatch : string -> string -> bool) (sm : list (string * Script))
      (names : list string) (u w x : string) :
  let gd := discover isMatch sm names in
  node gd u <> None -> dstar isMatch sm u w -> In x (depsOf isMatch sm w) -> node gd w <> None.
Proof.
  cbv zeta. intros Hu Hs Hx. revert Hu.
  destruct (discover_complete isMatch sm names) as [Hcl _].
  induction Hs as [a|a b c Hab Hbc IH]; intros Ha; [exact Ha|].
  apply IH; [exact Hx|]. apply (Hcl a b Ha Hab).
  inversion Hbc as [|? y ? Hy _]; subst; [exact (depsOf_mapHas _ _ _ _ Hx)|].
  exact (depsOf_mapHas _ _ _ _ Hy).
Qed.

(** The checked graph keeps the labelled keys and the edges of discovery. *)
Lemma buildGraphGraph_labels (isMatch : string -> string -> bool) (patterns : list string)
      (scripts : list Script) (command : option string) (u : string) :
  node (discover isMatch (scriptMapOf scripts) (map stripSeqMarker patterns)) u <> None ->
  node (buildGraphGraph isMatch patterns scripts command) u <> None.
Proof.
  unfold buildGraphGraph. cbv zeta.
  set (gd := discover isMatch (scriptMapOf scripts) (map stripSeqMarker patterns)).
  set (gs := addSequentialEdges (parseSequentialGroups patterns) gd).
  assert (Hs2 : node gs u = node gd u).
  { apply (addSequentialEdges_pres (fun g => node g u = node gd u)); [|reflexivity].
    intros g x d Hg _. rewrite node_setEdge. exact Hg. }
  intros Hu.
  destruct command as [c|]; [destruct (truthy c && negb (Nat.eqb (length (map stripSeqMarker patterns)) 0))|];
    try (rewrite Hs2; exact Hu).
  unfold addCommandNode. rewrite cmdEdges_node, node_setNode.
  destruct (String.eqb COMMAND_NODE_NAME u); [discriminate | rewrite Hs2; exact Hu].
Qed.

Lemma greach_mono (g g' : Graph) (u w : string) :
  (forall e, In e (g_edges g) -> In e (g_edges g')) -> greach g u w -> greach g' u w.
Proof.
  intros Hsub. induction 1 as [a b Hab|a b c Hab _ IH].
  - apply greach_one. apply Hsub. exact Hab.
  - apply (greach_step _ a b c); [apply Hsub; exact Hab | exact IH].
Qed.

Lemma dplus_first (isMatch : string -> string -> bool) (sm : list (string * Script)) (u w : string) :
  dplus isMatch sm u w -> exists x, In x (depsOf isMatch sm u).
Proof. intros H. destruct H as [a b Hab|a b c Hab _]; exists b; exact Hab. Qed.

Lemma dplus_dstar (isMatch : string -> string -> bool) (sm : list (string * Script)) (u w : string) :
  dplus isMatch sm u w -> dstar isMatch sm u w.
Proof.
  induction 1 as [a b Hab|a b c Hab _ IH].
  - apply (dstar_step _ _ a b b Hab). apply dstar_refl.
  - exact (dstar_step _ _ a b c Hab IH).
Qed.

Lemma dstar_mapHas (isMatch : string -> string -> bool) (sm : list (string * Script))
      (u w x : string) :
  dstar isMatch sm u w -> In x (depsOf isMatch sm w) -> mapHas sm u = true.
Proof.
  intros H Hx. destruct H as [a|a b c Hab _]; [exact (depsOf_mapHas _ _ _ _ Hx)|].
  exact (depsOf_mapHas _ _ _ _ Hab).
Qed.

(** *** The script map *)

Lemma mapSet_spec (m : list (string * Script)) (k : string) (v : Script) :
  s_name v = k -> (forall kv, In kv m -> s_name (snd kv) = fst kv) ->
  (forall kv, In kv (mapSet m k v) -> s_name (snd kv) = fst kv) /\
  (forall x, In x (map fst (mapSet m k v)) <-> x = k \/ In x (map fst m)).
Proof.
  intros Hv Hm. unfold mapSet.
  destruct (existsb (fun kv => String.eqb (fst kv) k) m) eqn:E.
  - split.
    + intros kv Hkv. apply in_map_iff in Hkv as [kv' [<- Hin]].
      destruct (String.eqb (fst kv') k); [exact Hv | exact (Hm kv' Hin)].
    + intros x.
      assert (Hf : map fst (map (fun kv => if String.eqb (fst kv) k then (k, v) else kv) m)
                   = map fst m).
      { rewrite map_map. apply map_ext. intros kv.
        destruct (String.eqb (fst kv) k) eqn:Ek; [|reflexivity].
        apply String.eqb_eq in Ek. exact (eq_sym Ek). }
      assert (Hk : In k (map fst m)).
      { apply existsb_exists in E as [kv' [Hin Hk]]. apply String.eqb_eq in Hk.
        rewrite <- Hk. apply in_map. exact Hin. }
      rewrite Hf. split; [intros Hx; right; exact Hx | intros [->|Hx]; assumption].
  - split.
    + intros kv Hkv. apply in_app_or in Hkv as [Hkv|[<-|[]]]; [exact (Hm kv Hkv) | exact Hv].
    + intros x. rewrite map_app. simpl. rewrite in_app_iff. simpl.
      split; [intros [H|[H|[]]]; [right; exact H | left; exact (eq_sym H)]|].
      intros [H|H]; [right; left; exact (eq_sym H) | left; exact H].
Qed.

Lemma scriptMapOf_spec (scripts : list Script) :
  (forall kv, In kv (scriptMapOf scripts) -> s_name (snd kv) = fst kv) /\
  (forall x, In x (map fst (scriptMapOf scripts)) <-> In x (map s_name scripts)).
Proof.
  unfold scriptMapOf.
  assert (H : forall m, (forall kv, In kv m -> s_name (snd kv) = fst kv) ->
            (forall kv, In kv (fold_left (fun m s => mapSet m (s_name s) s) scripts m) ->
               s_name (snd kv) = fst kv) /\
            (forall x, In x (map fst (fold_left (fun m s => mapSet m (s_name s) s) scripts m)) <->
               In x (map fst m) \/ In x (map s_name scripts))).
  { induction scripts as [|s scripts IH]; intros m Hm; simpl.
    - split; [exact Hm | intros x; tauto].
    - destruct (mapSet_spec m (s_name s) s eq_refl Hm) as [H1 H2].
      destruct (IH _ H1) as [J1 J2]. split; [exact J1|].
      intros x. rewrite J2, H2. split.
      + intros [[->|Hx]|Hx]; [right; left; reflexivity | left; exact Hx | right; right; exact Hx].
      + intros [Hx|[<-|Hx]]; [left; right; exact Hx | left; left; reflexivity | right; exact Hx]. }
  destruct (H [] (fun kv Hkv => match Hkv with end)) as [J1 J2].
  split; [exact J1|]. intros x. rewrite J2. simpl. tauto.
Qed.

Lemma scriptMapOf_names (scripts : list Script) (x : string) :
  In x (map s_name (map snd (scriptMapOf scripts))) <-> In x (map s_name scripts).
Proof.
  destruct (scriptMapOf_spec scripts) as [H1 H2]. rewrite <- H2, map_map.
  rewrite (map_ext_in (fun kv => s_name (snd kv)) fst); [reflexivity|].
  intros kv Hkv. exact (H1 kv Hkv).
Qed.

Lemma scriptMapOf_get_None (scripts : list Script) (p : string) :
  ~ In p (map s_name scripts) -> mapGet (scriptMapOf scripts) p = None.
Proof.
  intros Hp. destruct (mapGet (scriptMapOf scripts) p) as [s|] eqn:E; [|reflexivity].
  exfalso. apply Hp. apply (proj2 (scriptMapOf_spec scripts)). exact (mapGet_In _ _ _ E).
Qed.

Lemma filter_nil_same {A} (f : A -> bool) (l l' : list A) :
  (forall x, In x l <-> In x l') -> filter f l = [] -> filter f l' = [].
Proof.
  intros Hx H. destruct (filter f l') as [|y ys] eqn:E; [reflexivity|].
  assert (Hy : In y (filter f l')) by (rewrite E; left; reflexivity).
  apply filter_In in Hy as [Hy Hf]. apply Hx in Hy.
  assert (Hy' : In y (filter f l)) by (apply filter_In; split; assumption).
  rewrite H in Hy'. destruct Hy'.
Qed.

(** A dependency list with an unknown literal name resolves, through the
    fallback, to its literal entries that are manifest names. *)
Lemma resolveDeps_unknown (isMatch : string -> string -> bool) (scripts : list Script)
      (fc : FrunkCmd) (p : string) :
  In p (fc_dependencies fc) -> literalName p = true -> isGlobPattern p = false -> p <> "" ->
  ~ In p (map s_name scripts) -> filter (isMatch p) (map s_name scripts) = [] ->
  resolveDeps isMatch (scriptMapOf scripts) fc
  = filter (mapHas (scriptMapOf scripts)) (fc_dependencies fc).
Proof.
  intros Hin Hlit Hglob Hne Hname Hmm. unfold resolveDeps.
  destruct (resolvePatterns_step_error isMatch (fc_dependencies fc)
              (map snd (scriptMapOf scripts)) p Hin Hlit Hglob Hne) as [e He].
  - rewrite scriptMapOf_names. exact Hname.
  - apply (filter_nil_same _ (map s_name scripts)); [|exact Hmm].
    intros x. rewrite scriptMapOf_names. reflexivity.
  - rewrite He. reflexivity.
Qed.

(** [buildGraph] throws only on a cyclic graph. *)
Lemma buildGraph_error (isMatch : string -> string -> bool) (counter : nat)
      (patterns : list string) (scripts : list Script) (command : option string)
      (e : BuildError) :
  let g := buildGraphGraph isMatch patterns scripts command in
  buildGraph isMatch counter patterns scripts command = Error e ->
  isAcyclic g = false /\ e = CircularDependency (findCycles g).
Proof.
  cbv zeta. unfold buildGraph, buildGraphFull. cbv zeta.
  destruct (isAcyclic (buildGraphGraph isMatch patterns scripts command)) eqn:Hac.
  - unfold isAcyclic in Hac. simpl.
    destruct (topsort (buildGraphGraph isMatch patterns scripts command)); [|discriminate].
    destruct patterns; [destruct command as [c|]; [destruct (truthy c)|]|];
      [|destruct (acc_nodes _)|destruct (acc_nodes _)|]; discriminate.
  - simpl. intros H. injection H as <-. split; reflexivity.
Qed.

(** *** Sequential groups *)

Lemma seqIndexCapture_tag (i : ascii) (name : string) :
  isDigit i = true -> String.eqb name "" = false -> forallb isDot (chars name) = true ->
  seqIndexCapture ("SEQ" ++ String i (":" ++ name)) = Some (String i "", name).
Proof.
  intros Hi Hne Hdot. unfold seqIndexCapture, chars in *.
  destruct name as [|ch name']; [discriminate|].
  cbn [append list_ascii_of_string spanDigits].
  rewrite (eq_refl : isDigit ":"%char = false), Hi. cbn [list_ascii_of_string] in Hdot. cbv iota beta.
  rewrite Hdot. unfold of_chars.
  rewrite <- (string_of_list_ascii_of_string (String ch name')). reflexivity.
Qed.

Lemma stripSeqMarker_tag (i : ascii) (name : string) :
  isDigit i = true -> stripSeqMarker ("SEQ" ++ String i (":" ++ name)) = name.
Proof.
  intros Hi. unfold stripSeqMarker, chars.
  cbn [append list_ascii_of_string spanDigits].
  rewrite (eq_refl : isDigit ":"%char = false), Hi. cbv iota beta.
  unfold of_chars. apply string_of_list_ascii_of_string.
Qed.

Lemma addGroupEdges_node (prev cur : list string) (g : Graph) (x : string) :
  node (addGroupEdges prev cur g) x = node g x.
Proof.
  apply (addGroupEdges_pres (fun g' => node g' x = node g x)); [|reflexivity].
  intros g' u d H _ _. rewrite node_setEdge. exact H.
Qed.

Lemma addGroupEdges_mono (prev cur : list string) (g : Graph) (e : string * string) :
  In e (g_edges g) -> In e (g_edges (addGroupEdges prev cur g)).
Proof.
  apply (addGroupEdges_pres (fun g' => In e (g_edges g'))).
  intros g' u d H _ _. apply In_edges_setEdge. left. exact H.
Qed.

Lemma hasNode_label (g : Graph) (x : string) : node g x <> None -> hasNode g x = true.
Proof.
  intros H. apply hasNode_In. destruct (node g x) as [t|] eqn:E; [|contradiction].
  exact (node_In _ _ _ E).
Qed.

(** [addGroupEdges] joins each labelled key of the current group to each
    labelled key of the previous one. *)
Lemma addGroupEdges_edge (prev cur : list string) (g : Graph) (u w : string) :
  In u cur -> In w prev -> node g u <> None -> node g w <> None ->
  In (u, w) (g_edges (addGroupEdges prev cur g)).
Proof.
  intros Hu Hw Hlu Hlw. revert Hlu Hlw.
  assert (Hinner : forall prev' g', In w prev' -> node g' u <> None -> node g' w <> None ->
            In (u, w) (g_edges (addGroupEdges prev' [u] g'))).
  { induction prev' as [|x prev' IH]; intros g' Hx Hgu Hgw; [destruct Hx|].
    unfold addGroupEdges. cbn [fold_left].
    change (fold_left (fun g prev => if hasNode g u && hasNode g prev then setEdge g u prev else g)
              prev' ?h) with (addGroupEdges prev' [u] h).
    destruct (String.eqb x w) eqn:Exw.
    - apply String.eqb_eq in Exw. subst x.
      rewrite (hasNode_label g' u Hgu), (hasNode_label g' w Hgw).
      cbn [andb]. apply addGroupEdges_mono. apply In_edges_setEdge. right. reflexivity.
    - destruct Hx as [Hx|Hx]; [subst x; rewrite String.eqb_refl in Exw; discriminate|].
      destruct (hasNode g' u && hasNode g' x); apply IH; try exact Hx;
        try rewrite node_setEdge; assumption. }
  revert g. induction cur as [|y cur IH]; intros g Hlu Hlw; [destruct Hu|].
  unfold addGroupEdges. cbn [fold_left].
  change (fold_left (fun g cur => fold_left (fun g prev =>
            if hasNode g cur && hasNode g prev then setEdge g cur prev else g) prev g) cur ?h)
    with (addGroupEdges prev cur h).
  destruct (String.eqb y u) eqn:Eyu.
  - apply String.eqb_eq in Eyu. subst y. apply addGroupEdges_mono.
    exact (Hinner prev g Hw Hlu Hlw).
  - destruct Hu as [Hu|Hu]; [subst y; rewrite String.eqb_refl in Eyu; discriminate|].
    apply IH; [exact Hu| |].
    + change (node (addGroupEdges prev [y] g) u <> None). rewrite addGroupEdges_node. exact Hlu.
    + change (node (addGroupEdges prev [y] g) w <> None). rewrite addGroupEdges_node. exact Hlw.
Qed.

Lemma addSequentialEdges_node (groups : list (list string)) (g : Graph) (x : string) :
  node (addSequentialEdges groups g) x = node g x.
Proof.
  apply (addSequentialEdges_pres (fun g' => node g' x = node g x)); [|reflexivity].
  intros g' u d H _. rewrite node_setEdge. exact H.
Qed.

Lemma addSequentialEdges_edge (groups : list (list string)) (g : Graph) (u w : string) :
  seqEdge groups u w -> node g u <> None -> node g w <> None ->
  In (u, w) (g_edges (addSequentialEdges groups g)).
Proof.
  intros [l1 [prev [cur [l2 [Heq [Hu Hw]]]]]]. subst groups. revert g.
  induction l1 as [|h l1 IH]; intros g Hlu Hlw.
  - change (In (u, w) (g_edges (addSequentialEdges (cur :: l2) (addGroupEdges prev cur g)))).
    apply (addSequentialEdges_pres (fun g' => In (u, w) (g_edges g'))).
    + intros g' x y H _. apply In_edges_setEdge. left. exact H.
    + exact (addGroupEdges_edge prev cur g u w Hu Hw Hlu Hlw).
  - destruct l1 as [|h' l1'].
    + change (In (u, w) (g_edges (addSequentialEdges ([] ++ prev :: cur :: l2)
                                    (addGroupEdges h prev g)))).
      apply IH; rewrite addGroupEdges_node; assumption.
    + change (In (u, w) (g_edges (addSequentialEdges ((h' :: l1') ++ prev :: cur :: l2)
                                    (addGroupEdges h h' g)))).
      apply IH; rewrite addGroupEdges_node; assumption.
Qed.

(** The checked graph joins each labelled key of a sequential group to
    each labelled key of the group before. *)
Lemma buildGraphGraph_seq_edge (isMatch : string -> string -> bool) (patterns : list string)
      (scripts : list Script) (command : option string) (u w : string) :
  let gd := discover isMatch (scriptMapOf scripts) (map stripSeqMarker patterns) in
  seqEdge (parseSequentialGroups patterns) u w -> node gd u <> None -> node gd w <> None ->
  In (u, w) (g_edges (buildGraphGraph isMatch patterns scripts command)).
Proof.
  cbv zeta. intros Hs Hu Hw. unfold buildGraphGraph. cbv zeta.
  pose proof (addSequentialEdges_edge _ _ u w Hs Hu Hw) as He.
  destruct command as [c|]; [destruct (truthy c && negb (Nat.eqb (length (map stripSeqMarker patterns)) 0))|];
    [|exact He|exact He].
  apply (addCommandNode_pres (fun g => In (u, w) (g_edges g))); [| |exact He].
  - intros g Hg. rewrite edges_setNode. exact Hg.
  - intros g d Hg _. apply In_edges_setEdge. left. exact Hg.
Qed.

(** The tags [SEQ0:a], [SEQ0:b], [SEQ1:c], [SEQ1:d] of [[a,b]->[c,d]]. *)
Lemma parseSequentialGroups_two_groups (a b c d : string) :
  forallb seqName [a; b; c; d] = true ->
  parseSequentialGroups (twoGroupTargets a b c d) = [[a; b]; [c; d]].
Proof.
  intros Hall. cbn [forallb] in Hall. unfold seqName in Hall.
  repeat rewrite andb_true_iff in Hall. rewrite !negb_true_iff in Hall.
  destruct Hall as [[Ha1 Ha2] [[Hb1 Hb2] [[Hc1 Hc2] [[Hd1 Hd2] _]]]].
  assert (Ha : seqIndexCapture ("SEQ0:" ++ a)%string = Some ("0", a))
    by (apply (seqIndexCapture_tag "0"%char); [reflexivity | assumption | assumption]).
  assert (Hb : seqIndexCapture ("SEQ0:" ++ b)%string = Some ("0", b))
    by (apply (seqIndexCapture_tag "0"%char); [reflexivity | assumption | assumption]).
  assert (Hc : seqIndexCapture ("SEQ1:" ++ c)%string = Some ("1", c))
    by (apply (seqIndexCapture_tag "1"%char); [reflexivity | assumption | assumption]).
  assert (Hd : seqIndexCapture ("SEQ1:" ++ d)%string = Some ("1", d))
    by (apply (seqIndexCapture_tag "1"%char); [reflexivity | assumption | assumption]).
  unfold parseSequentialGroups, twoGroupTargets. cbn [existsb fold_left]. rewrite Ha, Hb, Hc, Hd.
  reflexivity.
Qed.

Lemma stripSeqMarker_two_groups (a b c d : string) :
  map stripSeqMarker (twoGroupTargets a b c d) = [a; b; c; d].
Proof.
  unfold twoGroupTargets. cbn [map]. f_equal; [|f_equal; [|f_equal; [|f_equal]]].
  - apply (stripSeqMarker_tag "0"%char); reflexivity.
  - apply (stripSeqMarker_tag "0"%char); reflexivity.
  - apply (stripSeqMarker_tag "1"%char); reflexivity.
  - apply (stripSeqMarker_tag "1"%char); reflexivity.
Qed.

Lemma distinctb_NoDup (l : list string) : distinctb l = true -> NoDup l.
Proof.
  induction l as [|x l IH]; intros H; [constructor|].
  cbn [distinctb] in H. apply andb_true_iff in H as [Hx Hl].
  constructor; [|exact (IH Hl)].
  intros Hin. apply negb_true_iff in Hx. apply memb_In in Hin. congruence.
Qed.

Lemma seqEdge_two_groups (a b c d u w : string) :
  seqEdge [[a; b]; [c; d]] u w <-> In u [c; d] /\ In w [a; b].
Proof.
  split.
  - intros [l1 [prev [cur [l2 [Heq [Hu Hw]]]]]].
    destruct l1 as [|h [|h' l1]].
    + cbn [app] in Heq. injection Heq as -> -> _. split; assumption.
    + cbn [app] in Heq. injection Heq as _ _ Heq. discriminate.
    + cbn [app] in Heq. injection Heq as _ _ Heq. destruct l1; discriminate.
  - intros [Hu Hw]. exists [], [a; b], [c; d], []. split; [reflexivity|]. split; assumption.
Qed.

Section TwoGroups.

Variable isMatch : string -> string -> bool.
Variable counter : nat.
Variable scripts : list Script.
Variable command : option string.
Variables a b c d : string.
Variable nodes : list ExecutionNode.
Variable n : nat.
Variable ids : list (string * string).

Hypothesis Hnames : forallb (fun x => seqName x && plainEntry (scriptMapOf scripts) x
                                      && negb (String.eqb x COMMAND_NODE_NAME)) [a; b; c; d] = true.
Hypothesis HE : buildGraphFull isMatch counter (twoGroupTargets a b c d) scripts command
                = Ok (nodes, n, ids).

Let g := buildGraphGraph isMatch (twoGroupTargets a b c d) scripts command.

Lemma twoGroups_parse : parseSequentialGroups (twoGroupTargets a b c d) = [[a; b]; [c; d]].
Proof.
  apply parseSequentialGroups_two_groups. apply forallb_forall. intros x Hx.
  pose proof (proj1 (forallb_forall _ _) Hnames x Hx) as H.
  apply andb_true_iff in H as [H _]. apply andb_true_iff in H as [H _]. exact H.
Qed.

Lemma twoGroups_plain (x : string) :
  In x [a; b; c; d] ->
  (exists s, mapGet (scriptMapOf scripts) x = Some s /\ isFrunkCommand (s_command s) = false) /\
  x <> COMMAND_NODE_NAME.
Proof.
  intros Hx. pose proof (proj1 (forallb_forall _ _) Hnames x Hx) as H.
  apply andb_true_iff in H as [H Hc]. apply andb_true_iff in H as [_ Hp].
  split.
  - unfold plainEntry in Hp. destruct (mapGet (scriptMapOf scripts) x) as [s|]; [|discriminate].
    exists s. split; [reflexivity|]. apply negb_true_iff. exact Hp.
  - apply negb_true_iff, String.eqb_neq in Hc. exact Hc.
Qed.

Lemma twoGroups_discovered (x : string) :
  In x [a; b; c; d] ->
  node (discover isMatch (scriptMapOf scripts) (map stripSeqMarker (twoGroupTargets a b c d))) x
  <> None.
Proof.
  intros Hx. destruct (twoGroups_plain x Hx) as [[s [Hs _]] _].
  rewrite stripSeqMarker_two_groups.
  apply (proj2 (discover_complete isMatch (scriptMapOf scripts) [a; b; c; d]) x Hx).
  unfold mapHas. rewrite Hs. reflexivity.
Qed.

(** Each of the four names has an edge exactly to the names of the group
    before its own. *)
Lemma twoGroups_edges (x w : string) :
  In x [a; b; c; d] -> In (x, w) (g_edges g) <-> In x [c; d] /\ In w [a; b].
Proof.
  intros Hx. destruct (twoGroups_plain x Hx) as [[s [Hs Hf]] Hc]. split.
  - intros Hxw. destruct (buildGraphGraph_inv isMatch (twoGroupTargets a b c d) scripts command)
      as [_ [_ Hed]].
    destruct (Hed x w Hxw) as [Hd|[Hs'|[Hc' _]]].
    + unfold depsOf in Hd. rewrite Hs, Hf in Hd. destruct Hd.
    + rewrite twoGroups_parse in Hs'. apply seqEdge_two_groups. exact Hs'.
    + contradiction.
  - intros Hcw. apply buildGraphGraph_seq_edge.
    + rewrite twoGroups_parse. apply seqEdge_two_groups. exact Hcw.
    + exact (twoGroups_discovered x Hx).
    + apply twoGroups_discovered. destruct Hcw as [_ [<-|[<-|[]]]]; cbn; tauto.
Qed.

(** Each of the four names gets a node, whose task carries that name. *)
Lemma twoGroups_node (x : string) :
  In x [a; b; c; d] ->
  exists v, idLookup ids x = Some v /\ In (x, v) ids /\ In (nodeFor g ids (x, v)) nodes /\
            map t_name (tasksOf g x) = [x].
Proof.
  intros Hx. destruct (twoGroups_plain x Hx) as [_ Hc].
  pose proof (buildGraphGraph_labels isMatch (twoGroupTargets a b c d) scripts command x
                (twoGroups_discovered x Hx)) as Hl.
  fold g in Hl. destruct (node g x) as [t|] eqn:Ex; [|contradiction].
  destruct (buildGraphFull_node isMatch counter (twoGroupTargets a b c d) scripts command
              nodes n ids x t HE ltac:(discriminate) Ex) as [v [Hv [Hin Hnd]]].
  exists v. split; [exact Hv|]. split; [exact Hin|]. split; [exact Hnd|].
  unfold tasksOf. rewrite Ex. cbn [map].
  destruct (buildGraphGraph_inv isMatch (twoGroupTargets a b c d) scripts command)
    as [_ [Hlab _]].
  destruct (Hlab x t Ex) as [Hlo|[Hx' _]]; [|contradiction].
  rewrite (labelOf_name _ _ _ Hlo). reflexivity.
Qed.

End TwoGroups.


(** *** Parser: trimming, splitting and the separator *)

Lemma dropWhile_suffix (p : ascii -> bool) (l : list ascii) :
  exists x, l = x ++ dropWhile p l.
Proof.
  induction l as [|c l [x Hx]]; [exists []; reflexivity|].
  cbn [dropWhile]. destruct (p c); [exists (c :: x); cbn; f_equal; exact Hx|].
  exists []. reflexivity.
Qed.

Lemma dropWhile_head (p : ascii -> bool) (l : list ascii) : headNot p (dropWhile p l).
Proof.
  induction l as [|c l IH]; [exact I|]. cbn [dropWhile].
  destruct (p c) eqn:E; [exact IH|exact E].
Qed.

Lemma dropWhile_id (p : ascii -> bool) (l : list ascii) : headNot p l -> dropWhile p l = l.
Proof. destruct l as [|c l]; [reflexivity|]. cbn. intros H. rewrite H. reflexivity. Qed.

Lemma trim_chars (s : string) :
  chars (trim s) = rev (dropWhile isSpace (rev (dropWhile isSpace (chars s)))).
Proof. unfold trim, chars, of_chars. apply list_ascii_of_string_of_list_ascii. Qed.

(** [s.trim()] is idempotent. *)
Lemma trim_idem (s : string) : trim (trim s) = trim s.
Proof.
  assert (Hc : chars (trim (trim s)) = chars (trim s)).
  { rewrite (trim_chars (trim s)), (trim_chars s).
    set (a := dropWhile isSpace (chars s)).
    set (b := dropWhile isSpace (rev a)).
    assert (Ha : headNot isSpace a) by apply dropWhile_head.
    assert (Hb : headNot isSpace b) by apply dropWhile_head.
    assert (Hrb : headNot isSpace (rev b)).
    { destruct (dropWhile_suffix isSpace (rev a)) as [x Hx]. fold b in Hx.
      assert (Ha' : a = rev b ++ rev x) by (rewrite <- rev_app_distr, <- Hx, rev_involutive; reflexivity).
      destruct (rev b) as [|c r] eqn:E; [exact I|]. rewrite Ha' in Ha. exact Ha. }
    rewrite (dropWhile_id _ _ Hrb), rev_involutive, (dropWhile_id _ _ Hb). reflexivity. }
  unfold chars in Hc.
  rewrite <- (string_of_list_ascii_of_string (trim (trim s))), Hc.
  apply string_of_list_ascii_of_string.
Qed.

Lemma pushTrimmed_clean (cur : list ascii) (acc : list string) :
  Forall cleanPart acc -> Forall cleanPart (Parser.pushTrimmed cur acc).
Proof.
  intros H. unfold Parser.pushTrimmed. destruct (truthy (trim (of_chars (rev cur)))) eqn:E;
    [|exact H].
  apply Forall_app. split; [exact H|]. constructor; [|constructor]. split.
  - intros Heq. unfold truthy in E. rewrite Heq in E. discriminate.
  - apply trim_idem.
Qed.

Lemma groupLoop_clean (l : list ascii) (depth : Z) (cur : list ascii) (acc : list string) :
  Forall cleanPart acc -> Forall cleanPart (Parser.groupLoop l depth cur acc).
Proof.
  revert depth cur acc. induction l as [|c l IH]; intros depth cur acc H; cbn [Parser.groupLoop].
  - apply pushTrimmed_clean. exact H.
  - destruct (_ && _); apply IH; [apply pushTrimmed_clean|]; exact H.
Qed.

Lemma arrowLoop_clean (l : list ascii) (depth : Z) (cur : list ascii) (acc : list string) :
  Forall cleanPart acc -> Forall cleanPart (Parser.arrowLoop l depth cur acc).
Proof.
  revert depth cur acc.
  induction l as [l IH] using (induction_ltof1 _ (@length ascii)); intros depth cur acc H.
  destruct l as [|c l']; cbn [Parser.arrowLoop]; [apply pushTrimmed_clean; exact H|].
  destruct l' as [|d l''].
  - apply IH; [unfold ltof; cbn; lia|exact H].
  - destruct (_ && _ && _).
    + apply IH; [unfold ltof; cbn; lia|apply pushTrimmed_clean; exact H].
    + apply IH; [unfold ltof; cbn; lia|exact H].
Qed.

Lemma splitAtSeparator_spec (args : list string) :
  match Parser.splitAtSeparator args with
  | (before, None) => before = args /\ ~ In "--" args
  | (before, Some after) => args = before ++ "--" :: after /\ ~ In "--" before
  end.
Proof.
  induction args as [|a rest IH]; cbn [Parser.splitAtSeparator].
  - split; [reflexivity|intros []].
  - destruct (String.eqb a "--") eqn:E.
    + apply String.eqb_eq in E. subst a. split; [reflexivity|intros []].
    + apply String.eqb_neq in E.
      destruct (Parser.splitAtSeparator rest) as [before [after|]].
      * destruct IH as [-> Hn]. split; [reflexivity|]. intros [H|H]; [congruence|contradiction].
      * destruct IH as [-> Hn]. split; [reflexivity|]. intros [H|H]; [congruence|contradiction].
Qed.

Lemma processArg_command (r : Parser.ParsedCommand) (arg : string) :
  Parser.pc_command (Parser.processArg r arg) = Parser.pc_command r.
Proof.
  unfold Parser.processArg.
  destruct (startsWith arg "[" && endsWith arg "]").
  - unfold Parser.processPattern. destruct (includes arg "->"); reflexivity.
  - destruct (startsWith arg "--").
    + unfold Parser.processLongFlag.
      repeat match goal with |- context [if ?b then _ else _] => destruct b end; reflexivity.
    + destruct (startsWith arg "-"); [|reflexivity].
      unfold Parser.processShortFlags. generalize (chars (sliceFrom 1 arg)) r.
      intros l. induction l as [|c l IH]; intros r0; [reflexivity|]. cbn [fold_left].
      rewrite IH. destruct (Ascii.eqb c "q"); [reflexivity|].
      destruct (Ascii.eqb c "c"); reflexivity.
Qed.

Lemma fold_processArg_command (args : list string) (r : Parser.ParsedCommand) :
  Parser.pc_command (fold_left Parser.processArg args r) = Parser.pc_command r.
Proof.
  revert r. induction args as [|a args IH]; intros r; [reflexivity|].
  cbn [fold_left]. rewrite IH. apply processArg_command.
Qed.

Lemma seqIndexCapture_seq_colon (x : string) : seqIndexCapture ("SEQ:" ++ x) = None.
Proof. reflexivity. Qed.

Lemma formatSequentialPart_tag (part : string) :
  exists x, Parser.formatSequentialPart part = ("SEQ:" ++ x)%string.
Proof.
  unfold Parser.formatSequentialPart.
  destruct (includes _ ","); eexists; reflexivity.
Qed.

(** Without an indexed tag, [parseSequentialGroups] keeps the patterns as
    one group. *)
Lemma parseSequentialGroups_untagged (ps : list string) :
  (forall p, In p ps -> seqIndexCapture p = None) ->
  parseSequentialGroups ps = match ps with [] => [] | _ => [ps] end.
Proof.
  intros H. unfold parseSequentialGroups. destruct ps as [|p ps']; [reflexivity|].
  replace (existsb _ (p :: ps')) with false; [reflexivity|].
  symmetry. apply not_true_iff_false. intros Hx. apply existsb_exists in Hx as [q [Hq Hc]].
  rewrite (H q Hq) in Hc. discriminate.
Qed.


Lemma filter_truthy_trim_clean (l : list string) :
  Forall cleanPart (filter truthy (map trim l)).
Proof.
  apply Forall_forall. intros x Hx. apply filter_In in Hx as [Hx Ht].
  apply in_map_iff in Hx as [y [<- _]]. split.
  - intros Heq. rewrite Heq in Ht. discriminate.
  - apply trim_idem.
Qed.


(** *** PatternMatcher: resolution without sequential patterns *)

Lemma forEachResult_app {E A B} (f : A -> B -> result E B) (l1 l2 : list A) (acc : B) :
  forEachResult f (l1 ++ l2) acc = (r <- forEachResult f l1 acc ;; forEachResult f l2 r).
Proof.
  revert acc. induction l1 as [|x l1 IH]; intros acc; [reflexivity|].
  cbn [app forEachResult]. destruct (f x acc); [apply IH|reflexivity].
Qed.

Lemma forEachResult_ext {E A B} (f f' : A -> B -> result E B) (l : list A) (acc : B) :
  (forall x a, In x l -> f x a = f' x a) -> forEachResult f l acc = forEachResult f' l acc.
Proof.
  revert acc. induction l as [|x l IH]; intros acc H; [reflexivity|].
  cbn [forEachResult]. rewrite (H x acc (or_introl eq_refl)).
  destruct (f' x acc); [|reflexivity]. apply IH. intros y a Hy. apply H. right. exact Hy.
Qed.

Lemma forEachResult_inv {E A B} (P : B -> Prop) (f : A -> B -> result E B) (l : list A)
      (acc r : B) :
  P acc -> (forall x a a', In x l -> P a -> f x a = Ok a' -> P a') ->
  forEachResult f l acc = Ok r -> P r.
Proof.
  revert acc. induction l as [|x l IH]; intros acc Hacc Hstep H.
  - injection H as <-. exact Hacc.
  - cbn [forEachResult] in H. destruct (f x acc) as [a'|e] eqn:Ef; [|discriminate].
    apply (IH a'); [exact (Hstep x acc a' (or_introl eq_refl) Hacc Ef)| |exact H].
    intros y a a'' Hy. apply Hstep. right. exact Hy.
Qed.

Lemma forEachResult_total {E A B} (f : A -> B -> result E B) (l : list A) (acc : B) :
  (forall x a, In x l -> exists a', f x a = Ok a') -> exists r, forEachResult f l acc = Ok r.
Proof.
  revert acc. induction l as [|x l IH]; intros acc H; [exists acc; reflexivity|].
  cbn [forEachResult]. destruct (H x acc (or_introl eq_refl)) as [a' ->].
  apply IH. intros y a Hy. apply H. right. exact Hy.
Qed.

Lemma forEachResult_each {E A} (f : A -> unit -> result E unit) (l : list A) :
  forEachResult f l tt = Ok tt -> forall x, In x l -> f x tt = Ok tt.
Proof.
  induction l as [|y l IH]; intros H x Hx; [destruct Hx|].
  cbn [forEachResult] in H. destruct (f y tt) as [[]|e] eqn:Ef; [|discriminate].
  destruct Hx as [<-|Hx]; [exact Ef|exact (IH H x Hx)].
Qed.

(** The step [resolveF] applies to one pattern. *)
Lemma resolveF_unfold (isMatch : string -> string -> bool) (f : nat) (patterns : list string)
      (scripts : list Script) :
  (forall p, In p patterns -> startsWith p "SEQ:" = false) ->
  resolveF isMatch (S f) patterns scripts
  = (res <- forEachResult (fun pattern cur =>
              if startsWith pattern "!" then processExclusion isMatch (sliceFrom 1 pattern) cur
              else (matches <- findMatches isMatch pattern (map s_name scripts) ;;
                    Ok (cur ++ matches))) patterns [] ;;
     Ok (dedup res)).
Proof.
  intros H. cbn [resolveF]. f_equal. apply forEachResult_ext. intros x a Hx.
  rewrite (H x Hx). destruct (startsWith x "!"); reflexivity.
Qed.

Lemma resolvePatterns_NoDup (isMatch : string -> string -> bool) (patterns : list string)
      (scripts : list Script) (r : list string) :
  resolvePatterns isMatch patterns scripts = Ok r -> NoDup r.
Proof.
  unfold resolvePatterns. cbn [resolveF].
  destruct (forEachResult _ patterns []); [|discriminate].
  intros H. injection H as <-. apply NoDup_dedupAux.
Qed.

Lemma micromatch_sub (isMatch : string -> string -> bool) (l : list string) (p : string)
      (m : list string) :
  micromatch isMatch l p = Ok m -> forall x, In x m -> In x l.
Proof.
  unfold micromatch. destruct (truthy p); [|discriminate]. intros H. injection H as <-.
  intros x Hx. apply In_dedupAux in Hx as [Hx _]. apply filter_In in Hx. tauto.
Qed.

Lemma findMatches_sub (isMatch : string -> string -> bool) (p : string) (names m : list string) :
  findMatches isMatch p names = Ok m -> forall x, In x m -> In x names.
Proof.
  unfold findMatches. destruct (isGlobPattern p); [apply micromatch_sub|].
  destruct (existsb (String.eqb p) names) eqn:E.
  - intros H. injection H as <-. intros x [<-|[]]. apply memb_In. exact E.
  - destruct (micromatch isMatch names p) as [ms|] eqn:Em; [|discriminate]. cbn [bind].
    destruct ms; [discriminate|]. intros H. injection H as <-. apply (micromatch_sub _ _ _ _ Em).
Qed.

Lemma processExclusion_sub (isMatch : string -> string -> bool) (x : string) (res m : list string) :
  processExclusion isMatch x res = Ok m -> forall y, In y m -> In y res.
Proof.
  unfold processExclusion. destruct (includes x "*" || includes x "?").
  - destruct (micromatch isMatch res x); [|discriminate]. cbn [bind].
    intros H. injection H as <-. intros y Hy. apply filter_In in Hy. tauto.
  - intros H. injection H as <-. intros y Hy. apply filter_In in Hy. tauto.
Qed.

Lemma filter_dedupAux (p : string -> bool) (seen seen' l : list string) :
  (forall y, p y = true -> (In y seen <-> In y seen')) ->
  filter p (dedupAux seen l) = dedupAux seen' (filter p l).
Proof.
  revert seen seen'. induction l as [|x l IH]; intros seen seen' H; [reflexivity|].
  cbn [dedupAux filter].
  destruct (existsb (String.eqb x) seen) eqn:Es; destruct (p x) eqn:Ep.
  - cbn [dedupAux]. replace (existsb (String.eqb x) seen') with true.
    + apply IH. exact H.
    + symmetry. apply memb_In, H, memb_In; [exact Ep|exact Es].
  - apply IH. exact H.
  - cbn [dedupAux filter]. rewrite Ep. replace (existsb (String.eqb x) seen') with false.
    + f_equal. apply IH. intros y Hy. cbn. specialize (H y Hy). tauto.
    + symmetry. apply not_true_iff_false. intros Hs. apply memb_In in Hs.
      apply (H x Ep) in Hs. apply memb_In in Hs. unfold memb in Hs. congruence.
  - cbn [filter]. rewrite Ep. apply IH. intros y Hy. cbn. split.
    + intros [<-|Hin]; [congruence|]. apply H; assumption.
    + intros Hin. right. apply H; assumption.
Qed.

Lemma substring_whole (s : string) : substring 0 (String.length s) s = s.
Proof. induction s as [|c s IH]; [reflexivity|]. cbn. rewrite IH. reflexivity. Qed.

Lemma sliceFrom_bang (x : string) : sliceFrom 1 ("!" ++ x) = x.
Proof.
  unfold sliceFrom. cbn [String.length append]. rewrite Nat.sub_succ, Nat.sub_0_r.
  cbn [substring]. apply substring_whole.
Qed.

Lemma edges_fold_ensureNode (l : list ExecutionNode) (g : Graph) :
  g_edges (fold_left (fun g node => ensureNode g (en_id node)) l g) = g_edges g.
Proof.
  revert g. induction l as [|x l IH]; intros g; [reflexivity|].
  cbn [fold_left]. rewrite IH. apply edges_ensureNode.
Qed.

Lemma wf_fold_ensureNode (l : list ExecutionNode) (g : Graph) :
  wfGraph g -> wfGraph (fold_left (fun g node => ensureNode g (en_id node)) l g).
Proof.
  revert g. induction l as [|x l IH]; intros g Hg; [exact Hg|].
  cbn [fold_left]. apply IH, wf_ensureNode, Hg.
Qed.

Lemma In_edges_fold_setEdge (u : string) (deps : list string) (g : Graph) e :
  In e (g_edges (fold_left (fun g dep => setEdge g u dep) deps g)) <->
  In e (g_edges g) \/ exists d, In d deps /\ e = (u, d).
Proof.
  revert g. induction deps as [|d deps IH]; intros g; cbn [fold_left].
  - split; [tauto|]. intros [H|[d [[] _]]]. exact H.
  - rewrite IH, In_edges_setEdge. split.
    + intros [[H|H]|[d' [Hd' H]]]; [tauto| right; exists d; simpl; tauto|].
      right. exists d'. simpl. tauto.
    + intros [H|[d' [[<-|Hd'] H]]]; [tauto|tauto|]. right. exists d'. tauto.
Qed.

Lemma wf_fold_setEdge (u : string) (deps : list string) (g : Graph) :
  wfGraph g -> wfGraph (fold_left (fun g dep => setEdge g u dep) deps g).
Proof.
  revert g. induction deps as [|d deps IH]; intros g Hg; [exact Hg|].
  cbn [fold_left]. apply IH, wf_setEdge, Hg.
Qed.

Lemma validationGraph_edges (nodes : list ExecutionNode) (u v : string) :
  In (u, v) (g_edges (validationGraph nodes)) <-> dependsOn nodes u v.
Proof.
  unfold validationGraph. cbv zeta.
  assert (Hgen : forall l g, In (u, v) (g_edges (fold_left (fun g node =>
              fold_left (fun g dep => setEdge g (en_id node) dep) (en_dependencies node) g) l g))
            <-> In (u, v) (g_edges g) \/ dependsOn l u v).
  { induction l as [|x l IH]; intros g; cbn [fold_left].
    - split; [tauto|]. intros [H|[n [[] _]]]. exact H.
    - rewrite IH, In_edges_fold_setEdge. split.
      + intros [[H|[d [Hd Heq]]]|[n [Hn Hu]]].
        * tauto.
        * injection Heq as -> ->. right. exists x. simpl. tauto.
        * right. exists n. simpl. tauto.
      + intros [H|[n [[<-|Hn] [Hu Hv]]]].
        * tauto.
        * left. right. exists v. subst u. tauto.
        * right. exists n. tauto. }
  rewrite Hgen, edges_fold_ensureNode. cbn [g_edges emptyGraph]. split; [intros [[]|H]; exact H|].
  intros H. right. exact H.
Qed.

Lemma wf_validationGraph (nodes : list ExecutionNode) : wfGraph (validationGraph nodes).
Proof.
  unfold validationGraph. cbv zeta.
  assert (Hgen : forall l g, wfGraph g -> wfGraph (fold_left (fun g node =>
              fold_left (fun g dep => setEdge g (en_id node) dep) (en_dependencies node) g) l g)).
  { induction l as [|x l IH]; intros g Hg; [exact Hg|]. cbn [fold_left].
    apply IH, wf_fold_setEdge, Hg. }
  apply Hgen, wf_fold_ensureNode, wf_emptyGraph.
Qed.

Lemma greach_of_clos_trans (g : Graph) (R : string -> string -> Prop) (u v : string) :
  (forall a b, R a b -> In (a, b) (g_edges g)) -> clos_trans _ R u v -> greach g u v.
Proof.
  intros HR H. apply clos_trans_t1n_iff in H. induction H as [a b Hab|a b c Hab _ IH].
  - apply greach_one, HR, Hab.
  - eapply greach_step; [apply HR, Hab|exact IH].
Qed.

Lemma buildNodes_ids (g : Graph) (order : list string) (acc : NodeAcc) (c0 : nat) :
  map en_id (acc_nodes acc) = map nodeIdOf (seq c0 (length (acc_nodes acc))) ->
  acc_counter acc = c0 + length (acc_nodes acc) ->
  let acc' := fold_left (buildStep g) order acc in
  map en_id (acc_nodes acc') = map nodeIdOf (seq c0 (length (acc_nodes acc'))) /\
  acc_counter acc' = c0 + length (acc_nodes acc').
Proof.
  revert acc. induction order as [|t order IH]; intros acc Hm Hc; cbn [fold_left];
    [split; assumption|].
  apply IH.
  - unfold buildStep. destruct (node g t); [|exact Hm].
    destruct (idLookup (acc_ids acc) t); [exact Hm|]. cbn [acc_nodes].
    rewrite map_app, length_app, seq_app, map_app, Hm, Hc. reflexivity.
  - unfold buildStep. destruct (node g t); [|exact Hc].
    destruct (idLookup (acc_ids acc) t); [exact Hc|]. cbn [acc_nodes acc_counter].
    rewrite length_app, Hc. cbn [length]. lia.
Qed.

Lemma buildNodes_ids_from (g : Graph) (order : list string) (counter : nat) :
  let acc := buildNodes g order counter in
  map en_id (acc_nodes acc) = map nodeIdOf (seq counter (length (acc_nodes acc))) /\
  acc_counter acc = counter + length (acc_nodes acc).
Proof.
  apply buildNodes_ids; cbn; [reflexivity|lia].
Qed.

Lemma NoDup_map_nodeIdOf (l : list nat) : NoDup l -> NoDup (map nodeIdOf l).
Proof.
  induction 1 as [|x l Hx Hl IH]; cbn [map]; constructor; [|exact IH].
  intros Hin. apply in_map_iff in Hin as [y [Hy Hyl]]. apply nodeIdOf_inj in Hy. subst y.
  contradiction.
Qed.

Lemma buildGraph_ids_counter (isMatch : string -> string -> bool) (counter : nat)
      (patterns : list string) (scripts : list Script) (command : option string)
      (nodes : list ExecutionNode) (n : nat) :
  buildGraph isMatch counter patterns scripts command = Ok (nodes, n) ->
  map en_id nodes = map nodeIdOf (seq counter (length nodes)) /\ n = counter + length nodes.
Proof.
  unfold buildGraph, buildGraphFull. cbv zeta.
  destruct (isAcyclic (buildGraphGraph isMatch patterns scripts command)); [|discriminate].
  cbn [negb]. destruct (topsort (buildGraphGraph isMatch patterns scripts command)) as [order|];
    [|discriminate].
  destruct (buildNodes_ids_from (buildGraphGraph isMatch patterns scripts command) (rev order)
              counter) as [Hm Hc].
  remember (buildNodes (buildGraphGraph isMatch patterns scripts command) (rev order) counter)
    as acc eqn:Hacc. clear Hacc.
  assert (Hsnoc : forall x, en_id x = nodeIdOf (acc_counter acc) ->
            map en_id (acc_nodes acc ++ [x])
            = map nodeIdOf (seq counter (length (acc_nodes acc ++ [x]))) /\
  S (acc_counter acc) = counter + length (acc_nodes acc ++ [x])).
  { intros x Hx. rewrite map_app, length_app, seq_app, map_app, Hm. cbn [map length seq].
    rewrite Hx, Hc. split; [reflexivity|lia]. }
  assert (Hone : acc_nodes acc = [] -> forall x, en_id x = nodeIdOf (acc_counter acc) ->
            map en_id [x] = map nodeIdOf (seq counter (length [x])) /\
  S (acc_counter acc) = counter + length [x]).
  { intros He x Hx. rewrite He in Hc. cbn [map length seq]. rewrite Hx, Hc. cbn [length].
    split; [do 3 f_equal; lia|lia]. }
  destruct patterns as [|p ps]; [destruct command as [c|]; [destruct (truthy c)|]|].
  - intros H. injection H as <- <-. apply Hsnoc. reflexivity.
  - destruct (acc_nodes acc) eqn:E; intros H; injection H as <- <-.
    + apply Hone; reflexivity.
    + split; assumption.
  - destruct (acc_nodes acc) eqn:E; intros H; injection H as <- <-.
    + apply Hone; reflexivity.
    + split; assumption.
  - intros H. injection H as <- <-. split; assumption.
Qed.

Lemma fold_setAdd (l : list ExecutionNode) (c : list string) :
  NoDup c ->
  let c' := fold_left (fun c n => Executor.setAdd (en_id n) c) l c in
  NoDup c' /\ (exists e, c' = c ++ e /\ forall x, In x e -> exists n, In n l /\ en_id n = x) /\
  (forall n, In n l -> In (en_id n) c').
Proof.
  revert c. induction l as [|y l IH]; intros c Hc; cbn [fold_left].
  - split; [exact Hc|]. split; [exists []; rewrite app_nil_r; split; [reflexivity|intros x []]|].
    intros n [].
  - assert (Hy : NoDup (Executor.setAdd (en_id y) c) /\
                 (exists e, Executor.setAdd (en_id y) c = c ++ e /\ forall x, In x e -> x = en_id y) /\
                 In (en_id y) (Executor.setAdd (en_id y) c)).
    { unfold Executor.setAdd. destruct (Executor.mem (en_id y) c) eqn:E.
      - split; [exact Hc|]. split; [exists []; rewrite app_nil_r; split; [reflexivity|intros x []]|].
        apply mem_In, E.
      - split; [|split; [exists [en_id y]; split; [reflexivity|intros x [<-|[]]; reflexivity]|]].
        + apply NoDup_app; [exact Hc|constructor; [intros []|constructor]|].
          intros x Hx [<-|[]]. apply (proj2 (mem_In _ _)) in Hx. congruence.
        + apply in_or_app. right. left. reflexivity. }
    destruct Hy as [Hnd [[e1 [He1 Hx1]] Hin]].
    destruct (IH _ Hnd) as [Hnd' [[e2 [He2 Hx2]] Hall]].
    split; [exact Hnd'|]. split.
    + exists (e1 ++ e2). split; [rewrite He2, He1, app_assoc; reflexivity|].
      intros x Hx. apply in_app_or in Hx as [Hx|Hx].
      * exists y. split; [left; reflexivity|symmetry; apply Hx1, Hx].
      * destruct (Hx2 x Hx) as [n [Hn Hnx]]. exists n. split; [right; exact Hn|exact Hnx].
    + intros n [<-|Hn]; [|apply Hall, Hn].
      rewrite He2. apply in_or_app. left. exact Hin.
Qed.

Lemma app_cons_split {A} (l1 l2 c e : list A) (x : A) :
  l1 ++ x :: l2 = c ++ e -> (exists l2', c = l1 ++ x :: l2') \/ (incl c l1 /\ In x e).
Proof.
  intros H. apply app_eq_app in H as [l [[H1 H2]|[H1 H2]]].
  - right. subst l1. split; [intros y Hy; apply in_or_app; left; exact Hy|].
    rewrite H2. apply in_or_app. right. left. reflexivity.
  - destruct l as [|y l].
    + right. rewrite app_nil_r in H1. subst c. split; [intros y Hy; exact Hy|].
      cbn in H2. rewrite <- H2. left. reflexivity.
    + left. injection H2 as -> _. exists l. exact H1.
Qed.

Lemma runNodeThrows_continue (taskFails : Task -> bool) (st : Executor.ExecState)
      (n : ExecutionNode) :
  Executor.runNodeThrows (Executor.mkRunOptions true) taskFails st n = false.
Proof.
  unfold Executor.runNodeThrows. induction (en_tasks n) as [|t ts IH]; [reflexivity|].
  cbn [existsb]. rewrite IH, orb_false_r.
  unfold Executor.runTaskThrows. cbn [Executor.opt_continue negb]. apply andb_false_r.
Qed.

(** One iteration that goes on to the next one keeps the invariant and
    completes at least one more node. *)
Lemma loopStep_next_inv (opts : Executor.RunOptions) (taskFails : Task -> bool)
      (nodes : list ExecutionNode) (ab : bool) (st st' : Executor.ExecState) :
  execInv nodes ab st -> Executor.loopStep opts taskFails nodes st = Executor.LoopNext st' ->
  execInv nodes ab st' /\
  length (Executor.es_completed st) < length (Executor.es_completed st').
Proof.
  intros [Hrun [Hab [Hnd [Hincl Hord]]]]. unfold Executor.loopStep.
  destruct (negb _); [discriminate|]. cbv zeta.
  destruct (filter (Executor.canRun st) nodes) as [|r rs] eqn:Er.
  { rewrite Hrun. intros H.
    destruct (filter (fun n => negb (Executor.mem (en_id n) (Executor.es_completed st))) nodes);
      discriminate H. }
  assert (Hcan : forall n, In n (r :: rs) -> In n nodes /\ Executor.canRun st n = true)
    by (intros n Hn; rewrite <- Er in Hn; apply filter_In in Hn; exact Hn).
  destruct (filter (Executor.runNodeThrows opts taskFails st) (r :: rs)) as [|n0 ns] eqn:Et.
  2:{ destruct (Executor.opt_continue opts) eqn:Ec; [|discriminate]. exfalso.
      destruct opts as [co]. cbn in Ec. subst co.
      assert (Hin : In n0 (filter (Executor.runNodeThrows (Executor.mkRunOptions true) taskFails st)
                          (r :: rs))) by (rewrite Et; left; reflexivity).
      apply filter_In in Hin as [_ Hin]. rewrite runNodeThrows_continue in Hin. discriminate. }
  intros H. injection H as <-. cbn [Executor.es_completed Executor.es_running Executor.es_aborted].
  destruct (fold_setAdd (r :: rs) (Executor.es_completed st) Hnd) as [Hnd' [[e [He Hex]] Hall]].
  cbv zeta in He, Hnd', Hall. cbn [fold_left] in He, Hnd', Hall. rewrite He in Hall, Hnd' |- *.
  assert (Hr : ~ In (en_id r) (Executor.es_completed st)).
  { destruct (Hcan r (or_introl eq_refl)) as [_ Hc]. unfold Executor.canRun in Hc.
    destruct (Executor.mem (en_id r) (Executor.es_completed st)) eqn:Em; [discriminate|].
    intros Hin. apply mem_In in Hin. congruence. }
  split; [split; [exact Hrun|split; [exact Hab|split; [exact Hnd'|split]]]|].
  - intros x Hx. apply in_app_or in Hx as [Hx|Hx]; [apply Hincl, Hx|].
    destruct (Hex x Hx) as [n [Hn <-]]. apply in_map. apply (Hcan n Hn).
  - intros l1 x l2 Hs. cbn [Executor.es_completed] in Hs. symmetry in Hs.
    apply app_cons_split in Hs as [[l2' Hc]|[Hc Hx]].
    + exact (Hord l1 x l2' Hc).
    + destruct (Hex x Hx) as [n [Hn <-]]. destruct (Hcan n Hn) as [Hnin Hcr].
      exists n. split; [exact Hnin|]. split; [reflexivity|].
      intros d Hd. apply Hc. unfold Executor.canRun in Hcr.
      destruct (_ || _); [discriminate|].
      pose proof (proj1 (forallb_forall _ _) Hcr d Hd) as Hm. apply mem_In, Hm.
  - rewrite length_app. destruct e as [|y e'].
    + exfalso. apply Hr. pose proof (Hall r (or_introl eq_refl)) as H.
      rewrite app_nil_r in H. exact H.
    + cbn [length]. lia.
Qed.

Lemma execInv_length (nodes : list ExecutionNode) (ab : bool) (st : Executor.ExecState) :
  execInv nodes ab st -> length (Executor.es_completed st) <= length nodes.
Proof.
  intros [_ [_ [Hnd [Hincl _]]]]. rewrite <- (length_map en_id nodes).
  apply NoDup_incl_length; assumption.
Qed.

Lemma execInv_initial (nodes : list ExecutionNode) (ab : bool) :
  execInv nodes ab (Executor.initialState ab).
Proof.
  split; [reflexivity|]. split; [reflexivity|]. split; [constructor|]. split; [intros x []|].
  intros l1 x l2 H. destruct l1; discriminate.
Qed.

Lemma executeF_defined (opts : Executor.RunOptions) (taskFails : Task -> bool)
      (nodes : list ExecutionNode) (ab : bool) (fuel : nat) (st : Executor.ExecState) :
  execInv nodes ab st -> length nodes - length (Executor.es_completed st) < fuel ->
  Executor.executeF opts taskFails fuel nodes st <> None.
Proof.
  revert st. induction fuel as [|f IH]; intros st Hinv Hlt; [lia|].
  cbn [Executor.executeF].
  destruct (Executor.loopStep opts taskFails nodes st) as [s|s|e] eqn:E; try discriminate.
  destruct (loopStep_next_inv _ _ _ _ _ _ Hinv E) as [Hinv' Hgt].
  apply IH; [exact Hinv'|]. pose proof (execInv_length _ _ _ Hinv'). lia.
Qed.

Lemma executeF_ok_inv (opts : Executor.RunOptions) (taskFails : Task -> bool)
      (nodes : list ExecutionNode) (ab : bool) (fuel : nat) (st st' : Executor.ExecState) :
  execInv nodes ab st -> Executor.executeF opts taskFails fuel nodes st = Some (Ok st') ->
  execInv nodes ab st' /\ Executor.loopStep opts taskFails nodes st' = Executor.LoopExit st'.
Proof.
  revert st. induction fuel as [|f IH]; intros st Hinv H; [discriminate|].
  cbn [Executor.executeF] in H.
  destruct (Executor.loopStep opts taskFails nodes st) as [s|s|e] eqn:E; try discriminate.
  - injection H as <-.
    assert (Hs : s = st).
    { unfold Executor.loopStep in E. destruct (negb _); [congruence|]. cbv zeta in E.
      destruct (filter (Executor.canRun st) nodes).
      - destruct (Executor.es_running st); [|discriminate].
        destruct (filter _ nodes); congruence.
      - destruct (filter _ _); [discriminate|]. destruct (Executor.opt_continue opts); discriminate. }
    subst s. split; assumption.
  - apply (IH s); [apply (loopStep_next_inv _ _ _ _ _ _ Hinv E)|exact H].
Qed.

Lemma length_append_str (a b : string) : String.length (a ++ b) = String.length a + String.length b.
Proof. induction a as [|c a IH]; cbn; [reflexivity|rewrite IH; reflexivity]. Qed.

Lemma append_assoc_str (a b c : string) : ((a ++ b) ++ c)%string = (a ++ b ++ c)%string.
Proof. induction a as [|ch a IH]; cbn; [reflexivity|rewrite IH; reflexivity]. Qed.

Lemma length_spaces (n : nat) : String.length (Logger.spaces n) = n.
Proof. induction n as [|n IH]; cbn; [reflexivity|rewrite IH; reflexivity]. Qed.

Lemma colorHas_memb (m : list (string * nat)) (k : string) :
  Logger.colorHas m k = memb k (map fst m).
Proof.
  unfold Logger.colorHas, memb.
  induction m as [|[k' c] m IH]; [reflexivity|]. cbn. rewrite IH, String.eqb_sym. reflexivity.
Qed.

Lemma colorGet_In (m : list (string * nat)) (k : string) :
  In k (map fst m) -> exists c, Logger.colorGet m k = Some c.
Proof.
  induction m as [|[k' c] m IH]; intros H; [destruct H|]. cbn.
  destruct (String.eqb k' k) eqn:E; [eexists; reflexivity|].
  destruct H as [H|H]; [cbn in H; subst; rewrite String.eqb_refl in E; discriminate|].
  apply IH, H.
Qed.

Lemma dedupAux_snoc (seen l : list string) (x : string) :
  dedupAux seen (l ++ [x])
  = dedupAux seen l ++ (if memb x (seen ++ l) then [] else [x]).
Proof.
  revert seen. induction l as [|y l IH]; intros seen; cbn [app dedupAux].
  - rewrite app_nil_r. unfold memb. destruct (existsb (String.eqb x) seen); reflexivity.
  - destruct (existsb (String.eqb y) seen) eqn:Ey.
    + rewrite IH. replace (memb x (seen ++ y :: l)) with (memb x (seen ++ l)); [reflexivity|].
      apply eq_true_iff_eq. rewrite !memb_In, !in_app_iff.
      cbn [In]. apply (proj1 (memb_In y seen)) in Ey. split; [tauto|].
      intros [H|[<-|H]]; tauto.
    + rewrite IH. cbn [app].
      replace (memb x (seen ++ y :: l)) with (memb x (y :: seen ++ l)); [reflexivity|].
      apply eq_true_iff_eq.
      rewrite !memb_In. cbn [In]. rewrite !in_app_iff. cbn [In]. tauto.
Qed.

Lemma registerTasks_inv (c : Logger.LoggerConfig) (names : list string) :
  let st := fold_left Logger.registerTask names (Logger.newLogger c) in
  map fst (Logger.colorMap st) = dedup names /\
  map snd (Logger.colorMap st) = map (fun k => k mod 8) (seq 0 (length (dedup names))) /\
  Logger.colorIndex st = length (dedup names) /\
  (forall t, In t names -> String.length t <= Logger.maxPrefixLength st) /\
  Logger.prefixCfg st = Logger.prefixCfg (Logger.newLogger c) /\
  Logger.quietCfg st = Logger.quietCfg (Logger.newLogger c).
Proof.
  induction names as [|x l IH] using rev_ind; [cbn; repeat split; intros t []|].
  cbv zeta in IH |- *. rewrite fold_left_app. cbn [fold_left].
  set (st := fold_left Logger.registerTask l (Logger.newLogger c)) in IH |- *.
  destruct IH as [Hk [Hv [Hi [Hm [Hp Hq]]]]].
  unfold dedup. rewrite dedupAux_snoc. cbn [app]. fold (dedup l).
  unfold Logger.registerTask. rewrite colorHas_memb, Hk.
  assert (Hmem : memb x (dedup l) = memb x l).
  { apply eq_true_iff_eq. rewrite !memb_In. unfold dedup. rewrite In_dedupAux. cbn. tauto. }
  rewrite Hmem. destruct (memb x l) eqn:Ex.
  - rewrite app_nil_r. repeat split; try assumption.
    intros t Ht. apply in_app_or in Ht as [Ht|[<-|[]]]; [apply Hm, Ht|].
    apply Hm, memb_In, Ex.
  - cbn [Logger.colorMap Logger.colorIndex Logger.maxPrefixLength Logger.prefixCfg
         Logger.quietCfg].
    replace (nth_error Logger.colors (Logger.colorIndex st mod length Logger.colors))
      with (Some (Logger.colorIndex st mod 8)).
    2:{ cbn [length Logger.colors]. pose proof (Nat.mod_upper_bound (Logger.colorIndex st) 8).
        destruct (Logger.colorIndex st mod 8) as [|[|[|[|[|[|[|[|k]]]]]]]]; try reflexivity; lia. }
    rewrite !map_app, Hk, Hv, Hi, length_app. cbn [map fst snd length].
    rewrite Nat.add_1_r, seq_S, map_app. cbn [map].
    split; [reflexivity|]. split; [reflexivity|]. split; [reflexivity|].
    split; [|split; assumption].
    intros t Ht. apply in_app_or in Ht as [Ht|[<-|[]]]; [|lia].
    specialize (Hm t Ht). lia.
Qed.

End Facts.

(** * Claims *)

Module Claims.
Import Facts.

(** C8: when the tokens after the first ["--"] join into a command that
    starts with ["f "] or ["frunk "], [Parser.parse] throws (the nested
    orchestrator invocation is rejected). *)
Theorem parse_rejects_nested_orchestrator (pre post : list string) :
  memb "--" pre = false ->
  startsWith (joinSpace post) "f " || startsWith (joinSpace post) "frunk " = true ->
  Parser.parse (pre ++ "--" :: post) = Error Parser.NestedFrunkCommand.
Proof.
  intros Hn Hf. unfold Parser.parse, Parser.extractCommand.
  rewrite splitAtSeparator_app.
  - cbv beta iota zeta delta [option_map]. rewrite Hf. reflexivity.
  - intros Hin. apply memb_In in Hin. congruence.
Qed.

Lemma parse_rejects_nested_orchestrator_witness :
  memb "--" ["[build]"] = false /\
  startsWith (joinSpace ["f"; "[test]"]) "f " || startsWith (joinSpace ["f"; "[test]"]) "frunk "
  = true /\
  Parser.parse (["[build]"] ++ "--" :: ["f"; "[test]"]) = Error Parser.NestedFrunkCommand.
Proof.
  split; [reflexivity|]. split; [reflexivity|].
  apply parse_rejects_nested_orchestrator; reflexivity.
Defined.

(** C9: when an iteration of the scheduling loop of [Executor.execute]
    finds no runnable and no running node while uncompleted nodes remain,
    [execute] throws an error listing the ids of all uncompleted nodes,
    whatever the options ([continue] included) and the task outcomes. *)
Theorem execute_stuck_throws (opts : Executor.RunOptions) (taskFails : Task -> bool)
        (nodes : list ExecutionNode) (st : Executor.ExecState) (fuel : nat) :
  Nat.ltb (length (Executor.es_completed st)) (length nodes) = true ->
  Executor.es_aborted st = false ->
  filter (Executor.canRun st) nodes = [] ->
  Executor.es_running st = [] ->
  filter (fun n => negb (Executor.mem (en_id n) (Executor.es_completed st))) nodes <> [] ->
  Executor.executeF opts taskFails (S fuel) nodes st
  = Some (Error (Executor.StuckError
      (map en_id (filter (fun n => negb (Executor.mem (en_id n) (Executor.es_completed st)))
                         nodes)))).
Proof.
  intros Hlt Hab Hrun Hrunning Hrem. simpl.
  rewrite (loopStep_stuck opts taskFails nodes st Hlt Hab Hrun Hrunning Hrem). reflexivity.
Qed.

Lemma execute_stuck_throws_witness :
  Executor.executeF (Executor.mkRunOptions true) (fun _ => true) 1
    [mkNode ["node_9"] "node_0" false [mkTask "echo a" [] "a"]] (Executor.initialState false)
  = Some (Error (Executor.StuckError
      (map en_id (filter (fun n => negb (Executor.mem (en_id n) []))
                         [mkNode ["node_9"] "node_0" false [mkTask "echo a" [] "a"]])))).
Proof.
  apply (execute_stuck_throws (Executor.mkRunOptions true) (fun _ => true)
           [mkNode ["node_9"] "node_0" false [mkTask "echo a" [] "a"]]
           (Executor.initialState false) 0);
    [reflexivity | reflexivity | reflexivity | reflexivity | discriminate].
Defined.

(** C7 (counterexample): a target with no [!] and no [SEQ:] prefix that
    names no manifest entry does not always throw: a name containing [:],
    such as ["test:e2e"], is taken for a glob, and a glob that matches
    nothing resolves to no scripts. *)
Lemma resolvePatterns_unknown_colon_name :
  resolvePatterns globMatch ["test:e2e"] [mkScript "test:unit" "vitest run"] = Ok [] /\
  ~ (forall (isMatch : string -> string -> bool) patterns scripts p,
       In p patterns -> literalName p = true -> ~ In p (map s_name scripts) ->
       exists q, resolvePatterns isMatch patterns scripts = Error (ScriptNotFound q)).
Proof.
  split; [vm_compute; reflexivity|]. intros H.
  destruct (H globMatch ["test:e2e"] [mkScript "test:unit" "vitest run"] "test:e2e")
    as [q Hq].
  - left. reflexivity.
  - reflexivity.
  - simpl. intros [E|[]]. discriminate.
  - vm_compute in Hq. discriminate.
Qed.

(** C7 (amended): [resolvePatterns] throws when the list contains a
    non-empty target with no [!] and no [SEQ:] prefix, without any of the
    glob characters [* ? [ :], that is no manifest name and that micromatch
    matches against no manifest name. *)
Theorem resolvePatterns_throws_on_unknown_literal (isMatch : string -> string -> bool)
        (patterns : list string) (scripts : list Script) (p : string) :
  memb p patterns = true -> literalName p = true -> isGlobPattern p = false ->
  truthy p = true -> memb p (map s_name scripts) = false ->
  filter (isMatch p) (map s_name scripts) = [] ->
  exists e, resolvePatterns isMatch patterns scripts = Error e.
Proof.
  intros Hin Hlit Hglob Hne Hname Hmm.
  apply (resolvePatterns_step_error isMatch patterns scripts p);
    [apply memb_In; exact Hin | exact Hlit | exact Hglob | | | exact Hmm].
  - intros E. subst. discriminate.
  - intros H. apply memb_In in H. congruence.
Qed.

Lemma resolvePatterns_throws_on_unknown_literal_witness :
  resolvePatterns globMatch ["build"; "tset"] exampleScripts = Error (ScriptNotFound "tset") /\
  exists e, resolvePatterns globMatch ["build"; "tset"] exampleScripts = Error e.
Proof.
  split; [vm_compute; reflexivity|].
  apply (resolvePatterns_throws_on_unknown_literal globMatch ["build"; "tset"] exampleScripts
           "tset"); vm_compute; reflexivity.
Defined.

(** C3: in the array [buildGraph] returns, every id listed in a node's
    [dependencies] is the id of a node at an earlier index (no forward
    references). *)
Theorem buildGraph_no_forward_references (isMatch : string -> string -> bool)
        (counter : nat) (patterns : list string) (scripts : list Script)
        (command : option string) (nodes : list ExecutionNode) (n : nat) :
  buildGraph isMatch counter patterns scripts command = Ok (nodes, n) ->
  forall i x, nth_error nodes i = Some x -> forall d, In d (en_dependencies x) ->
  exists j y, j < i /\ nth_error nodes j = Some y /\ en_id y = d.
Proof.
  unfold buildGraph.
  destruct (buildGraphFull isMatch counter patterns scripts command)
    as [[[nodes' n'] ids]|e] eqn:E; [|discriminate].
  intros H. injection H as <- _.
  apply buildGraphFull_shape in E as [order [_ [_ Hnodes]]].
  set (g := buildGraphGraph isMatch patterns scripts command) in Hnodes.
  destruct (buildNodes_backward g (rev order) (mkAcc [] counter [])) as [Hids Hback].
  - intros k id [].
  - intros i x Hx. destruct i; discriminate.
  - fold (buildNodes g (rev order) counter) in Hids, Hback.
    destruct Hnodes as [->|[_ [x [-> Hx]]]]; [exact Hback|].
    apply backward_snoc; [exact Hback|]. rewrite Hx. intros d [].
Qed.

Lemma buildGraph_no_forward_references_witness :
  let r := buildGraph globMatch 0 ["ci"] exampleScripts (Some "echo done") in
  r = Ok (okNodes r, okCounter r) /\
  forall i x, nth_error (okNodes r) i = Some x -> forall d, In d (en_dependencies x) ->
  exists j y, j < i /\ nth_error (okNodes r) j = Some y /\ en_id y = d.
Proof.
  cbv zeta. split; [vm_compute; reflexivity|].
  apply (buildGraph_no_forward_references globMatch 0 ["ci"] exampleScripts (Some "echo done")
           _ (okCounter (buildGraph globMatch 0 ["ci"] exampleScripts (Some "echo done")))).
  vm_compute. reflexivity.
Defined.

(** C10: for a manifest entry [name] that is an orchestration invocation
    parsed with a dependency list and no trailing command, every task
    named [name] among the nodes [buildGraph] returns runs the
    placeholder [echo "No command"]. The name ["command"], which the
    trailing command's task also carries, is set aside. *)
Theorem buildGraph_no_command_placeholder (isMatch : string -> string -> bool)
        (counter : nat) (patterns : list string) (scripts : list Script)
        (command : option string) (nodes : list ExecutionNode) (n : nat)
        (name : string) (script : Script) (fc : FrunkCmd) :
  buildGraph isMatch counter patterns scripts command = Ok (nodes, n) ->
  mapGet (scriptMapOf scripts) name = Some script ->
  isFrunkCommand (s_command script) = true ->
  parseFrunkCommand (s_command script) = Some fc ->
  fc_finalCommand fc = None ->
  String.eqb name "command" = false ->
  forall nd t, In nd nodes -> In t (en_tasks nd) -> t_name t = name -> t_command t = noCommand.
Proof.
  intros H Hs Hf Hp Hfin Hname nd t Hnd Ht Htn. unfold buildGraph in H.
  destruct (buildGraphFull isMatch counter patterns scripts command)
    as [[[nodes' n'] ids]|e] eqn:E; [|discriminate].
  injection H as <- _.
  destruct (buildGraphFull_tasks isMatch counter patterns scripts command nodes' n' ids E nd t Hnd Ht)
    as [Hl|[c [_ ->]]].
  - rewrite Htn in Hl. unfold labelOf in Hl. rewrite Hs, Hf, Hp in Hl.
    injection Hl as <-. cbn. unfold finalCommandOr. rewrite Hfin. reflexivity.
  - cbn in Htn. subst name. discriminate.
Qed.

Lemma buildGraph_no_command_placeholder_witness :
  let r := buildGraph globMatch 0 ["ci"] exampleScripts None in
  r = Ok (okNodes r, okCounter r) /\
  forall nd t, In nd (okNodes r) -> In t (en_tasks nd) -> t_name t = "check" ->
  t_command t = noCommand.
Proof.
  cbv zeta. split; [vm_compute; reflexivity|].
  apply (buildGraph_no_command_placeholder globMatch 0 ["ci"] exampleScripts None _
           (okCounter (buildGraph globMatch 0 ["ci"] exampleScripts None)) "check"
           (mkScript "check" "f [lint,test:unit]") (mkFrunkCmd ["lint"; "test:unit"] None));
    vm_compute; reflexivity.
Defined.

(** C5: with a non-empty trailing command [c] and at least one pattern,
    the nodes [buildGraph] returns include a node with the single task
    ["command"] running [c]; it is the only node with its id, every other
    node runs manifest entries, and its dependencies include the node of
    every top-level target that has one. With no pattern, the only node
    is the trailing command's, with no dependency. *)
Theorem buildGraph_command_node (isMatch : string -> string -> bool) (counter : nat)
        (patterns : list string) (scripts : list Script) (c : string)
        (nodes : list ExecutionNode) (n : nat) :
  truthy c = true ->
  buildGraph isMatch counter patterns scripts (Some c) = Ok (nodes, n) ->
  0 < length patterns ->
  (exists cid deps,
     In (mkNode deps cid false [commandTask c]) nodes /\
     (forall nd, In nd nodes -> en_id nd = cid -> nd = mkNode deps cid false [commandTask c]) /\
     (forall nd t, In nd nodes -> en_id nd <> cid -> In t (en_tasks nd) ->
        labelOf (scriptMapOf scripts) (t_name t) = Some t) /\
     (forall p nd t, In p patterns -> In nd nodes -> en_id nd <> cid -> In t (en_tasks nd) ->
        t_name t = stripSeqMarker p -> In (en_id nd) deps)) /\
  buildGraph isMatch counter [] scripts (Some c)
  = Ok ([mkNode [] (nodeIdOf counter) false [commandTask c]], S counter).
Proof.
  intros Hc H Hlen. split.
  2:{ unfold buildGraph, buildGraphFull. rewrite buildGraphGraph_nil. cbv zeta.
      change (isAcyclic emptyGraph) with true.
      change (topsort emptyGraph) with (@Ok CycleException _ (@nil string)).
      cbn -[nodeIdOf]. rewrite Hc. reflexivity. }
  assert (Hp : patterns <> []) by (intros ->; simpl in Hlen; lia).
  unfold buildGraph in H.
  destruct (buildGraphFull isMatch counter patterns scripts (Some c))
    as [[[nodes' n'] ids]|e] eqn:E; [|discriminate].
  injection H as <- _.
  destruct (buildGraphGraph_command isMatch patterns scripts c Hc Hp) as [Hcmd Hedges].
  destruct (buildGraphFull_nodes isMatch counter patterns scripts (Some c) nodes' n' ids E Hp)
    as [Hnodes [Hlab [Hid [Hkey Hlook]]]].
  destruct (buildGraphFull_node isMatch counter patterns scripts (Some c) nodes' n' ids
              COMMAND_NODE_NAME (commandTask c) E Hp Hcmd) as [cid [_ [Hcin Hcnode]]].
  pose proof (proj2 (buildGraphGraph_inv isMatch patterns scripts (Some c))) as [Hlabels _].
  set (g := buildGraphGraph isMatch patterns scripts (Some c)) in *.
  exists cid, (depIds g ids COMMAND_NODE_NAME).
  assert (Hcn : nodeFor g ids (COMMAND_NODE_NAME, cid)
                = mkNode (depIds g ids COMMAND_NODE_NAME) cid false [commandTask c])
    by (unfold nodeFor, tasksOf; cbn [fst snd]; rewrite Hcmd; reflexivity).
  rewrite Hcn in Hcnode. split; [exact Hcnode|].
  assert (Hkey_of : forall nd, In nd nodes' ->
            exists k v, In (k, v) ids /\ nd = nodeFor g ids (k, v)).
  { intros nd Hnd. rewrite Hnodes in Hnd. apply in_map_iff in Hnd as [[k v] [<- Hkv]].
    exists k, v. split; [exact Hkv | reflexivity]. }
  split.
  { intros nd Hnd Hcid. destruct (Hkey_of nd Hnd) as [k [v [Hkv ->]]].
    cbn [nodeFor en_id snd] in Hcid. subst v.
    rewrite (Hid k COMMAND_NODE_NAME cid Hkv Hcin). exact Hcn. }
  assert (Hother : forall nd t, In nd nodes' -> en_id nd <> cid -> In t (en_tasks nd) ->
            exists k, In (k, en_id nd) ids /\ node g k = Some t /\
                      labelOf (scriptMapOf scripts) k = Some t).
  { intros nd t Hnd Hcid Ht. destruct (Hkey_of nd Hnd) as [k [v [Hkv ->]]].
    cbn [nodeFor en_id en_tasks snd fst] in Hcid, Ht |- *. unfold tasksOf in Ht.
    destruct (node g k) as [t'|] eqn:Ek; [|destruct Ht]. destruct Ht as [<-|[]].
    exists k. split; [exact Hkv|]. split; [exact Ek|].
    destruct (Hlabels k t' Ek) as [Hl|[-> _]]; [exact Hl|].
    exfalso. apply Hcid. exact (Hkey _ _ _ Hkv Hcin). }
  split.
  { intros nd t Hnd Hcid Ht. destruct (Hother nd t Hnd Hcid Ht) as [k [_ [_ Hl]]].
    rewrite (labelOf_name _ _ _ Hl). exact Hl. }
  intros p nd t Hpin Hnd Hcid Ht Hname.
  destruct (Hother nd t Hnd Hcid Ht) as [k [Hkv [Hk Hl]]].
  rewrite (labelOf_name _ _ _ Hl) in Hname. subst k.
  assert (He : In (COMMAND_NODE_NAME, stripSeqMarker p) (g_edges g))
    by (apply Hedges; [apply in_map; exact Hpin | exact (node_In _ _ _ Hk)]).
  unfold depIds. apply in_flat_map. exists (stripSeqMarker p).
  split; [apply successors_In; exact He|]. rewrite (Hlook _ _ Hkv). left. reflexivity.
Qed.

Lemma buildGraph_command_node_witness :
  let r := buildGraph globMatch 0 ["ci"; "lint"] exampleScripts (Some "echo done") in
  r = Ok (okNodes r, okCounter r) /\
  (exists cid deps,
     In (mkNode deps cid false [commandTask "echo done"]) (okNodes r) /\
     (forall nd, In nd (okNodes r) -> en_id nd = cid ->
        nd = mkNode deps cid false [commandTask "echo done"]) /\
     (forall nd t, In nd (okNodes r) -> en_id nd <> cid -> In t (en_tasks nd) ->
        labelOf (scriptMapOf exampleScripts) (t_name t) = Some t) /\
     (forall p nd t, In p ["ci"; "lint"] -> In nd (okNodes r) -> en_id nd <> cid ->
        In t (en_tasks nd) -> t_name t = stripSeqMarker p -> In (en_id nd) deps)) /\
  buildGraph globMatch 0 [] exampleScripts (Some "echo done")
  = Ok ([mkNode [] (nodeIdOf 0) false [commandTask "echo done"]], 1).
Proof.
  cbv zeta. split; [vm_compute; reflexivity|].
  apply (buildGraph_command_node globMatch 0 ["ci"; "lint"] exampleScripts "echo done" _
           (okCounter (buildGraph globMatch 0 ["ci"; "lint"] exampleScripts (Some "echo done"))));
    [vm_compute; reflexivity | vm_compute; reflexivity | simpl; lia].
Defined.

(** C1 (counterexample): the manifest entry named ["command"] and the
    trailing command's node both carry a task named ["command"], so the
    name ["command"], reached from the one dependent ["a"], has two nodes. *)
Lemma buildGraph_command_name_twice :
  let r := buildGraph globMatch 0 ["a"] collisionScripts (Some "echo t") in
  r = Ok (okNodes r, 3) /\
  memb "command" (depsOf globMatch (scriptMapOf collisionScripts) "a") = true /\
  length (filter (fun nd => existsb (fun t => String.eqb (t_name t) "command") (en_tasks nd))
                 (okNodes r)) = 2.
Proof. cbv zeta. split; [|split]; vm_compute; reflexivity. Qed.

(** C1 (amended): let [d] be a name other than ["command"] that some
    returned node's task carries. Exactly one returned node has a task
    named [d]; call its id [did]. No node lists [did] twice; every node
    whose task is a manifest entry (not named ["command"]) resolving [d]
    among its dependencies lists [did]; and the nodes listing [did] are
    as many as the labelled predecessors of [d] in the graph [buildGraph]
    checks (the entries resolving [d], the next sequential group and the
    trailing command's node). *)
Theorem buildGraph_one_node_per_dependency (isMatch : string -> string -> bool)
        (counter : nat) (patterns : list string) (scripts : list Script)
        (command : option string) (nodes : list ExecutionNode) (n : nat) (d : string) :
  buildGraph isMatch counter patterns scripts command = Ok (nodes, n) ->
  String.eqb d "command" = false ->
  (exists nd t, In nd nodes /\ In t (en_tasks nd) /\ t_name t = d) ->
  let g := buildGraphGraph isMatch patterns scripts command in
  exists did,
    length (filter (fun nd => existsb (fun t => String.eqb (t_name t) d) (en_tasks nd)) nodes)
      = 1 /\
    (forall nd t, In nd nodes -> In t (en_tasks nd) -> t_name t = d -> en_id nd = did) /\
    (forall nd, In nd nodes -> count_occ string_dec (en_dependencies nd) did <= 1) /\
    (forall nd t, In nd nodes -> In t (en_tasks nd) -> String.eqb (t_name t) "command" = false ->
       In d (depsOf isMatch (scriptMapOf scripts) (t_name t)) -> In did (en_dependencies nd)) /\
    length (filter (fun nd => memb did (en_dependencies nd)) nodes)
      = length (labeledIn g (predecessors g d)).
Proof.
  intros H Hd [nd0 [t0 [Hnd0 [Ht0 Hn0]]]]. cbv zeta. unfold buildGraph in H.
  apply String.eqb_neq in Hd.
  destruct (buildGraphFull isMatch counter patterns scripts command)
    as [[[nodes' n'] ids]|e] eqn:E; [|discriminate].
  injection H as <- _.
  destruct (buildGraphFull_spec isMatch counter patterns scripts command nodes' n' ids E)
    as [order [_ [Hnd [Hmem [_ [Hids [[Hp Hnodes]|[_ [_ [x [Hx [_ Htx]]]]]]]]]]]].
  2:{ exfalso. rewrite Hx in Hnd0. destruct Hnd0 as [<-|[]].
      destruct Htx as [Htx|[c [_ Htx]]]; rewrite Htx in Ht0; [destruct Ht0|].
      destruct Ht0 as [<-|[]]. apply Hd. rewrite <- Hn0. reflexivity. }
  destruct (buildGraphFull_nodes isMatch counter patterns scripts command nodes' n' ids E Hp)
    as [_ [Hlab [Hsameid [Hsamekey Hlook]]]].
  pose proof (buildGraphGraph_inv isMatch patterns scripts command) as [[_ [HndE Hend]] _].
  pose proof (buildGraphGraph_label_name isMatch patterns scripts command) as Hlname.
  pose proof (buildGraphGraph_dep_edge isMatch patterns scripts command) as Hdep.
  set (g := buildGraphGraph isMatch patterns scripts command) in *.
  assert (HndK : NoDup (map fst ids))
    by (rewrite Hids, map_fst_idsFrom; apply NoDup_filter; exact Hnd).
  assert (HndI : NoDup ids) by (apply (NoDup_map_inv fst); exact HndK).
  assert (Hname : forall k t, node g k = Some t -> t_name t = d -> k = d).
  { intros k t Hk Ht. destruct (Hlname k t Hk) as [Hn|Hn]; [congruence|].
    rewrite Hn in Ht. exfalso. apply Hd. congruence. }
  assert (Htask : forall k t, In t (tasksOf g k) -> node g k = Some t).
  { intros k t. unfold tasksOf. destruct (node g k) as [t'|]; [|intros []].
    intros [<-|[]]. reflexivity. }
  rewrite Hnodes in Hnd0. apply in_map_iff in Hnd0 as [[k0 v0] [<- Hkv0]].
  apply Htask in Ht0. cbn [fst] in Ht0. assert (k0 = d) as -> by exact (Hname _ _ Ht0 Hn0).
  assert (Hsucc : forall k, In v0 (depIds g ids k) <-> In (k, d) (g_edges g)).
  { intros k. unfold depIds. rewrite in_flat_map. split.
    - intros [w [Hw Hv]]. destruct (idLookup ids w) as [v|] eqn:Ew; [|destruct Hv].
      destruct Hv as [<-|[]]. apply idLookup_In in Ew.
      rewrite <- (Hsameid _ _ _ Ew Hkv0). apply successors_In. exact Hw.
    - intros Hk. exists d. split; [apply successors_In; exact Hk|].
      rewrite (Hlook _ _ Hkv0). left. reflexivity. }
  exists v0. split; [|split; [|split; [|split]]].
  - rewrite Hnodes, length_filter_map. apply (filter_single _ _ (d, v0) HndI Hkv0).
    intros [k v] Hkv. cbn [nodeFor en_tasks fst snd]. rewrite existsb_exists. split.
    + intros [t [Ht Htn]]. apply String.eqb_eq in Htn. apply Htask in Ht.
      assert (k = d) as -> by exact (Hname _ _ Ht Htn).
      rewrite (Hsamekey _ _ _ Hkv Hkv0). reflexivity.
    + intros Heq. injection Heq as -> ->. exists t0. split.
      * unfold tasksOf. rewrite Ht0. left. reflexivity.
      * apply String.eqb_eq. exact Hn0.
  - intros nd t Hnd' Ht Htn. rewrite Hnodes in Hnd'.
    apply in_map_iff in Hnd' as [[k v] [<- Hkv]]. cbn [nodeFor en_id en_tasks fst snd] in *.
    apply Htask in Ht. assert (k = d) as -> by exact (Hname _ _ Ht Htn).
    exact (Hsamekey _ _ _ Hkv Hkv0).
  - intros nd Hnd'. rewrite Hnodes in Hnd'.
    apply in_map_iff in Hnd' as [[k v] [<- _]]. cbn [nodeFor en_dependencies fst].
    apply NoDup_count_occ. unfold depIds. apply NoDup_flat_map_partial.
    + apply NoDup_successors. exact HndE.
    + intros a b w _ _ Ha Hb. apply idLookup_In in Ha, Hb. exact (Hsameid _ _ _ Ha Hb).
  - intros nd t Hnd' Ht Htn Hdeps. rewrite Hnodes in Hnd'.
    apply in_map_iff in Hnd' as [[k v] [<- _]]. cbn [nodeFor en_dependencies en_tasks fst] in *.
    apply Htask in Ht.
    assert (Hk : t_name t = k).
    { destruct (Hlname k t Ht) as [Hn|Hn]; [exact Hn|]. apply String.eqb_neq in Htn. contradiction. }
    rewrite Hk in Hdeps. apply Hsucc. apply (Hdep k d t Ht); [|exact Hdeps].
    intros Hn. apply String.eqb_neq in Htn. contradiction.
  - rewrite Hnodes, length_filter_map.
    transitivity (length (filter (fun k => memb v0 (depIds g ids k)) (map fst ids)));
      [rewrite length_filter_map; reflexivity|].
    replace (map fst ids) with (labeledIn g order) by (rewrite Hids, map_fst_idsFrom; reflexivity).
    apply NoDup_same_length.
    + apply NoDup_filter. apply NoDup_filter. exact Hnd.
    + apply NoDup_filter. apply NoDup_predecessors. exact HndE.
    + intros k. unfold labeledIn. rewrite !filter_In, memb_In, Hsucc, predecessors_In.
      split.
      * intros [[_ Hl] He]. split; [exact He | exact Hl].
      * intros [He Hl]. split; [|exact He]. split; [|exact Hl].
        apply Hmem. exact (proj1 (Hend _ _ He)).
Qed.

Lemma buildGraph_one_node_per_dependency_witness :
  let r := buildGraph globMatch 0 ["ci"] exampleScripts None in
  r = Ok (okNodes r, okCounter r) /\ String.eqb "lint" "command" = false /\
  let g := buildGraphGraph globMatch ["ci"] exampleScripts None in
  exists did,
    length (filter (fun nd => existsb (fun t => String.eqb (t_name t) "lint") (en_tasks nd))
                   (okNodes r)) = 1 /\
    (forall nd t, In nd (okNodes r) -> In t (en_tasks nd) -> t_name t = "lint" -> en_id nd = did) /\
    (forall nd, In nd (okNodes r) -> count_occ string_dec (en_dependencies nd) did <= 1) /\
    (forall nd t, In nd (okNodes r) -> In t (en_tasks nd) -> String.eqb (t_name t) "command" = false ->
       In "lint" (depsOf globMatch (scriptMapOf exampleScripts) (t_name t)) ->
       In did (en_dependencies nd)) /\
    length (filter (fun nd => memb did (en_dependencies nd)) (okNodes r))
      = length (labeledIn g (predecessors g "lint")).
Proof.
  cbv zeta. split; [vm_compute; reflexivity|]. split; [reflexivity|].
  apply (buildGraph_one_node_per_dependency globMatch 0 ["ci"] exampleScripts None _
           (okCounter (buildGraph globMatch 0 ["ci"] exampleScripts None)) "lint");
    [vm_compute; reflexivity | reflexivity |].
  exists (mkNode [] "node_2" false [mkTask "biome check" [] "lint"]),
         (mkTask "biome check" [] "lint").
  split; [vm_compute; repeat (first [left; reflexivity | right])|].
  split; [left; reflexivity | reflexivity].
Defined.

(** C2: when a dependency cycle through [c] is reachable from a target,
    [buildGraph] returns the circular-dependency error carrying
    [findCycles] of its graph, before any node is built; the strongly
    connected component of [c] is among the reported cycles and holds
    every entry on a dependency cycle through [c]. *)
Theorem buildGraph_cycle_error (isMatch : string -> string -> bool) (counter : nat)
        (patterns : list string) (scripts : list Script) (command : option string)
        (t c : string) :
  In t (map stripSeqMarker patterns) ->
  dstar isMatch (scriptMapOf scripts) t c ->
  dplus isMatch (scriptMapOf scripts) c c ->
  let g := buildGraphGraph isMatch patterns scripts command in
  buildGraph isMatch counter patterns scripts command = Error (CircularDependency (findCycles g)) /\
  In (component g c) (findCycles g) /\
  (forall w, dplus isMatch (scriptMapOf scripts) c w -> dplus isMatch (scriptMapOf scripts) w c ->
     In w (component g c)).
Proof.
  intros Ht Hs Hp. cbv zeta.
  set (sm := scriptMapOf scripts) in *.
  set (gd := discover isMatch sm (map stripSeqMarker patterns)).
  pose proof (proj1 (buildGraphGraph_inv isMatch patterns scripts command)) as Hwf.
  destruct (buildGraphGraph_from_discover isMatch patterns scripts command) as [Hsub _].
  fold sm gd in Hsub.
  destruct (dplus_first isMatch sm c c Hp) as [x Hx].
  assert (Htl : node gd t <> None).
  { apply (proj2 (discover_complete isMatch sm (map stripSeqMarker patterns))); [exact Ht|].
    exact (dstar_mapHas isMatch sm t c x Hs Hx). }
  assert (Hcl : node gd c <> None) by exact (discover_dstar isMatch sm _ t c x Htl Hs Hx).
  assert (Hreach : forall a b, node gd a <> None -> dplus isMatch sm a b ->
            greach (buildGraphGraph isMatch patterns scripts command) a b).
  { intros a b Ha Hab. apply (greach_mono gd); [exact Hsub|].
    exact (discover_greach isMatch sm _ a b Ha Hab). }
  assert (Hcc := Hreach c c Hcl Hp).
  destruct (findCycles_member _ c Hwf Hcc) as [Hin Hmem].
  split; [|split; [exact Hin|]].
  - unfold buildGraph, buildGraphFull. cbv zeta.
    rewrite (topsort_cycle _ Hwf c Hcc). reflexivity.
  - intros w Hcw Hwc. apply Hmem; [exact (Hreach c w Hcl Hcw)|].
    apply Hreach; [|exact Hwc].
    destruct (dplus_first isMatch sm w c Hwc) as [y Hy].
    exact (discover_dstar isMatch sm _ c w y Hcl (dplus_dstar isMatch sm c w Hcw) Hy).
Qed.

Lemma buildGraph_cycle_error_witness :
  let g := buildGraphGraph globMatch ["a"] cycleScripts (Some "echo x") in
  findCycles g = [["a"; "b"; "c"]] /\
  (buildGraph globMatch 0 ["a"] cycleScripts (Some "echo x")
     = Error (CircularDependency (findCycles g)) /\
   In (component g "a") (findCycles g) /\
   (forall w, dplus globMatch (scriptMapOf cycleScripts) "a" w ->
      dplus globMatch (scriptMapOf cycleScripts) w "a" -> In w (component g "a"))).
Proof.
  cbv zeta. split; [vm_compute; reflexivity|].
  apply (buildGraph_cycle_error globMatch 0 ["a"] cycleScripts (Some "echo x") "a" "a").
  - vm_compute. left. reflexivity.
  - apply dstar_refl.
  - apply (dplus_step _ _ "a" "b" "a"); [vm_compute; left; reflexivity|].
    apply (dplus_step _ _ "b" "c" "a"); [vm_compute; left; reflexivity|].
    apply dplus_one. vm_compute. left. reflexivity.
Defined.

(** C6 (counterexample): the list [[test:*,missing]] of ["ci"] holds the
    unknown name ["missing"]; resolution of the whole list throws, and the
    fallback keeps only its literal manifest names, none here. The entry
    ["test:unit"], which the glob [test:*] of the same list names, gets no
    node and no edge; without ["missing"] it gets both. *)
Lemma buildGraph_unknown_name_drops_glob :
  buildGraph globMatch 0 ["ci"] unknownDepScripts None
  = Ok ([mkNode [] "node_0" false [mkTask "echo ok" [] "ci"]], 1) /\
  mapHas (scriptMapOf unknownDepScripts) "test:unit" = true /\
  globMatch "test:*" "test:unit" = true /\
  buildGraph globMatch 0 ["ci"]
    [mkScript "test:unit" "vitest run"; mkScript "ci" "f [test:*] -- echo ok"] None
  = Ok ([mkNode [] "node_0" false [mkTask "vitest run" [] "test:unit"];
         mkNode ["node_0"] "node_1" false [mkTask "echo ok" [] "ci"]], 2).
Proof. split; [|split; [|split]]; vm_compute; reflexivity. Qed.

(** C6 (amended): let the orchestration invocation of the manifest entry
    [u] list a name [p] that is literal (no ["!"] or ["SEQ:"] prefix, no
    glob character), not empty, and neither a manifest name nor matched
    by one. Then the dependencies of [u] are exactly the names of its list
    that are manifest entries: globs and exclusions of the list are
    dropped with [p]. [buildGraph] throws only when its graph is cyclic.
    When it succeeds, no node has a task named [p] (for [p] other than
    ["command"]), and the node of [u] lists, for each manifest name [d]
    of the list (other than the trailing command's reserved key), the id
    of a node whose task is named [d]. *)
Theorem buildGraph_unknown_nested_name (isMatch : string -> string -> bool) (counter : nat)
        (patterns : list string) (scripts : list Script) (command : option string)
        (u : string) (script : Script) (fc : FrunkCmd) (p : string) :
  mapGet (scriptMapOf scripts) u = Some script ->
  isFrunkCommand (s_command script) = true ->
  parseFrunkCommand (s_command script) = Some fc ->
  memb p (fc_dependencies fc) = true -> literalName p = true -> isGlobPattern p = false ->
  String.eqb p "" = false -> memb p (map s_name scripts) = false ->
  filter (isMatch p) (map s_name scripts) = [] ->
  let sm := scriptMapOf scripts in
  let g := buildGraphGraph isMatch patterns scripts command in
  depsOf isMatch sm u = filter (mapHas sm) (fc_dependencies fc) /\
  (forall e, buildGraph isMatch counter patterns scripts command = Error e ->
     isAcyclic g = false /\ e = CircularDependency (findCycles g)) /\
  (forall nodes n, buildGraph isMatch counter patterns scripts command = Ok (nodes, n) ->
     (String.eqb p "command" = false ->
        forall nd t, In nd nodes -> In t (en_tasks nd) -> t_name t <> p) /\
     (forall nd t, In nd nodes -> In t (en_tasks nd) -> t_name t = u ->
        String.eqb u "command" = false ->
        forall d, In d (fc_dependencies fc) -> mapHas sm d = true ->
        String.eqb d COMMAND_NODE_NAME = false ->
        exists nd' t', In nd' nodes /\ In t' (en_tasks nd') /\ t_name t' = d /\
                       In (en_id nd') (en_dependencies nd))).
Proof.
  intros Hs Hf Hp Hin Hlit Hglob Hne Hname Hmm. cbv zeta.
  apply memb_In in Hin. apply String.eqb_neq in Hne.
  assert (Hname' : ~ In p (map s_name scripts))
    by (intros H; apply memb_In in H; congruence).
  assert (Hdeps : depsOf isMatch (scriptMapOf scripts) u
                  = filter (mapHas (scriptMapOf scripts)) (fc_dependencies fc)).
  { unfold depsOf. rewrite Hs, Hf, Hp. exact (resolveDeps_unknown isMatch scripts fc p Hin Hlit Hglob Hne Hname' Hmm). }
  split; [exact Hdeps|]. split; [intros e He; exact (buildGraph_error isMatch counter patterns scripts command e He)|].
  intros nodes n H. unfold buildGraph in H.
  destruct (buildGraphFull isMatch counter patterns scripts command)
    as [[[nodes' n'] ids]|e] eqn:E; [|discriminate].
  injection H as <- _.
  split.
  - intros Hpc nd t Hnd Ht Htn. apply String.eqb_neq in Hpc.
    destruct (buildGraphFull_tasks isMatch counter patterns scripts command nodes' n' ids E nd t Hnd Ht)
      as [Hl|[c [_ ->]]].
    + rewrite Htn in Hl. unfold labelOf in Hl. rewrite (scriptMapOf_get_None scripts p Hname') in Hl.
      discriminate.
    + apply Hpc. rewrite <- Htn. reflexivity.
  - intros nd t Hnd Ht Htn Hu d Hd Hmd Hdc.
    apply String.eqb_neq in Hu, Hdc.
    destruct (buildGraphFull_spec isMatch counter patterns scripts command nodes' n' ids E)
      as [order [_ [_ [_ [_ [_ [[Hpat Hnodes]|[_ [_ [x [Hx [_ Htx]]]]]]]]]]]].
    2:{ exfalso. rewrite Hx in Hnd. destruct Hnd as [<-|[]].
        destruct Htx as [Htx|[c [_ Htx]]]; rewrite Htx in Ht; [destruct Ht|].
        destruct Ht as [<-|[]]. apply Hu. rewrite <- Htn. reflexivity. }
    pose proof (buildGraphGraph_inv isMatch patterns scripts command) as [_ [Hlab _]].
    pose proof (buildGraphGraph_dep_edge isMatch patterns scripts command) as Hdep.
    destruct (buildGraphGraph_from_discover isMatch patterns scripts command) as [_ Hnode].
    set (g := buildGraphGraph isMatch patterns scripts command) in *.
    rewrite Hnodes in Hnd. apply in_map_iff in Hnd as [[k v] [<- Hkv]].
    unfold nodeFor, tasksOf in Ht. cbn [fst snd en_tasks] in Ht.
    destruct (node g k) as [t0|] eqn:Ek; [|destruct Ht]. destruct Ht as [<-|[]].
    assert (Hku : k = u).
    { destruct (Hlab k t0 Ek) as [Hl|[_ [c [_ Hc]]]].
      - rewrite <- (labelOf_name _ _ _ Hl). exact Htn.
      - exfalso. apply Hu. rewrite <- Htn, Hc. reflexivity. }
    subst k.
    assert (Hdu : In d (depsOf isMatch (scriptMapOf scripts) u))
      by (rewrite Hdeps; apply filter_In; split; assumption).
    assert (Hedge : In (u, d) (g_edges g)).
    { apply (Hdep u d t0 Ek); [|exact Hdu]. rewrite Htn. exact Hu. }
    assert (Hdl : node g d <> None).
    { apply buildGraphGraph_labels.
      apply (proj1 (discover_complete isMatch (scriptMapOf scripts) (map stripSeqMarker patterns))
               u d); [|exact Hdu | exact Hmd].
      rewrite (Hnode u t0 Ek); [discriminate|]. rewrite Htn. exact Hu. }
    destruct (node g d) as [td|] eqn:Ed; [|exfalso; apply Hdl; reflexivity].
    destruct (buildGraphFull_node isMatch counter patterns scripts command nodes' n' ids d td E Hpat Ed)
      as [vd [Hvd [_ Hnd']]].
    exists (nodeFor g ids (d, vd)), td. split; [exact Hnd'|]. split.
    + unfold nodeFor, tasksOf. cbn [fst en_tasks]. rewrite Ed. left. reflexivity.
    + split.
      * destruct (Hlab d td Ed) as [Hl|[Hc _]]; [exact (labelOf_name _ _ _ Hl) | contradiction].
      * cbn [nodeFor en_id en_dependencies fst snd]. unfold depIds. apply in_flat_map.
        exists d. split; [apply successors_In; exact Hedge|]. rewrite Hvd. left. reflexivity.
Qed.

Lemma buildGraph_unknown_nested_name_witness :
  let sm := scriptMapOf mixedDepScripts in
  let g := buildGraphGraph globMatch ["ci"] mixedDepScripts None in
  buildGraph globMatch 0 ["ci"] mixedDepScripts None
  = Ok (okNodes (buildGraph globMatch 0 ["ci"] mixedDepScripts None), 2) /\
  (depsOf globMatch sm "ci" = filter (mapHas sm) ["build"; "test:*"; "missing"] /\
  (forall e, buildGraph globMatch 0 ["ci"] mixedDepScripts None = Error e ->
     isAcyclic g = false /\ e = CircularDependency (findCycles g)) /\
  (forall nodes n, buildGraph globMatch 0 ["ci"] mixedDepScripts None = Ok (nodes, n) ->
     (String.eqb "missing" "command" = false ->
        forall nd t, In nd nodes -> In t (en_tasks nd) -> t_name t <> "missing") /\
     (forall nd t, In nd nodes -> In t (en_tasks nd) -> t_name t = "ci" ->
        String.eqb "ci" "command" = false ->
        forall d, In d ["build"; "test:*"; "missing"] -> mapHas sm d = true ->
        String.eqb d COMMAND_NODE_NAME = false ->
        exists nd' t', In nd' nodes /\ In t' (en_tasks nd') /\ t_name t' = d /\
                       In (en_id nd') (en_dependencies nd)))).
Proof.
  cbv zeta. split; [vm_compute; reflexivity|].
  apply (buildGraph_unknown_nested_name globMatch 0 ["ci"] mixedDepScripts None "ci"
           (mkScript "ci" "f [build,test:*,missing] -- echo ok")
           (mkFrunkCmd ["build"; "test:*"; "missing"] (Some "echo ok")) "missing");
    vm_compute; reflexivity.
Defined.

(** C4: for the target list of [[a,b]->[c,d]], that is [SEQ0:a],
    [SEQ0:b], [SEQ1:c], [SEQ1:d], where [a], [b], [c], [d] are distinct
    manifest entries with plain shell commands, [buildGraph] returns a
    node for each of them; the nodes of [a] and [b] have no dependencies,
    and the nodes of [c] and [d] each have exactly two, the ids of the
    nodes of [a] and [b]. *)
Theorem buildGraph_sequential_groups (isMatch : string -> string -> bool) (counter : nat)
        (scripts : list Script) (command : option string) (a b c d : string)
        (nodes : list ExecutionNode) (n : nat) :
  forallb (fun x => seqName x && plainEntry (scriptMapOf scripts) x
                    && negb (String.eqb x COMMAND_NODE_NAME)) [a; b; c; d] = true ->
  distinctb [a; b; c; d] = true ->
  buildGraph isMatch counter (twoGroupTargets a b c d) scripts command = Ok (nodes, n) ->
  exists na nb nc nd,
    In na nodes /\ In nb nodes /\ In nc nodes /\ In nd nodes /\
    map t_name (en_tasks na) = [a] /\ map t_name (en_tasks nb) = [b] /\
    map t_name (en_tasks nc) = [c] /\ map t_name (en_tasks nd) = [d] /\
    en_dependencies na = [] /\ en_dependencies nb = [] /\ en_id na <> en_id nb /\
    (forall x, In x (en_dependencies nc) <-> x = en_id na \/ x = en_id nb) /\
    length (en_dependencies nc) = 2 /\
    (forall x, In x (en_dependencies nd) <-> x = en_id na \/ x = en_id nb) /\
    length (en_dependencies nd) = 2.
Proof.
  intros Hn Hd H. unfold buildGraph in H.
  destruct (buildGraphFull isMatch counter (twoGroupTargets a b c d) scripts command)
    as [[[nodes' n'] ids]|e] eqn:E; [|discriminate].
  injection H as <- _.
  apply distinctb_NoDup in Hd.
  apply NoDup_cons_iff in Hd as [Ha Hd]. apply NoDup_cons_iff in Hd as [Hb Hd].
  apply NoDup_cons_iff in Hd as [Hc _].
  cbn [In] in Ha, Hb, Hc.
  destruct (buildGraphFull_nodes isMatch counter (twoGroupTargets a b c d) scripts command
              nodes' n' ids E ltac:(discriminate)) as [_ [_ [Hinj _]]].
  pose proof (buildGraphGraph_inv isMatch (twoGroupTargets a b c d) scripts command)
    as [[_ [HndE _]] _].
  pose proof (twoGroups_edges isMatch scripts command a b c d Hn) as Hedges.
  set (g := buildGraphGraph isMatch (twoGroupTargets a b c d) scripts command) in *.
  destruct (twoGroups_node isMatch counter scripts command a b c d nodes' n' ids Hn E a
              ltac:(cbn; tauto)) as [va [Hva [Hina [Hnda Hta]]]].
  destruct (twoGroups_node isMatch counter scripts command a b c d nodes' n' ids Hn E b
              ltac:(cbn; tauto)) as [vb [Hvb [Hinb [Hndb Htb]]]].
  destruct (twoGroups_node isMatch counter scripts command a b c d nodes' n' ids Hn E c
              ltac:(cbn; tauto)) as [vc [_ [_ [Hndc Htc]]]].
  destruct (twoGroups_node isMatch counter scripts command a b c d nodes' n' ids Hn E d
              ltac:(cbn; tauto)) as [vd [_ [_ [Hndd Htd]]]].
  fold g in Hnda, Hndb, Hndc, Hndd, Hta, Htb, Htc, Htd.
  assert (Hvab : va <> vb).
  { intros Heq. rewrite <- Heq in Hinb. apply Ha. left. exact (Hinj b a va Hinb Hina). }
  (* the first group has no outgoing edge *)
  assert (Hfirst : forall y, In y [a; b] -> depIds g ids y = []).
  { intros y Hy. unfold depIds.
    destruct (successors g y) as [|w ws] eqn:Es; [reflexivity|]. exfalso.
    assert (Hw : In (y, w) (g_edges g)) by (apply successors_In; rewrite Es; left; reflexivity).
    apply Hedges in Hw as [Hy' _]; [|destruct Hy as [<-|[<-|[]]]; cbn; tauto].
    destruct Hy as [<-|[<-|[]]]; destruct Hy' as [Hy'|[Hy'|[]]]; subst; tauto. }
  (* the second group depends on both nodes of the first *)
  assert (Hsecond : forall y, In y [c; d] ->
            (forall x, In x (depIds g ids y) <-> x = va \/ x = vb) /\ length (depIds g ids y) = 2).
  { intros y Hy.
    assert (Hy4 : In y [a; b; c; d]) by (destruct Hy as [<-|[<-|[]]]; cbn; tauto).
    assert (Hmem : forall x, In x (depIds g ids y) <-> x = va \/ x = vb).
    { intros x. unfold depIds. rewrite in_flat_map. split.
      - intros [w [Hw Hx]]. apply successors_In, Hedges in Hw as [_ Hw]; [|exact Hy4].
        destruct Hw as [<-|[<-|[]]]; [rewrite Hva in Hx|rewrite Hvb in Hx];
          destruct Hx as [<-|[]]; tauto.
      - intros [->| ->].
        + exists a. split; [apply successors_In, Hedges; [exact Hy4|]; split; [exact Hy|cbn; tauto]|].
          rewrite Hva. left. reflexivity.
        + exists b. split; [apply successors_In, Hedges; [exact Hy4|]; split; [exact Hy|cbn; tauto]|].
          rewrite Hvb. left. reflexivity. }
    split; [exact Hmem|].
    assert (Hnd : NoDup (depIds g ids y)).
    { apply NoDup_flat_map_partial; [apply NoDup_successors; exact HndE|].
      intros x1 x2 v _ _ H1 H2.
      exact (Hinj x1 x2 v (idLookup_In _ _ _ H1) (idLookup_In _ _ _ H2)). }
    apply Nat.le_antisymm.
    - change 2 with (length [va; vb]). apply NoDup_incl_length; [exact Hnd|].
      intros x Hx. apply Hmem in Hx as [->| ->]; cbn; tauto.
    - change 2 with (length [va; vb]). apply NoDup_incl_length.
      + constructor; [cbn; intros [H|[]]; congruence|constructor; [intros []|constructor]].
      + intros x [<-|[<-|[]]]; apply Hmem; tauto. }
  exists (nodeFor g ids (a, va)), (nodeFor g ids (b, vb)), (nodeFor g ids (c, vc)),
    (nodeFor g ids (d, vd)).
  cbn [nodeFor en_dependencies en_id en_tasks fst snd].
  destruct (Hsecond c ltac:(cbn; tauto)) as [Hmc Hlc].
  destruct (Hsecond d ltac:(cbn; tauto)) as [Hmd Hld].
  repeat split; try assumption.
  - apply Hfirst. cbn; tauto.
  - apply Hfirst. cbn; tauto.
  - apply Hmc.
  - apply Hmc.
  - apply Hmd.
  - apply Hmd.
Qed.

Lemma buildGraph_sequential_groups_witness :
  let nodes := okNodes (buildGraph globMatch 0
                 (twoGroupTargets "lint" "typecheck" "test" "deploy") seqScripts None) in
  buildGraph globMatch 0 (twoGroupTargets "lint" "typecheck" "test" "deploy") seqScripts None
  = Ok (nodes, 4) /\
  exists na nb nc nd,
    In na nodes /\ In nb nodes /\ In nc nodes /\ In nd nodes /\
    map t_name (en_tasks na) = ["lint"] /\ map t_name (en_tasks nb) = ["typecheck"] /\
    map t_name (en_tasks nc) = ["test"] /\ map t_name (en_tasks nd) = ["deploy"] /\
    en_dependencies na = [] /\ en_dependencies nb = [] /\ en_id na <> en_id nb /\
    (forall x, In x (en_dependencies nc) <-> x = en_id na \/ x = en_id nb) /\
    length (en_dependencies nc) = 2 /\
    (forall x, In x (en_dependencies nd) <-> x = en_id na \/ x = en_id nb) /\
    length (en_dependencies nd) = 2.
Proof.
  cbv zeta. split; [vm_compute; reflexivity|].
  apply (buildGraph_sequential_groups globMatch 0 seqScripts None "lint" "typecheck" "test"
           "deploy" _ 4); vm_compute; reflexivity.
Defined.

End Claims.

Module Extras.
Import Facts.

(** X1: [extractCommand] splits the arguments at the first ["--"]: without
    one, all arguments are processed and there is no command; with one,
    the arguments are exactly those before it, ["--"], and those after it,
    which are joined with single spaces into the command. *)
Theorem extractCommand_split (args : list string) :
  match Parser.extractCommand args with
  | (before, None) => before = args /\ ~ In "--" args
  | (before, Some c) =>
      exists after, args = before ++ "--" :: after /\ ~ In "--" before /\ c = joinSpace after
  end.
Proof.
  unfold Parser.extractCommand. pose proof (splitAtSeparator_spec args) as H.
  destruct (Parser.splitAtSeparator args) as [before [after|]]; cbn [option_map].
  - exists after. destruct H as [H1 H2]. split; [exact H1|]. split; [exact H2|reflexivity].
  - exact H.
Qed.

(** X2: patterns and flags never change the command: when [parse]
    succeeds its command is the one [extractCommand] found, and [parse]
    throws only when that command starts with ["f "] or ["frunk "]. *)
Theorem parse_command (args : list string) :
  (forall r, Parser.parse args = Ok r -> Parser.pc_command r = snd (Parser.extractCommand args)) /\
  (forall e, Parser.parse args = Error e ->
     exists c, snd (Parser.extractCommand args) = Some c /\
               (startsWith c "f " || startsWith c "frunk ") = true).
Proof.
  unfold Parser.parse. destruct (Parser.extractCommand args) as [before [c|]]; cbn [snd].
  - destruct (startsWith c "f " || startsWith c "frunk ") eqn:E.
    + split; [discriminate|]. intros e _. exists c. split; [reflexivity|exact E].
    + split; [|discriminate]. intros r H. injection H as <-.
      rewrite fold_processArg_command. reflexivity.
  - split; [|discriminate]. intros r H. injection H as <-.
    rewrite fold_processArg_command. reflexivity.
Qed.

(** X3: every pattern [parsePatternGroup] returns for a bracket group, and
    every part [splitByArrow] returns for a chain, is non-empty and has no
    leading or trailing whitespace. *)
Theorem parser_parts_clean (input : string) :
  Forall cleanPart (Parser.parsePatternGroup input) /\
  Forall cleanPart (Parser.splitByArrow input).
Proof.
  split; [apply groupLoop_clean | apply arrowLoop_clean]; constructor.
Qed.

(** X4: every pattern of a parsed chain carries the unindexed ["SEQ:"]
    prefix, so [parseSequentialGroups] puts the whole chain in one group and
    the sequential-edge step of [buildGraph] adds no edge for it. *)
Theorem parseSequentialChain_one_group (input : string) :
  let ps := Parser.parseSequentialChain input in
  (forall p, In p ps -> exists x, p = ("SEQ:" ++ x)%string) /\
  parseSequentialGroups ps = match ps with [] => [] | _ => [ps] end /\
  (forall g, addSequentialEdges (parseSequentialGroups ps) g = g).
Proof.
  cbv zeta.
  assert (Htag : forall p, In p (Parser.parseSequentialChain input) ->
                 exists x, p = ("SEQ:" ++ x)%string).
  { intros p Hp. unfold Parser.parseSequentialChain in Hp.
    apply in_map_iff in Hp as [part [<- _]]. apply formatSequentialPart_tag. }
  assert (Hg : parseSequentialGroups (Parser.parseSequentialChain input)
               = match Parser.parseSequentialChain input with [] => [] | _ => [Parser.parseSequentialChain input] end).
  { apply parseSequentialGroups_untagged. intros p Hp.
    destruct (Htag p Hp) as [x ->]. apply seqIndexCapture_seq_colon. }
  split; [exact Htag|]. split; [exact Hg|].
  intros g. rewrite Hg. destruct (Parser.parseSequentialChain input); reflexivity.
Qed.

(** X5: the dependency names [parseFrunkCommand] extracts from an
    orchestration invocation are non-empty and have no leading or trailing
    whitespace. *)
Theorem parseFrunkCommand_deps_clean (command : string) (fc : FrunkCmd) :
  parseFrunkCommand command = Some fc -> Forall cleanPart (fc_dependencies fc).
Proof.
  unfold parseFrunkCommand.
  repeat match goal with
         | |- context [match ?x with _ => _ end] => destruct x
         | |- context [if ?b then _ else _] => destruct b
         end;
    try discriminate; intros H; injection H as <-; cbn [fc_dependencies];
    solve [constructor | apply filter_truthy_trim_clean].
Qed.

Lemma parseFrunkCommand_deps_clean_witness :
  parseFrunkCommand "f [ build , test:* ] -- echo ok"
  = Some (mkFrunkCmd ["build"; "test:*"] (Some "echo ok")) /\
  Forall cleanPart ["build"; "test:*"].
Proof.
  split; [vm_compute; reflexivity|].
  apply (parseFrunkCommand_deps_clean "f [ build , test:* ] -- echo ok"
           (mkFrunkCmd ["build"; "test:*"] (Some "echo ok"))).
  vm_compute; reflexivity.
Defined.

(** X6: [resolvePatterns] never returns a name twice. *)
Theorem resolvePatterns_NoDup_result (isMatch : string -> string -> bool)
        (patterns : list string) (scripts : list Script) (r : list string) :
  resolvePatterns isMatch patterns scripts = Ok r -> NoDup r.
Proof.
  unfold resolvePatterns. cbn [resolveF].
  destruct (forEachResult _ patterns []); [|discriminate].
  intros H. injection H as <-. apply NoDup_dedupAux.
Qed.

Lemma resolvePatterns_NoDup_result_witness :
  resolvePatterns globMatch ["test:*"; "build"; "test:unit"] exampleScripts
  = Ok ["test:unit"; "build"] /\ NoDup ["test:unit"; "build"].
Proof.
  split; [vm_compute; reflexivity|].
  apply (resolvePatterns_NoDup_result globMatch ["test:*"; "build"; "test:unit"] exampleScripts).
  vm_compute; reflexivity.
Defined.

(** X7: without ["SEQ:"] patterns, every name [resolvePatterns] returns is
    the name of a manifest entry: literal names, glob matches and
    exclusions never produce anything else. *)
Theorem resolvePatterns_manifest_names (isMatch : string -> string -> bool)
        (patterns : list string) (scripts : list Script) (r : list string) :
  forallb (fun p => negb (startsWith p "SEQ:")) patterns = true ->
  resolvePatterns isMatch patterns scripts = Ok r -> forall x, In x r -> In x (map s_name scripts).
Proof.
  intros Hs. assert (Hs' : forall p, In p patterns -> startsWith p "SEQ:" = false).
  { intros p Hp. pose proof (proj1 (forallb_forall _ _) Hs p Hp) as H.
    apply negb_true_iff in H. exact H. }
  unfold resolvePatterns. rewrite resolveF_unfold by exact Hs'.
  destruct (forEachResult _ patterns []) as [res|e] eqn:E; [|discriminate].
  intros H. injection H as <-. intros x Hx. apply In_dedupAux in Hx as [Hx _]. revert x Hx.
  refine (forEachResult_inv (fun acc => forall x, In x acc -> In x (map s_name scripts))
            _ _ [] res _ _ E); [intros x []|].
  intros p a a' _ Ha Hstep. destruct (startsWith p "!").
  - intros x Hx. apply Ha. exact (processExclusion_sub _ _ _ _ Hstep x Hx).
  - destruct (findMatches isMatch p (map s_name scripts)) as [m|] eqn:Ef; [|discriminate].
    cbn [bind] in Hstep. injection Hstep as <-. intros x Hx. apply in_app_or in Hx as [Hx|Hx].
    + exact (Ha x Hx).
    + exact (findMatches_sub _ _ _ _ Ef x Hx).
Qed.

Lemma resolvePatterns_manifest_names_witness :
  forallb (fun p => negb (startsWith p "SEQ:")) ["test:*"; "lint"; "!test:unit"] = true /\
  resolvePatterns globMatch ["test:*"; "lint"; "!test:unit"] exampleScripts
  = Ok ["lint"] /\
  (forall x, In x ["lint"] -> In x (map s_name exampleScripts)).
Proof.
  split; [reflexivity|]. split; [vm_compute; reflexivity|].
  apply (resolvePatterns_manifest_names globMatch ["test:*"; "lint"; "!test:unit"]
           exampleScripts); vm_compute; reflexivity.
Defined.

(** X8: appending an exclusion [!x], where [x] has no [*] or [?], to a
    list without ["SEQ:"] patterns removes exactly [x] from the result
    and keeps everything else in order; it never turns a success into a
    failure or the converse. *)
Theorem resolvePatterns_exclusion_last (isMatch : string -> string -> bool)
        (patterns : list string) (scripts : list Script) (x : string) :
  forallb (fun p => negb (startsWith p "SEQ:")) patterns = true ->
  includes x "*" || includes x "?" = false ->
  resolvePatterns isMatch (patterns ++ [("!" ++ x)%string]) scripts
  = (r <- resolvePatterns isMatch patterns scripts ;;
     Ok (filter (fun n => negb (String.eqb n x)) r)).
Proof.
  intros Hs Hx. assert (Hs' : forall p, In p patterns -> startsWith p "SEQ:" = false).
  { intros p Hp. pose proof (proj1 (forallb_forall _ _) Hs p Hp) as H.
    apply negb_true_iff in H. exact H. }
  unfold resolvePatterns. rewrite !resolveF_unfold.
  2: exact Hs'.
  2:{ intros p Hp. apply in_app_or in Hp as [Hp|[<-|[]]]; [exact (Hs' p Hp)|reflexivity]. }
  rewrite forEachResult_app.
  destruct (forEachResult _ patterns []) as [res|e]; [|reflexivity]. cbn [bind forEachResult].
  replace (startsWith ("!" ++ x)%string "!") with true by (destruct x; reflexivity).
  rewrite sliceFrom_bang. unfold processExclusion. rewrite Hx. cbn [bind].
  f_equal. f_equal. unfold dedup. symmetry. apply filter_dedupAux. tauto.
Qed.

Lemma resolvePatterns_exclusion_last_witness :
  forallb (fun p => negb (startsWith p "SEQ:")) ["test:*"; "lint"] = true /\
  includes "test:unit" "*" || includes "test:unit" "?" = false /\
  resolvePatterns globMatch (["test:*"; "lint"] ++ [("!" ++ "test:unit")%string]) exampleScripts
  = (r <- resolvePatterns globMatch ["test:*"; "lint"] exampleScripts ;;
     Ok (filter (fun n => negb (String.eqb n "test:unit")) r)).
Proof.
  split; [reflexivity|]. split; [reflexivity|].
  apply resolvePatterns_exclusion_last; reflexivity.
Defined.

(** X9: a list of manifest names written literally (no [!] or ["SEQ:"]
    prefix, no glob character) resolves to those names in their order,
    each once. *)
Theorem resolvePatterns_literal_names (isMatch : string -> string -> bool)
        (patterns : list string) (scripts : list Script) :
  forallb (fun p => literalName p && negb (isGlobPattern p) && memb p (map s_name scripts))
          patterns = true ->
  resolvePatterns isMatch patterns scripts = Ok (dedup patterns).
Proof.
  intros H.
  assert (Hp : forall p, In p patterns ->
             startsWith p "!" = false /\ startsWith p "SEQ:" = false /\
             isGlobPattern p = false /\ memb p (map s_name scripts) = true).
  { intros p Hin. pose proof (proj1 (forallb_forall _ _) H p Hin) as Hb.
    unfold literalName in Hb. rewrite !andb_true_iff, !negb_true_iff in Hb. tauto. }
  unfold resolvePatterns. rewrite resolveF_unfold by (intros p Hin; apply Hp; exact Hin).
  enough (Hacc : forall l acc, (forall p, In p l -> In p patterns) ->
            forEachResult (fun pattern cur =>
              if startsWith pattern "!" then processExclusion isMatch (sliceFrom 1 pattern) cur
              else (matches <- findMatches isMatch pattern (map s_name scripts) ;;
                    Ok (cur ++ matches))) l acc = Ok (acc ++ l)).
  { rewrite (Hacc patterns [] (fun p Hin => Hin)). reflexivity. }
  induction l as [|p l IH]; intros acc Hl; [rewrite app_nil_r; reflexivity|].
  cbn [forEachResult]. destruct (Hp p (Hl p (or_introl eq_refl))) as [Hb [_ [Hg Hm]]].
  rewrite Hb. unfold findMatches. rewrite Hg. unfold memb in Hm. rewrite Hm. cbn [bind].
  rewrite IH by (intros q Hq; apply Hl; right; exact Hq).
  rewrite <- app_assoc. reflexivity.
Qed.

Lemma resolvePatterns_literal_names_witness :
  forallb (fun p => literalName p && negb (isGlobPattern p) && memb p (map s_name exampleScripts))
          ["lint"; "build"; "lint"] = true /\
  resolvePatterns globMatch ["lint"; "build"; "lint"] exampleScripts
  = Ok (dedup ["lint"; "build"; "lint"]).
Proof.
  split; [reflexivity|]. apply resolvePatterns_literal_names. reflexivity.
Defined.

(** X10: when [validatePatterns] accepts a list without ["SEQ:"] patterns,
    [resolvePatterns] does not throw on it. *)
Theorem validatePatterns_then_resolves (isMatch : string -> string -> bool)
        (patterns : list string) (scripts : list Script) :
  forallb (fun p => negb (startsWith p "SEQ:")) patterns = true ->
  validatePatterns isMatch patterns scripts = Ok tt ->
  exists r, resolvePatterns isMatch patterns scripts = Ok r.
Proof.
  intros Hs Hv. assert (Hs' : forall p, In p patterns -> startsWith p "SEQ:" = false).
  { intros p Hp. pose proof (proj1 (forallb_forall _ _) Hs p Hp) as H.
    apply negb_true_iff in H. exact H. }
  pose proof (forEachResult_each _ _ Hv) as Hv'.
  unfold resolvePatterns. rewrite resolveF_unfold by exact Hs'.
  destruct (forEachResult_total (fun pattern cur =>
              if startsWith pattern "!" then processExclusion isMatch (sliceFrom 1 pattern) cur
              else (matches <- findMatches isMatch pattern (map s_name scripts) ;;
                    Ok (cur ++ matches))) patterns []) as [res Hres].
  2:{ rewrite Hres. eexists. reflexivity. }
  intros p a Hp. specialize (Hv' p Hp). unfold validatePattern in Hv'.
  rewrite (Hs' p Hp) in Hv'. destruct (startsWith p "!") eqn:Eb.
  - unfold processExclusion.
    destruct (includes (sliceFrom 1 p) "*" || includes (sliceFrom 1 p) "?") eqn:Eg.
    + unfold micromatch. destruct (sliceFrom 1 p) as [|c s] eqn:Es; [discriminate|].
      cbn [truthy String.eqb negb bind]. eexists. reflexivity.
    + eexists. reflexivity.
  - unfold hasMatches in Hv'. cbv zeta in Hv'. rewrite Eb in Hv'. cbn [negb] in Hv'.
    destruct (micromatch isMatch (map s_name scripts) p) as [m|e] eqn:Em; [|cbn [bind] in Hv'; discriminate].
    cbn [bind] in Hv'.
    unfold findMatches. destruct (isGlobPattern p) eqn:Eg.
    + rewrite Em. cbn [bind]. eexists. reflexivity.
    + destruct (existsb (String.eqb p) (map s_name scripts)); [eexists; reflexivity|].
      rewrite Em. cbn [bind]. destruct m as [|y m].
      * exfalso. cbn [length Nat.ltb Nat.leb orb] in Hv'.
        unfold isGlobPattern in Eg.
        destruct (includes p "*"); [discriminate|]. destruct (includes p "?"); [discriminate|].
        discriminate.
      * eexists. reflexivity.
Qed.

Lemma validatePatterns_then_resolves_witness :
  forallb (fun p => negb (startsWith p "SEQ:")) ["test:*"; "lint"; "!test:unit"] = true /\
  validatePatterns globMatch ["test:*"; "lint"; "!test:unit"] exampleScripts = Ok tt /\
  exists r, resolvePatterns globMatch ["test:*"; "lint"; "!test:unit"] exampleScripts = Ok r.
Proof.
  split; [reflexivity|]. split; [vm_compute; reflexivity|].
  apply validatePatterns_then_resolves; vm_compute; reflexivity.
Defined.

(** X11: [validateGraph] throws as soon as the dependency lists of the
    nodes close a cycle: a chain of "the node with id [a] depends on
    [b]" steps leading from an id back to itself. *)
Theorem validateGraph_rejects_cycle (nodes : list ExecutionNode) (u : string) :
  clos_trans _ (dependsOn nodes) u u ->
  exists cycles, validateGraph nodes = Error (CircularDependency cycles).
Proof.
  intros Hc. unfold validateGraph. cbv zeta.
  rewrite (topsort_cycle _ (wf_validationGraph nodes) u).
  - eexists. reflexivity.
  - apply (greach_of_clos_trans _ (dependsOn nodes)); [|exact Hc].
    intros a b Hab. apply validationGraph_edges, Hab.
Qed.

Lemma validateGraph_rejects_cycle_witness :
  clos_trans _ (dependsOn [mkNode ["node_1"] "node_0" false []; mkNode ["node_0"] "node_1" false []])
    "node_0" "node_0" /\
  exists cycles,
    validateGraph [mkNode ["node_1"] "node_0" false []; mkNode ["node_0"] "node_1" false []]
    = Error (CircularDependency cycles).
Proof.
  assert (Hc : clos_trans _ (dependsOn [mkNode ["node_1"] "node_0" false [];
                                        mkNode ["node_0"] "node_1" false []]) "node_0" "node_0").
  { apply t_trans with "node_1".
    - apply t_step. exists (mkNode ["node_1"] "node_0" false []).
      split; [left; reflexivity|]. split; [reflexivity|left; reflexivity].
    - apply t_step. exists (mkNode ["node_0"] "node_1" false []).
      split; [right; left; reflexivity|]. split; [reflexivity|left; reflexivity]. }
  split; [exact Hc|]. exact (validateGraph_rejects_cycle _ "node_0" Hc).
Defined.

(** X12: the nodes [buildGraph] returns are numbered consecutively from
    the builder's counter, [node_counter], [node_counter+1], ..., in the
    order of the array, and the new counter is the old one plus the
    number of nodes. *)
Theorem buildGraph_consecutive_ids (isMatch : string -> string -> bool) (counter : nat)
        (patterns : list string) (scripts : list Script) (command : option string)
        (nodes : list ExecutionNode) (n : nat) :
  buildGraph isMatch counter patterns scripts command = Ok (nodes, n) ->
  (forall i x, nth_error nodes i = Some x -> en_id x = nodeIdOf (counter + i)) /\
  n = counter + length nodes.
Proof.
  intros H. destruct (buildGraph_ids_counter _ _ _ _ _ _ _ H) as [Hm Hn].
  split; [|exact Hn]. intros i x Hx.
  assert (Hi : i < length nodes) by (apply nth_error_Some; congruence).
  pose proof (f_equal (fun l => nth_error l i) Hm) as Hnth. cbn beta in Hnth.
  rewrite !nth_error_map, Hx, nth_error_seq in Hnth.
  destruct (Nat.ltb_spec i (length nodes)); [|lia].
  injection Hnth as Hnth. exact Hnth.
Qed.

Lemma buildGraph_consecutive_ids_witness :
  let r := buildGraph globMatch 3 ["ci"] exampleScripts None in
  r = Ok (okNodes r, okCounter r) /\
  (forall i x, nth_error (okNodes r) i = Some x -> en_id x = nodeIdOf (3 + i)) /\
  okCounter r = 3 + length (okNodes r).
Proof.
  cbv zeta. split; [vm_compute; reflexivity|].
  apply (buildGraph_consecutive_ids globMatch 3 ["ci"] exampleScripts None).
  vm_compute. reflexivity.
Defined.

(** X13: a builder that runs [buildGraph] twice, the second time from the
    counter the first run left, never hands out the same node id twice:
    the ids of the two results together are pairwise distinct. *)
Theorem buildGraph_successive_ids_distinct (isMatch : string -> string -> bool)
        (counter : nat) (patterns1 patterns2 : list string) (scripts1 scripts2 : list Script)
        (command1 command2 : option string) (nodes1 nodes2 : list ExecutionNode) (n1 n2 : nat) :
  buildGraph isMatch counter patterns1 scripts1 command1 = Ok (nodes1, n1) ->
  buildGraph isMatch n1 patterns2 scripts2 command2 = Ok (nodes2, n2) ->
  NoDup (map en_id (nodes1 ++ nodes2)).
Proof.
  intros H1 H2.
  destruct (buildGraph_ids_counter _ _ _ _ _ _ _ H1) as [Hm1 Hn1].
  destruct (buildGraph_ids_counter _ _ _ _ _ _ _ H2) as [Hm2 _].
  rewrite map_app, Hm1, Hm2, Hn1, <- map_app, <- seq_app.
  apply NoDup_map_nodeIdOf, seq_NoDup.
Qed.

Lemma buildGraph_successive_ids_distinct_witness :
  let r1 := buildGraph globMatch 0 ["check"] exampleScripts None in
  let r2 := buildGraph globMatch (okCounter r1) ["ci"] exampleScripts None in
  r1 = Ok (okNodes r1, okCounter r1) /\ r2 = Ok (okNodes r2, okCounter r2) /\
  NoDup (map en_id (okNodes r1 ++ okNodes r2)).
Proof.
  cbv zeta. split; [vm_compute; reflexivity|]. split; [vm_compute; reflexivity|].
  apply (buildGraph_successive_ids_distinct globMatch 0 ["check"] ["ci"] exampleScripts
           exampleScripts None None _ _ (okCounter (buildGraph globMatch 0 ["check"] exampleScripts None))
           (okCounter (buildGraph globMatch (okCounter (buildGraph globMatch 0 ["check"] exampleScripts None)) ["ci"] exampleScripts None)));
    vm_compute; reflexivity.
Defined.

(** X14: [execute]'s scheduling loop always ends, whatever the nodes,
    the options and the outcome of each task: it returns or throws
    within [nodes.length + 1] iterations. *)
Theorem execute_terminates (opts : Executor.RunOptions) (taskFails : Task -> bool)
        (nodes : list ExecutionNode) (aborted : bool) :
  Executor.executeF opts taskFails (S (length nodes)) nodes (Executor.initialState aborted)
  <> None.
Proof.
  apply (executeF_defined _ _ _ aborted); [apply execInv_initial|]. cbn. lia.
Qed.

(** X15: when [execute] returns normally and the run was not aborted,
    every node has been completed. *)
Theorem execute_ok_completes_all (opts : Executor.RunOptions) (taskFails : Task -> bool)
        (nodes : list ExecutionNode) (fuel : nat) (st : Executor.ExecState) :
  Executor.executeF opts taskFails fuel nodes (Executor.initialState false) = Some (Ok st) ->
  forall n, In n nodes -> In (en_id n) (Executor.es_completed st).
Proof.
  intros H. destruct (executeF_ok_inv _ _ _ _ _ _ _ (execInv_initial nodes false) H)
    as [Hinv Hexit].
  pose proof Hinv as [Hrun [Hab [Hnd [Hincl _]]]].
  intros n Hn. destruct (in_dec string_dec (en_id n) (Executor.es_completed st)) as [|Hni];
    [assumption|exfalso].
  unfold Executor.loopStep in Hexit. rewrite Hab in Hexit. cbn [negb] in Hexit.
  rewrite andb_true_r in Hexit.
  destruct (Nat.ltb_spec (length (Executor.es_completed st)) (length nodes)) as [Hlt|Hge].
  - cbn [negb] in Hexit. cbv zeta in Hexit.
    destruct (filter (Executor.canRun st) nodes) as [|r rs] eqn:Er.
    + rewrite Hrun in Hexit.
      destruct (filter (fun n => negb (Executor.mem (en_id n) (Executor.es_completed st))) nodes)
        as [|y ys] eqn:Erem; [|discriminate].
      assert (Hin : In n (filter (fun n => negb (Executor.mem (en_id n) (Executor.es_completed st)))
                            nodes)).
      { apply filter_In. split; [exact Hn|]. apply negb_true_iff.
        destruct (Executor.mem _ _) eqn:Em; [|reflexivity]. apply mem_In in Em. contradiction. }
      rewrite Erem in Hin. destruct Hin.
    + destruct (filter (Executor.runNodeThrows opts taskFails st) (r :: rs)); [discriminate|].
      destruct (Executor.opt_continue opts); discriminate.
  - assert (Hle : length (en_id n :: Executor.es_completed st) <= length (map en_id nodes)).
    { apply NoDup_incl_length; [constructor; assumption|].
      intros x [<-|Hx]; [apply in_map, Hn|apply Hincl, Hx]. }
    rewrite length_map in Hle. cbn [length] in Hle. lia.
Qed.

Lemma execute_ok_completes_all_witness :
  Executor.executeF (Executor.mkRunOptions false) (fun _ => false) 3
    [mkNode [] "node_0" false [mkTask "tsc" [] "build"];
     mkNode ["node_0"] "node_1" false [mkTask "vitest run" [] "test"]]
    (Executor.initialState false)
  = Some (Ok (Executor.mkExecState [] ["node_0"; "node_1"] [] false)) /\
  forall n, In n [mkNode [] "node_0" false [mkTask "tsc" [] "build"];
                  mkNode ["node_0"] "node_1" false [mkTask "vitest run" [] "test"]] ->
  In (en_id n) ["node_0"; "node_1"].
Proof.
  split; [vm_compute; reflexivity|].
  apply (execute_ok_completes_all (Executor.mkRunOptions false) (fun _ => false)
           [mkNode [] "node_0" false [mkTask "tsc" [] "build"];
            mkNode ["node_0"] "node_1" false [mkTask "vitest run" [] "test"]] 3
           (Executor.mkExecState [] ["node_0"; "node_1"] [] false)).
  vm_compute. reflexivity.
Defined.

(** X16: nodes complete in dependency order: when [execute] returns
    normally, each completed id belongs to a node whose dependencies were
    all completed before it. *)
Theorem execute_completion_order (opts : Executor.RunOptions) (taskFails : Task -> bool)
        (nodes : list ExecutionNode) (aborted : bool) (fuel : nat) (st : Executor.ExecState) :
  Executor.executeF opts taskFails fuel nodes (Executor.initialState aborted) = Some (Ok st) ->
  forall l1 x l2, Executor.es_completed st = l1 ++ x :: l2 ->
  exists n, In n nodes /\ en_id n = x /\ incl (en_dependencies n) l1.
Proof.
  intros H. destruct (executeF_ok_inv _ _ _ _ _ _ _ (execInv_initial nodes aborted) H)
    as [[_ [_ [_ [_ Hord]]]] _].
  exact Hord.
Qed.

Lemma execute_completion_order_witness :
  Executor.executeF (Executor.mkRunOptions false) (fun _ => false) 3
    [mkNode ["node_1"] "node_2" false [mkTask "deploy" [] "deploy"];
     mkNode [] "node_1" false [mkTask "tsc" [] "build"]]
    (Executor.initialState false)
  = Some (Ok (Executor.mkExecState [] ["node_1"; "node_2"] [] false)) /\
  exists n, In n [mkNode ["node_1"] "node_2" false [mkTask "deploy" [] "deploy"];
                  mkNode [] "node_1" false [mkTask "tsc" [] "build"]] /\
    en_id n = "node_2" /\ incl (en_dependencies n) ["node_1"].
Proof.
  split; [vm_compute; reflexivity|].
  apply (execute_completion_order (Executor.mkRunOptions false) (fun _ => false)
           [mkNode ["node_1"] "node_2" false [mkTask "deploy" [] "deploy"];
            mkNode [] "node_1" false [mkTask "tsc" [] "build"]] false 3
           (Executor.mkExecState [] ["node_1"; "node_2"] [] false) ltac:(vm_compute; reflexivity)
           ["node_1"] "node_2" []);
    vm_compute; reflexivity.
Defined.

(** X17: with [continue] set, [execute] never fails because a task
    failed: the only error it can raise is the one for nodes left
    unrunnable. *)
Theorem execute_continue_only_stuck (taskFails : Task -> bool) (nodes : list ExecutionNode)
        (fuel : nat) (st : Executor.ExecState) (e : Executor.ExecError) :
  Executor.executeF (Executor.mkRunOptions true) taskFails fuel nodes st = Some (Error e) ->
  exists ids, e = Executor.StuckError ids.
Proof.
  revert st. induction fuel as [|f IH]; intros st H; [discriminate|].
  cbn [Executor.executeF] in H.
  destruct (Executor.loopStep (Executor.mkRunOptions true) taskFails nodes st) as [s|s|e'] eqn:E;
    [discriminate|exact (IH s H)|].
  injection H as ->. unfold Executor.loopStep in E.
  destruct (negb (Nat.ltb (length (Executor.es_completed st)) (length nodes) &&
                  negb (Executor.es_aborted st))); [discriminate|].
  cbv zeta in E. destruct (filter (Executor.canRun st) nodes) as [|r rs] eqn:Er.
  - destruct (Executor.es_running st); [|discriminate].
    destruct (filter (fun n => negb (Executor.mem (en_id n) (Executor.es_completed st))) nodes);
      [discriminate|]. injection E as <-. eexists. reflexivity.
  - destruct (filter (Executor.runNodeThrows (Executor.mkRunOptions true) taskFails st) (r :: rs))
      as [|n0 ns] eqn:Et; [discriminate|cbn [Executor.opt_continue] in E; discriminate].
Qed.

Lemma execute_continue_only_stuck_witness :
  Executor.executeF (Executor.mkRunOptions true) (fun _ => true) 5
    [mkNode ["node_9"] "node_0" false [mkTask "false" [] "a"]] (Executor.initialState false)
  = Some (Error (Executor.StuckError ["node_0"])) /\
  exists ids, Executor.StuckError ["node_0"] = Executor.StuckError ids.
Proof.
  split; [vm_compute; reflexivity|].
  apply (execute_continue_only_stuck (fun _ => true)
           [mkNode ["node_9"] "node_0" false [mkTask "false" [] "a"]] 5
           (Executor.initialState false)). vm_compute. reflexivity.
Defined.

(** X18: registering task names gives each distinct name one color, in
    the order of first registration: the k-th distinct name gets the
    k-th entry of [colors] (cyan, green, yellow, blue, magenta, red,
    gray, white), wrapping around after eight names; registering a name
    again changes nothing. *)
Theorem registerTask_colors (c : Logger.LoggerConfig) (names : list string) :
  let st := fold_left Logger.registerTask names (Logger.newLogger c) in
  map fst (Logger.colorMap st) = dedup names /\
  map snd (Logger.colorMap st) = map (fun k => k mod 8) (seq 0 (length (dedup names))).
Proof.
  cbv zeta. destruct (registerTasks_inv c names) as [Hk [Hv _]]. split; assumption.
Qed.

(** X19: with the default prefix, the line [formatLine] writes for any
    registered task is its [[name]] padded with spaces to the width of
    the longest registered name plus two, in the task's color, then a
    gray [|]: the separators of all registered tasks line up. *)
Theorem formatLine_aligned (paint : nat -> string -> string) (c : Logger.LoggerConfig)
        (names : list string) (t line : string) :
  Logger.lc_prefix c = None \/ Logger.lc_prefix c = Some (Logger.PrefixFlag true) ->
  In t names ->
  let st := fold_left Logger.registerTask names (Logger.newLogger c) in
  exists color pad,
    Logger.colorGet (Logger.colorMap st) t = Some color /\
    Logger.formatLine paint st t line
    = (paint color ("[" ++ t ++ "]" ++ pad) ++ " " ++ paint Logger.gray "|" ++ " " ++ line)%string /\
    String.length ("[" ++ t ++ "]" ++ pad)%string = Logger.maxPrefixLength st + 2 /\
    pad = Logger.spaces (String.length pad).
Proof.
  intros Hpre Ht. cbv zeta.
  destruct (registerTasks_inv c names) as [Hk [_ [_ [Hm [Hp _]]]]].
  set (st := fold_left Logger.registerTask names (Logger.newLogger c)) in *.
  assert (Hin : In t (map fst (Logger.colorMap st))).
  { rewrite Hk. unfold dedup. apply In_dedupAux. split; [exact Ht|intros []]. }
  destruct (colorGet_In _ _ Hin) as [color Hc].
  exists color, (Logger.spaces (Logger.maxPrefixLength st - String.length t)).
  split; [exact Hc|]. specialize (Hm t Ht).
  assert (Hpc : Logger.prefixCfg st = Logger.PrefixFlag true).
  { rewrite Hp. cbn. destruct Hpre as [-> | ->]; reflexivity. }
  split; [|split].
  - unfold Logger.formatLine. rewrite Hpc, Hc. unfold Logger.padEnd.
    rewrite !length_append_str. cbn [String.length append].
    replace (Logger.maxPrefixLength st + 2 - (1 + (String.length t + 1)))
      with (Logger.maxPrefixLength st - String.length t) by lia.
    rewrite !append_assoc_str. reflexivity.
  - rewrite !length_append_str, length_spaces. cbn [String.length]. lia.
  - rewrite length_spaces. reflexivity.
Qed.

Lemma formatLine_aligned_witness :
  (Logger.lc_prefix (Logger.mkLoggerConfig None None) = None \/
   Logger.lc_prefix (Logger.mkLoggerConfig None None) = Some (Logger.PrefixFlag true)) /\
  In "lint" ["build"; "lint"; "test:unit"] /\
  exists color pad,
    Logger.colorGet (Logger.colorMap (fold_left Logger.registerTask ["build"; "lint"; "test:unit"]
                                        (Logger.newLogger (Logger.mkLoggerConfig None None))))
      "lint" = Some color /\
    Logger.formatLine (fun _ s => s)
      (fold_left Logger.registerTask ["build"; "lint"; "test:unit"]
         (Logger.newLogger (Logger.mkLoggerConfig None None))) "lint" "ok"
    = ((fun _ s => s) color ("[" ++ "lint" ++ "]" ++ pad) ++ " " ++
       (fun _ s => s) Logger.gray "|" ++ " " ++ "ok")%string /\
    String.length ("[" ++ "lint" ++ "]" ++ pad)%string
    = Logger.maxPrefixLength (fold_left Logger.registerTask ["build"; "lint"; "test:unit"]
                                (Logger.newLogger (Logger.mkLoggerConfig None None))) + 2 /\
    pad = Logger.spaces (String.length pad).
Proof.
  split; [left; reflexivity|]. split; [right; left; reflexivity|].
  exact (formatLine_aligned (fun _ s => s) (Logger.mkLoggerConfig None None)
           ["build"; "lint"; "test:unit"] "lint" "ok" (or_introl eq_refl)
           (or_intror (or_introl eq_refl))).
Defined.

(** X20: with [prefix: false] and [quiet] off, [log] writes the message's
    non-blank lines unchanged, one per line, and [error] writes the same
    lines painted red, with no task prefix. *)
Theorem log_no_prefix (paint : nat -> string -> string) (st : Logger.LoggerState)
        (taskName message : string) :
  Logger.prefixCfg st = Logger.PrefixFlag false -> Logger.quietCfg st = false ->
  Logger.log paint st taskName message = Logger.nonBlankLines message /\
  Logger.error paint st taskName message = map (paint Logger.red) (Logger.nonBlankLines message).
Proof.
  intros Hp Hq. unfold Logger.log, Logger.error, Logger.formatLine. rewrite Hq, Hp.
  split; [apply map_id|reflexivity].
Qed.

Lemma log_no_prefix_witness :
  Logger.prefixCfg (Logger.newLogger (Logger.mkLoggerConfig (Some (Logger.PrefixFlag false)) None))
  = Logger.PrefixFlag false /\
  Logger.quietCfg (Logger.newLogger (Logger.mkLoggerConfig (Some (Logger.PrefixFlag false)) None))
  = false /\
  Logger.log (fun _ s => s)
    (Logger.newLogger (Logger.mkLoggerConfig (Some (Logger.PrefixFlag false)) None)) "build"
    (String (ascii_of_nat 10) "built ok")
  = Logger.nonBlankLines (String (ascii_of_nat 10) "built ok") /\
  Logger.error (fun _ s => s)
    (Logger.newLogger (Logger.mkLoggerConfig (Some (Logger.PrefixFlag false)) None)) "build"
    (String (ascii_of_nat 10) "built ok")
  = map ((fun _ s => s) Logger.red) (Logger.nonBlankLines (String (ascii_of_nat 10) "built ok")).
Proof.
  split; [reflexivity|]. split; [reflexivity|].
  apply log_no_prefix; reflexivity.
Defined.

End Extras.
